(** * Kaoyan vocabulary trainer: mistake ledger, review scheduler and quiz session

    A shallow embedding of the application component ([App], the file that
    imports [./types] and [./services/geminiService]) and of
    [services/geminiService.ts], followed by the properties of the mistake
    ledger, the review scheduler, the two-strike answer machine, batch loading
    and persistence.

    Conventions.
    - A React state cell [const [x, setX] = useState(..)] is a field [x] of
      [State] with a setter [setX]; a handler is a function [State -> State]
      that reads the cells of the render it was created in (its argument) and
      applies the setters in source order.
    - [Math.random()] and [Date.now()] are inputs of the handler that calls
      them: a binary64 number [u] with [0 <= u < 1], written as a fraction
      with a power of two below, and an integer number of milliseconds.
      [Math.random() * n] is rounded as binary64 rounds it.
    - Promises and timers are explicit: a table of promises, the list of
      continuations waiting on them, and the queue of pending [setTimeout]
      callbacks.  Settling a promise and firing a timer are events of the
      session, like clicks.
    - [fetchWordBatch] works on JSON values, whatever the provider sent; the
      session takes a batch that arrives for cards, as the cast in the source
      does.
    - The audio helpers ([handleAudioPlay], [preloadAudio],
      [playPronunciation]) touch only [isLoadingAudio] and the audio cache;
      they are a machine of their own, next to the session. *)

From Stdlib Require Import ZArith QArith Lia Permutation.
From Stdlib Require Import Ascii String Decimal DecimalN.
From stdpp Require Import base list strings gmap.

Set Default Proof Using "Type".

(** * The program *)

(** ** types.ts *)

Record WordCard := mkWordCard {
  word : string;
  phonetic : string;
  meaning : string;
  options : list string;
  mnemonic : string;
  sentence : string;
  sentenceTranslation : string
}.

Inductive AppStatus := IDLE | LOADING | QUIZ | REVIEW | MISTAKES.

(** [MistakeRecord extends WordCard]: the card's own properties, then
    [timestamp] and [consecutiveCorrect]. *)
Record MistakeRecord := mkMistakeRecord {
  card :> WordCard;
  timestamp : Z;
  consecutiveCorrect : nat
}.

#[global] Instance AppStatus_eq_dec : EqDecision AppStatus.
Proof. solve_decision. Defined.

#[global] Instance WordCard_eq_dec : EqDecision WordCard.
Proof. solve_decision. Defined.

#[global] Instance MistakeRecord_eq_dec : EqDecision MistakeRecord.
Proof. solve_decision. Defined.

(** [{ ...m, consecutiveCorrect: n }] *)
Definition withConsecutiveCorrect (n : nat) (m : MistakeRecord) : MistakeRecord :=
  {| card := card m; timestamp := timestamp m; consecutiveCorrect := n |}.

(** [x || 0] on a number: [0] (like [NaN]) is falsy and gives the right
    operand, any other number is returned as it is. *)
Definition or0 (x : nat) : nat := if decide (x = 0) then 0 else x.

(** ** The session state *)

(** What the promise returned by [fetchWordBatch] settles to. *)
Inductive FetchResult :=
| Fulfilled (newWords : list WordCard)
| Rejected.

(** The code that runs when an awaited batch arrives: the rest of
    [startSession] after its [await] (reading the prefetch kept in
    [initFetchPromise], or a fetch of its own), or the [.then]/[.catch] pair
    of [nextWord]. *)
Inductive Continuation :=
| StartCont (fromPrefetch : bool)
| NextCont.

#[global] Instance Continuation_eq_dec : EqDecision Continuation.
Proof. solve_decision. Defined.

Inductive Effect :=
| ConsoleError
| Alert (msg : string).

Record State := mkState {
  status : AppStatus;
  words : list WordCard;
  currentIndex : nat;
  mistakes : list MistakeRecord;
  selectedOption : option string;
  wrongCandidates : list string;
  showReward : bool;
  reviewWord : option MistakeRecord;
  wordsSinceReview : nat;
  nextReviewThreshold : nat;
  (** [initFetchPromise.current]: an index into [promises] *)
  initFetchPromise : option nat;
  (** every promise created by [fetchWordBatch()]; [None] while pending *)
  promises : list (option FetchResult);
  (** continuations registered with [await] / [.then], oldest first *)
  awaiters : list (nat * Continuation);
  (** the [option] captured by each pending [setTimeout] callback, oldest first *)
  timers : list string;
  (** the calls of [alert] and [console.error] made so far, newest first
      (what the runtime reports of its own, such as a rejection nobody
      handles, is not recorded) *)
  effects : list Effect
}.

Definition setStatus (v : AppStatus) (s : State) : State :=
  mkState v (words s) (currentIndex s) (mistakes s) (selectedOption s)
    (wrongCandidates s) (showReward s) (reviewWord s) (wordsSinceReview s)
    (nextReviewThreshold s) (initFetchPromise s) (promises s) (awaiters s)
    (timers s) (effects s).

Definition setWords (v : list WordCard) (s : State) : State :=
  mkState (status s) v (currentIndex s) (mistakes s) (selectedOption s)
    (wrongCandidates s) (showReward s) (reviewWord s) (wordsSinceReview s)
    (nextReviewThreshold s) (initFetchPromise s) (promises s) (awaiters s)
    (timers s) (effects s).

Definition setCurrentIndex (v : nat) (s : State) : State :=
  mkState (status s) (words s) v (mistakes s) (selectedOption s)
    (wrongCandidates s) (showReward s) (reviewWord s) (wordsSinceReview s)
    (nextReviewThreshold s) (initFetchPromise s) (promises s) (awaiters s)
    (timers s) (effects s).

Definition setMistakes (v : list MistakeRecord) (s : State) : State :=
  mkState (status s) (words s) (currentIndex s) v (selectedOption s)
    (wrongCandidates s) (showReward s) (reviewWord s) (wordsSinceReview s)
    (nextReviewThreshold s) (initFetchPromise s) (promises s) (awaiters s)
    (timers s) (effects s).

Definition setSelectedOption (v : option string) (s : State) : State :=
  mkState (status s) (words s) (currentIndex s) (mistakes s) v
    (wrongCandidates s) (showReward s) (reviewWord s) (wordsSinceReview s)
    (nextReviewThreshold s) (initFetchPromise s) (promises s) (awaiters s)
    (timers s) (effects s).

Definition setWrongCandidates (v : list string) (s : State) : State :=
  mkState (status s) (words s) (currentIndex s) (mistakes s) (selectedOption s)
    v (showReward s) (reviewWord s) (wordsSinceReview s)
    (nextReviewThreshold s) (initFetchPromise s) (promises s) (awaiters s)
    (timers s) (effects s).

Definition setShowReward (v : bool) (s : State) : State :=
  mkState (status s) (words s) (currentIndex s) (mistakes s) (selectedOption s)
    (wrongCandidates s) v (reviewWord s) (wordsSinceReview s)
    (nextReviewThreshold s) (initFetchPromise s) (promises s) (awaiters s)
    (timers s) (effects s).

Definition setReviewWord (v : option MistakeRecord) (s : State) : State :=
  mkState (status s) (words s) (currentIndex s) (mistakes s) (selectedOption s)
    (wrongCandidates s) (showReward s) v (wordsSinceReview s)
    (nextReviewThreshold s) (initFetchPromise s) (promises s) (awaiters s)
    (timers s) (effects s).

Definition setWordsSinceReview (v : nat) (s : State) : State :=
  mkState (status s) (words s) (currentIndex s) (mistakes s) (selectedOption s)
    (wrongCandidates s) (showReward s) (reviewWord s) v
    (nextReviewThreshold s) (initFetchPromise s) (promises s) (awaiters s)
    (timers s) (effects s).

Definition setNextReviewThreshold (v : nat) (s : State) : State :=
  mkState (status s) (words s) (currentIndex s) (mistakes s) (selectedOption s)
    (wrongCandidates s) (showReward s) (reviewWord s) (wordsSinceReview s)
    v (initFetchPromise s) (promises s) (awaiters s)
    (timers s) (effects s).

Definition setInitFetchPromise (v : option nat) (s : State) : State :=
  mkState (status s) (words s) (currentIndex s) (mistakes s) (selectedOption s)
    (wrongCandidates s) (showReward s) (reviewWord s) (wordsSinceReview s)
    (nextReviewThreshold s) v (promises s) (awaiters s)
    (timers s) (effects s).

Definition setPromises (v : list (option FetchResult)) (s : State) : State :=
  mkState (status s) (words s) (currentIndex s) (mistakes s) (selectedOption s)
    (wrongCandidates s) (showReward s) (reviewWord s) (wordsSinceReview s)
    (nextReviewThreshold s) (initFetchPromise s) v (awaiters s)
    (timers s) (effects s).

Definition setAwaiters (v : list (nat * Continuation)) (s : State) : State :=
  mkState (status s) (words s) (currentIndex s) (mistakes s) (selectedOption s)
    (wrongCandidates s) (showReward s) (reviewWord s) (wordsSinceReview s)
    (nextReviewThreshold s) (initFetchPromise s) (promises s) v
    (timers s) (effects s).

Definition setTimers (v : list string) (s : State) : State :=
  mkState (status s) (words s) (currentIndex s) (mistakes s) (selectedOption s)
    (wrongCandidates s) (showReward s) (reviewWord s) (wordsSinceReview s)
    (nextReviewThreshold s) (initFetchPromise s) (promises s) (awaiters s)
    v (effects s).

Definition emit (e : Effect) (s : State) : State :=
  mkState (status s) (words s) (currentIndex s) (mistakes s) (selectedOption s)
    (wrongCandidates s) (showReward s) (reviewWord s) (wordsSinceReview s)
    (nextReviewThreshold s) (initFetchPromise s) (promises s) (awaiters s)
    (timers s) (e :: effects s).

(** [fetchWordBatch()]: a new pending promise; its index is returned. *)
Definition callFetchWordBatch (s : State) : nat * State :=
  (length (promises s), setPromises (promises s ++ [None]) s).

(** [await p] / [p.then(..).catch(..)] on a promise that has not settled. *)
Definition register (p : nat) (k : Continuation) (s : State) : State :=
  setAwaiters (awaiters s ++ [(p, k)]) s.

(** [setTimeout(() => ..., 1500)] *)
Definition setTimeout (opt : string) (s : State) : State :=
  setTimers (timers s ++ [opt]) s.

(** ** The mistake ledger *)

(** [prev.some(m => m.word === w)] *)
Definition hasWord (w : string) (prev : list MistakeRecord) : bool :=
  bool_decide (Exists (λ m : MistakeRecord, word m = w) prev).

(** The updater of [addToMistakes], lines 158-161. *)
Definition addRecord (wordToAdd : WordCard) (now : Z)
    (prev : list MistakeRecord) : list MistakeRecord :=
  if hasWord (word wordToAdd) prev then prev
  else mkMistakeRecord wordToAdd now 0 :: prev.

(** The updater of the correct review answer, lines 116-121. *)
Definition bumpStreak (w : string) (prev : list MistakeRecord) : list MistakeRecord :=
  (λ m : MistakeRecord,
     if decide (word m = w)
     then withConsecutiveCorrect (or0 (consecutiveCorrect m) + 1) m
     else m) <$> prev.

(** The updater of the failed review answer, lines 143-148. *)
Definition resetStreak (w : string) (prev : list MistakeRecord) : list MistakeRecord :=
  (λ m : MistakeRecord,
     if decide (word m = w) then withConsecutiveCorrect 0 m else m) <$> prev.

(** The updater of [removeMistake], line 215. *)
Definition dropWord (wordToRemove : string) (prev : list MistakeRecord) : list MistakeRecord :=
  filter (λ m : MistakeRecord, word m ≠ wordToRemove) prev.

(** [mistakes.filter(m => (m.consecutiveCorrect || 0) < 3)], line 181. *)
Definition reviewCandidates (ms : list MistakeRecord) : list MistakeRecord :=
  filter (λ m : MistakeRecord, or0 (consecutiveCorrect m) < 3) ms.

(** The words of the ledger, in ledger order. *)
Definition ledgerWords (l : list MistakeRecord) : list string :=
  (λ m : MistakeRecord, word m) <$> l.

(** ** Handlers of the component *)

Definition resetCardState (s : State) : State :=
  setShowReward false (setWrongCandidates [] (setSelectedOption None s)).

(** [reviewWord || words[currentIndex]] *)
Definition activeCard (s : State) : option WordCard :=
  match reviewWord s with
  | Some r => Some (card r)
  | None => words s !! currentIndex s
  end.

Definition addToMistakes (wordToAdd : WordCard) (now : Z) (s : State) : State :=
  setMistakes (addRecord wordToAdd now (mistakes s)) s.

Definition removeMistake (wordToRemove : string) (s : State) : State :=
  setMistakes (dropWord wordToRemove (mistakes s)) s.

Definition handleAnswer (opt : string) (now : Z) (s : State) : State :=
  match activeCard s with
  | None => s
  | Some active =>
    if decide (opt = meaning active) then
      (* correct *)
      let s1 := setShowReward true s in
      let s2 := match reviewWord s with
                | Some r => setMistakes (bumpStreak (word r) (mistakes s1)) s1
                | None => s1
                end in
      setTimeout opt s2
    else if decide (length (wrongCandidates s) = 0) then
      (* first mistake: a second chance *)
      setWrongCandidates (wrongCandidates s ++ [opt]) s
    else
      (* second mistake: fail *)
      let s1 := setStatus REVIEW (setSelectedOption (Some opt) s) in
      match reviewWord s with
      | Some r => setMistakes (resetStreak (word r) (mistakes s1)) s1
      | None => addToMistakes active now s1
      end
  end.

(** The callback given to [setTimeout] by a correct answer, lines 124-128. *)
Definition rewardTimeout (opt : string) (s : State) : State :=
  setStatus REVIEW (setSelectedOption (Some opt) (setShowReward false s)).

(** A binary64 number of magnitude below 1 is [a / 2^e] with [a] below [2^53]
    in magnitude and [e] at most 1074.  The fraction is taken as it is
    written: every such number has a fraction of this form. *)
Definition isBinary64 (u : Q) : bool :=
  let d := Z.pos (Qden u) in
  (2 ^ Z.log2 d =? d)%Z && (Z.log2 d <=? 1074)%Z
  && (Z.abs (Qnum u) <? 2 ^ 53)%Z.

(** Rounding to 53 significant bits, to nearest, ties to even: what binary64
    keeps of a non-negative integer significand.  [k] low bits are dropped. *)
Definition round53 (M : Z) : Z :=
  let k := (Z.log2 M + 1 - 53)%Z in
  if (k <=? 0)%Z then M
  else
    let q := (M / 2 ^ k)%Z in
    let r := (M mod 2 ^ k)%Z in
    let half := (2 ^ (k - 1))%Z in
    let q' := if (r <? half)%Z then q
              else if (half <? r)%Z then (q + 1)%Z
              else if Z.even q then q else (q + 1)%Z in
    (q' * 2 ^ k)%Z.

(** [Math.floor(u * n)] as an index, for a binary64 [u = a / 2^e] from 0 up to
    1 and an array length or small constant [n] (an integer binary64 holds
    exactly).  The product is computed in binary64: the exact product
    [a * n / 2^e] is rounded to 53 significant bits (it is below [n] and a
    multiple of [2^-1074], so the exponent range is not left), and
    [Math.floor] of the rounded product is exact. *)
Definition floorMul (u : Q) (n : nat) : nat :=
  Z.to_nat (round53 (Qnum u * Z.of_nat n) / Z.pos (Qden u)).

(** [Math.floor(Math.random() * 11) + 10] *)
Definition drawThreshold (u : Q) : nat := floorMul u 11 + 10.

(** What a waiting continuation does with the settled batch. *)
Definition resume (k : Continuation) (r : FetchResult) (s : State) : State :=
  match k, r with
  | StartCont fromPrefetch, Fulfilled newWords =>
    let s1 := if fromPrefetch then setInitFetchPromise None s else s in
    setStatus QUIZ
      (resetCardState
        (setWordsSinceReview 0
          (setReviewWord None
            (setCurrentIndex 0 (setWords newWords s1)))))
  | StartCont _, Rejected =>
    setInitFetchPromise None
      (setStatus IDLE
        (emit (Alert "Failed to load words. Please check your connection or API key.")
          (emit ConsoleError s)))
  | NextCont, Fulfilled newWords =>
    setStatus QUIZ (setCurrentIndex 0 (setWords newWords s))
  | NextCont, Rejected =>
    setStatus IDLE (emit ConsoleError s)
  end.

Definition startSession (s : State) : State :=
  let s1 := setStatus LOADING s in
  match initFetchPromise s with
  | Some p =>
    (* the background promise exists and has not been consumed *)
    match promises s !! p with
    | Some (Some r) => resume (StartCont true) r s1
    | _ => register p (StartCont true) s1
    end
  | None =>
    let '(p, s2) := callFetchWordBatch s1 in
    register p (StartCont false) s2
  end.

Definition nextWord (uIndex uThreshold : Q) (s : State) : State :=
  let s0 := resetCardState s in
  match reviewWord s with
  | Some _ =>
    (* a review card was just finished *)
    setStatus QUIZ (setReviewWord None s0)
  | None =>
    let nextCounter := wordsSinceReview s + 1 in
    let s1 := setWordsSinceReview nextCounter s0 in
    let candidates := reviewCandidates (mistakes s) in
    if decide (nextReviewThreshold s ≤ nextCounter ∧ 0 < length candidates) then
      let randomIndex := floorMul uIndex (length candidates) in
      setStatus QUIZ
        (setNextReviewThreshold (drawThreshold uThreshold)
          (setWordsSinceReview 0
            (setReviewWord (candidates !! randomIndex) s1)))
    else if decide (currentIndex s < length (words s) - 1) then
      setStatus QUIZ (setCurrentIndex (currentIndex s + 1) s1)
    else
      let '(p, s2) := callFetchWordBatch (setStatus LOADING s1) in
      register p NextCont s2
  end.


(** The component mounts: initial values of the state cells, the ledger read
    from local storage (when there is one), and the background fetch. *)
Definition mount (savedMistakes : option (list MistakeRecord)) : State :=
  {| status := IDLE; words := []; currentIndex := 0;
     mistakes := default [] savedMistakes;
     selectedOption := None; wrongCandidates := []; showReward := false;
     reviewWord := None; wordsSinceReview := 0; nextReviewThreshold := 10;
     initFetchPromise := Some 0; promises := [None]; awaiters := [];
     timers := []; effects := [] |}.

(** ** Events of a session

    A click is possible when the button is rendered and enabled
    ([renderWelcome], [renderQuiz], [renderReview], [renderMistakes] and the
    top bar); a promise settles once; the oldest pending timer fires first
    (all have the same delay). *)

Inductive Event :=
| ClickLogo
| ClickTopMistakes
| ClickStart
| ClickNotebook
| ClickClose
| ClickOption (idx : nat) (now : Z)
| ClickNext (uIndex uThreshold : Q)
| ClickManualAdd (now : Z)
| ClickRemove (idx : nat)
| FetchSettled (p : nat) (r : FetchResult)
| TimerFired.

(** A value [Math.random()] can return: a binary64 number from 0 up to but
    not including 1. *)
Definition isRandom (u : Q) : bool :=
  Qle_bool 0 u && negb (Qle_bool 1 u) && isBinary64 u.

(** The promise [p] settles: [fetchWordBatch] logs a failure itself (line 67)
    and the continuations waiting on [p] run in registration order. *)
Definition settle (p : nat) (r : FetchResult) (s : State) : State :=
  let s1 := setPromises (<[p := Some r]> (promises s)) s in
  let s2 := match r with Rejected => emit ConsoleError s1 | Fulfilled _ => s1 end in
  let waiting := filter (λ a : nat * Continuation, a.1 = p) (awaiters s) in
  let s3 := setAwaiters (filter (λ a : nat * Continuation, a.1 ≠ p) (awaiters s)) s2 in
  foldl (λ st a, resume a.2 r st) s3 waiting.

Definition step (e : Event) (s : State) : option State :=
  match e with
  | ClickLogo => Some (setStatus IDLE s)
  | ClickTopMistakes =>
    if decide (status s ≠ MISTAKES ∧ status s ≠ IDLE)
    then Some (setStatus MISTAKES s) else None
  | ClickStart =>
    if decide (status s = IDLE) then Some (startSession s) else None
  | ClickNotebook =>
    if decide (status s = IDLE ∧ length (mistakes s) ≠ 0)
    then Some (setStatus MISTAKES s) else None
  | ClickClose =>
    if decide (status s = MISTAKES) then Some (setStatus IDLE s) else None
  | ClickOption idx now =>
    if decide (status s = QUIZ) then
      match activeCard s with
      | Some active =>
        match options active !! idx with
        | Some opt =>
          let isWrong := bool_decide (opt ∈ wrongCandidates s) in
          if isWrong || showReward s then None
          else Some (handleAnswer opt now s)
        | None => None
        end
      | None => None
      end
    else None
  | ClickNext uIndex uThreshold =>
    if decide (status s = REVIEW) then
      match activeCard s with
      | Some _ =>
        if isRandom uIndex && isRandom uThreshold
        then Some (nextWord uIndex uThreshold s) else None
      | None => None
      end
    else None
  | ClickManualAdd now =>
    if decide (status s = REVIEW) then
      match activeCard s, reviewWord s with
      | Some active, None =>
        if hasWord (word active) (mistakes s) then None
        else Some (addToMistakes active now s)
      | _, _ => None
      end
    else None
  | ClickRemove idx =>
    if decide (status s = MISTAKES) then
      match mistakes s !! idx with
      | Some m => Some (removeMistake (word (card m)) s)
      | None => None
      end
    else None
  | FetchSettled p r =>
    match promises s !! p with
    | Some None => Some (settle p r s)
    | _ => None
    end
  | TimerFired =>
    match timers s with
    | opt :: rest => Some (rewardTimeout opt (setTimers rest s))
    | [] => None
    end
  end.

Arguments step : simpl never.

Fixpoint run (es : list Event) (s : State) : option State :=
  match es with
  | [] => Some s
  | e :: es' =>
    match step e s with
    | Some s' => run es' s'
    | None => None
    end
  end.

(** The states a session can be in after mounting with the stored ledger. *)
Definition reachable (savedMistakes : option (list MistakeRecord)) (s : State) : Prop :=
  ∃ es, run es (mount savedMistakes) = Some s.

(** ** Notions used by the properties *)

(** A record the scheduler may inject: its streak is below the mastery
    threshold. *)
Definition eligible (m : MistakeRecord) : Prop := consecutiveCorrect m < 3.

#[global] Instance eligible_dec m : Decision (eligible m).
Proof. unfold eligible. apply _. Defined.

(** Clicks on option buttons one after the other, nothing else happening in
    between.  A click on a button that is not rendered or is disabled does
    nothing; the others reach [handleAnswer].  Returns how many did, and the
    state at the end. *)
Fixpoint clickOptions (clicks : list (nat * Z)) (s : State) : nat * State :=
  match clicks with
  | [] => (0, s)
  | (idx, now) :: rest =>
    match step (ClickOption idx now) s with
    | Some s' => let '(n, s'') := clickOptions rest s' in (S n, s'')
    | None => clickOptions rest s
    end
  end.

(** How many more submissions the card on screen can take. *)
Definition strikesLeft (s : State) : nat :=
  if decide (status s = QUIZ) then
    if showReward s then 0
    else if decide (length (wrongCandidates s) = 0) then 2 else 1
  else 0.

(** A batch requested by [nextWord] arrives while a review word is set. *)
Definition staleBatch (e : Event) (s : State) : Prop :=
  match e with
  | FetchSettled p (Fulfilled _) =>
    is_Some (reviewWord s) ∧ (p, NextCont) ∈ awaiters s
  | _ => False
  end.

(** No event of the run is such an arrival. *)
Fixpoint noStaleBatch (es : list Event) (s : State) : Prop :=
  match es with
  | [] => True
  | e :: es' =>
    ¬ staleBatch e s
    ∧ match step e s with
      | Some s' => noStaleBatch es' s'
      | None => True
      end
  end.

(** Streaks are at most 3, ledger words are distinct, and a review card that
    takes answers has a streak below 3 in the ledger. *)
Definition streaksBounded (s : State) : Prop :=
  NoDup (ledgerWords (mistakes s))
  ∧ Forall (λ m : MistakeRecord, consecutiveCorrect m ≤ 3) (mistakes s)
  ∧ (status s = QUIZ → showReward s = false →
     ∀ r : MistakeRecord, reviewWord s = Some r →
     ∀ m : MistakeRecord, m ∈ mistakes s → word m = word r →
     consecutiveCorrect m < 3).

(** ** The platform's JSON

    [JSON.stringify] and [JSON.parse] on the values the ledger is made of:
    arrays, objects, strings and integers.  Strings are byte strings: a
    character outside ASCII is the bytes of its UTF-8 form and is written
    as it is. *)

Module JSON.

(** The JSON values: numbers are integers, strings are byte strings. *)
#[local] Unset Elimination Schemes.
Inductive value :=
| Null
| Bool (b : bool)
| Number (z : Z)
| String (s : string)
| Array (elements : list value)
| Object (members : list (string * value)).
#[local] Set Elimination Schemes.

(** *** [JSON.stringify] *)

Definition hexDigit (n : nat) : ascii :=
  ascii_of_nat (if decide (n < 10) then 48 + n else 87 + n).

(** [QuoteJSONString], one character. *)
Definition escape (c : ascii) : list ascii :=
  let n := nat_of_ascii c in
  if decide (n = 34) then ["\"; "034"]%char
  else if decide (n = 92) then ["\"; "\"]%char
  else if decide (n = 8) then ["\"; "b"]%char
  else if decide (n = 9) then ["\"; "t"]%char
  else if decide (n = 10) then ["\"; "n"]%char
  else if decide (n = 12) then ["\"; "f"]%char
  else if decide (n = 13) then ["\"; "r"]%char
  else if decide (n < 32)
       then ["\"; "u"; "0"; "0"; hexDigit (n `div` 16); hexDigit (n `mod` 16)]%char
  else [c].

Fixpoint escapeAll (s : list ascii) : list ascii :=
  match s with
  | [] => []
  | c :: s' => escape c ++ escapeAll s'
  end.

Definition quote (s : string) : list ascii :=
  "034"%char :: escapeAll (list_ascii_of_string s) ++ ["034"%char].

Fixpoint uintChars (d : uint) : list ascii :=
  match d with
  | Nil => []
  | D0 d => "0"%char :: uintChars d
  | D1 d => "1"%char :: uintChars d
  | D2 d => "2"%char :: uintChars d
  | D3 d => "3"%char :: uintChars d
  | D4 d => "4"%char :: uintChars d
  | D5 d => "5"%char :: uintChars d
  | D6 d => "6"%char :: uintChars d
  | D7 d => "7"%char :: uintChars d
  | D8 d => "8"%char :: uintChars d
  | D9 d => "9"%char :: uintChars d
  end.

(** [Number::toString] of an integer. *)
Definition numberChars (z : Z) : list ascii :=
  if decide (z < 0)%Z then "-"%char :: uintChars (N.to_uint (Z.to_N (- z)))
  else uintChars (N.to_uint (Z.to_N z)).

Fixpoint chars (v : value) : list ascii :=
  match v with
  | Null => list_ascii_of_string "null"
  | Bool true => list_ascii_of_string "true"
  | Bool false => list_ascii_of_string "false"
  | Number z => numberChars z
  | String s => quote s
  | Array elements =>
    "["%char ::
    (fix elems (l : list value) : list ascii :=
       match l with
       | [] => ["]"%char]
       | v :: l' =>
         chars v ++ match l' with
                    | [] => ["]"%char]
                    | _ :: _ => ","%char :: elems l'
                    end
       end) elements
  | Object members =>
    "{"%char ::
    (fix membs (l : list (string * value)) : list ascii :=
       match l with
       | [] => ["}"%char]
       | (k, v) :: l' =>
         quote k ++ ":"%char :: chars v
         ++ match l' with
            | [] => ["}"%char]
            | _ :: _ => ","%char :: membs l'
            end
       end) members
  end.

Definition stringify (v : value) : string := string_of_list_ascii (chars v).

(** *** [JSON.parse] *)

Definition isWs (c : ascii) : bool :=
  let n := nat_of_ascii c in
  bool_decide (n = 32 ∨ n = 9 ∨ n = 10 ∨ n = 13).

Fixpoint skipWs (inp : list ascii) : list ascii :=
  match inp with
  | c :: rest => if isWs c then skipWs rest else inp
  | [] => []
  end.

Definition hexValue (c : ascii) : option nat :=
  let n := nat_of_ascii c in
  if decide (48 ≤ n ≤ 57) then Some (n - 48)
  else if decide (97 ≤ n ≤ 102) then Some (n - 87)
  else if decide (65 ≤ n ≤ 70) then Some (n - 55)
  else None.

(** The characters of a string literal after its opening quote, up to and
    without the closing quote.  An escape [\uXXXX] above U+007F has no
    counterpart in a byte string and is refused. *)
Fixpoint parseString (inp : list ascii) : option (list ascii * list ascii) :=
  match inp with
  | [] => None
  | c :: rest =>
    let n := nat_of_ascii c in
    if decide (n = 34) then Some ([], rest)
    else if decide (n = 92) then
      match rest with
      | [] => None
      | e :: rest1 =>
        let m := nat_of_ascii e in
        let simple (d : nat) :=
          match parseString rest1 with
          | Some (s, rest') => Some (ascii_of_nat d :: s, rest')
          | None => None
          end in
        if decide (m = 34) then simple 34
        else if decide (m = 92) then simple 92
        else if decide (m = 47) then simple 47
        else if decide (m = 98) then simple 8
        else if decide (m = 102) then simple 12
        else if decide (m = 110) then simple 10
        else if decide (m = 114) then simple 13
        else if decide (m = 116) then simple 9
        else if decide (m = 117) then
          match rest1 with
          | h1 :: h2 :: h3 :: h4 :: rest2 =>
            match hexValue h1, hexValue h2, hexValue h3, hexValue h4 with
            | Some a, Some b, Some c', Some d =>
              let code := ((a * 16 + b) * 16 + c') * 16 + d in
              if decide (code < 128) then
                match parseString rest2 with
                | Some (s, rest') => Some (ascii_of_nat code :: s, rest')
                | None => None
                end
              else None
            | _, _, _, _ => None
            end
          | _ => None
          end
        else None
      end
    else if decide (n < 32) then None
    else
      match parseString rest with
      | Some (s, rest') => Some (c :: s, rest')
      | None => None
      end
  end.

Definition digitValue (c : ascii) : option (uint → uint) :=
  let n := nat_of_ascii c in
  if decide (n = 48) then Some D0 else if decide (n = 49) then Some D1
  else if decide (n = 50) then Some D2 else if decide (n = 51) then Some D3
  else if decide (n = 52) then Some D4 else if decide (n = 53) then Some D5
  else if decide (n = 54) then Some D6 else if decide (n = 55) then Some D7
  else if decide (n = 56) then Some D8 else if decide (n = 57) then Some D9
  else None.

(** The longest run of digits at the front. *)
Fixpoint parseDigits (inp : list ascii) : uint * list ascii :=
  match inp with
  | c :: rest =>
    match digitValue c with
    | Some d => let '(u, rest') := parseDigits rest in (d u, rest')
    | None => (Nil, inp)
    end
  | [] => (Nil, [])
  end.

(** A leading minus sign. *)
Definition splitSign (inp : list ascii) : bool * list ascii :=
  match inp with
  | c :: rest => if decide (nat_of_ascii c = 45) then (true, rest) else (false, inp)
  | [] => (false, inp)
  end.

(** Whether a fraction or an exponent follows. *)
Definition continuesNumber (rest : list ascii) : bool :=
  match rest with
  | c :: _ => let n := nat_of_ascii c in
              bool_decide (n = 46 ∨ n = 101 ∨ n = 69)
  | [] => false
  end.

(** An integer.  A fraction or an exponent is outside this model, and leading
    zeros are let through. *)
Definition parseNumber (inp : list ascii) : option (Z * list ascii) :=
  let '(negative, inp1) := splitSign inp in
  match parseDigits inp1 with
  | (Nil, _) => None
  | (u, rest) =>
    if continuesNumber rest then None
    else
      let z := Z.of_N (N.of_uint u) in
      Some (if negative then (- z)%Z else z, rest)
  end.

Definition stripPrefix (p : string) (inp : list ascii) : option (list ascii) :=
  let p' := list_ascii_of_string p in
  if decide (take (length p') inp = p') then Some (drop (length p') inp) else None.

Fixpoint parseValue (fuel : nat) (inp : list ascii) {struct fuel}
    : option (value * list ascii) :=
  match fuel with
  | O => None
  | S fuel' =>
    match skipWs inp with
    | [] => None
    | c :: rest =>
      let n := nat_of_ascii c in
      if decide (n = 110) then
        match stripPrefix "ull" rest with Some r => Some (Null, r) | None => None end
      else if decide (n = 116) then
        match stripPrefix "rue" rest with Some r => Some (Bool true, r) | None => None end
      else if decide (n = 102) then
        match stripPrefix "alse" rest with Some r => Some (Bool false, r) | None => None end
      else if decide (n = 34) then
        match parseString rest with
        | Some (s, r) => Some (String (string_of_list_ascii s), r)
        | None => None
        end
      else if decide (n = 91) then
        match skipWs rest with
        | c' :: r =>
          if decide (nat_of_ascii c' = 93) then Some (Array [], r)
          else match parseElements fuel' rest with
               | Some (vs, r') => Some (Array vs, r')
               | None => None
               end
        | [] => None
        end
      else if decide (n = 123) then
        match skipWs rest with
        | c' :: r =>
          if decide (nat_of_ascii c' = 125) then Some (Object [], r)
          else match parseMembers fuel' rest with
               | Some (ms, r') => Some (Object ms, r')
               | None => None
               end
        | [] => None
        end
      else
        match parseNumber (c :: rest) with
        | Some (z, r) => Some (Number z, r)
        | None => None
        end
    end
  end
with parseElements (fuel : nat) (inp : list ascii) {struct fuel}
    : option (list value * list ascii) :=
  match fuel with
  | O => None
  | S fuel' =>
    match parseValue fuel' inp with
    | Some (v, rest) =>
      match skipWs rest with
      | c :: rest1 =>
        if decide (nat_of_ascii c = 44) then
          match parseElements fuel' rest1 with
          | Some (vs, rest2) => Some (v :: vs, rest2)
          | None => None
          end
        else if decide (nat_of_ascii c = 93) then Some ([v], rest1)
        else None
      | [] => None
      end
    | None => None
    end
  end
with parseMembers (fuel : nat) (inp : list ascii) {struct fuel}
    : option (list (string * value) * list ascii) :=
  match fuel with
  | O => None
  | S fuel' =>
    match skipWs inp with
    | q :: rest =>
      if decide (nat_of_ascii q = 34) then
        match parseString rest with
        | Some (k, rest1) =>
          match skipWs rest1 with
          | c :: rest2 =>
            if decide (nat_of_ascii c = 58) then
              match parseValue fuel' rest2 with
              | Some (v, rest3) =>
                match skipWs rest3 with
                | c' :: rest4 =>
                  if decide (nat_of_ascii c' = 44) then
                    match parseMembers fuel' rest4 with
                    | Some (ms, rest5) =>
                      Some ((string_of_list_ascii k, v) :: ms, rest5)
                    | None => None
                    end
                  else if decide (nat_of_ascii c' = 125)
                       then Some ([(string_of_list_ascii k, v)], rest4)
                  else None
                | [] => None
                end
              | None => None
              end
            else None
          | [] => None
          end
        | None => None
        end
      else None
    | [] => None
    end
  end.

(** [JSON.parse(text)]; [None] when it throws. *)
Definition parse (text : string) : option value :=
  let inp := list_ascii_of_string text in
  match parseValue (S (length inp)) inp with
  | Some (v, rest) =>
    match skipWs rest with
    | [] => Some v
    | _ :: _ => None
    end
  | None => None
  end.

(** The output of one value, and of the elements and members after the
    opening bracket. *)
Fixpoint elementsChars (l : list value) : list ascii :=
  match l with
  | [] => ["]"%char]
  | v :: l' =>
    chars v ++ match l' with
               | [] => ["]"%char]
               | _ :: _ => ","%char :: elementsChars l'
               end
  end.

Fixpoint membersChars (l : list (string * value)) : list ascii :=
  match l with
  | [] => ["}"%char]
  | (k, v) :: l' =>
    quote k ++ ":"%char :: chars v
    ++ match l' with
       | [] => ["}"%char]
       | _ :: _ => ","%char :: membersChars l'
       end
  end.

(** What may follow a value: not something that would continue a number. *)
Definition endsNumber (rest : list ascii) : Prop :=
  match rest with
  | [] => True
  | c :: _ =>
    digitValue c = None
    ∧ nat_of_ascii c ≠ 46 ∧ nat_of_ascii c ≠ 101 ∧ nat_of_ascii c ≠ 69
  end.

End JSON.

(** ** The ledger in local storage *)

(** The object a mistake record is: the properties of the card, then
    [timestamp] and [consecutiveCorrect]. *)
Definition recordToValue (m : MistakeRecord) : JSON.value :=
  JSON.Object
    [("word", JSON.String (word m));
     ("phonetic", JSON.String (phonetic m));
     ("meaning", JSON.String (meaning m));
     ("options", JSON.Array (JSON.String <$> options m));
     ("mnemonic", JSON.String (mnemonic m));
     ("sentence", JSON.String (sentence m));
     ("sentenceTranslation", JSON.String (sentenceTranslation m));
     ("timestamp", JSON.Number (timestamp m));
     ("consecutiveCorrect", JSON.Number (Z.of_nat (consecutiveCorrect m)))].

Definition ledgerToValue (ms : list MistakeRecord) : JSON.value :=
  JSON.Array (recordToValue <$> ms).

(** [o[k]]: when a key is written twice the later member counts. *)
Definition getProperty (k : string) (members : list (string * JSON.value))
    : option JSON.value :=
  snd <$> last (filter (λ kv : string * JSON.value, kv.1 = k) members).

Definition asString (v : JSON.value) : option string :=
  match v with JSON.String s => Some s | _ => None end.

Definition asStrings (v : JSON.value) : option (list string) :=
  match v with JSON.Array l => mapM asString l | _ => None end.

Definition asInteger (v : JSON.value) : option Z :=
  match v with JSON.Number z => Some z | _ => None end.

Definition asCount (v : JSON.value) : option nat :=
  match v with
  | JSON.Number z => if decide (0 ≤ z)%Z then Some (Z.to_nat z) else None
  | _ => None
  end.

(** A parsed value read [as MistakeRecord]; [None] when it has not that shape. *)
Definition valueToRecord (v : JSON.value) : option MistakeRecord :=
  match v with
  | JSON.Object members =>
    w ← getProperty "word" members ≫= asString;
    ph ← getProperty "phonetic" members ≫= asString;
    me ← getProperty "meaning" members ≫= asString;
    os ← getProperty "options" members ≫= asStrings;
    mn ← getProperty "mnemonic" members ≫= asString;
    se ← getProperty "sentence" members ≫= asString;
    st ← getProperty "sentenceTranslation" members ≫= asString;
    ts ← getProperty "timestamp" members ≫= asInteger;
    cc ← getProperty "consecutiveCorrect" members ≫= asCount;
    Some {| card := {| word := w; phonetic := ph; meaning := me; options := os;
                       mnemonic := mn; sentence := se;
                       sentenceTranslation := st |};
            timestamp := ts; consecutiveCorrect := cc |}
  | _ => None
  end.

Definition valueToLedger (v : JSON.value) : option (list MistakeRecord) :=
  match v with JSON.Array l => mapM valueToRecord l | _ => None end.

Definition storageKey : string := "kaoyan_mistakes".

(** The save effect, lines 40-42: [localStorage.setItem(key, JSON.stringify(mistakes))]. *)
Definition saveMistakes (mistakes : list MistakeRecord)
    (localStorage : gmap string string) : gmap string string :=
  <[storageKey := JSON.stringify (ledgerToValue mistakes)]> localStorage.

Inductive Loaded :=
| NothingSaved
| Saved (savedMistakes : list MistakeRecord)
| Unreadable.

(** The load effect, lines 30-33: nothing is set when the item is missing or
    empty; otherwise the parsed item becomes the ledger. *)
Definition loadMistakes (localStorage : gmap string string) : Loaded :=
  match localStorage !! storageKey with
  | Some savedMistakes =>
    if decide (savedMistakes = EmptyString) then NothingSaved
    else match JSON.parse savedMistakes ≫= valueToLedger with
         | Some parsed => Saved parsed
         | None => Unreadable
         end
  | None => NothingSaved
  end.

(** The component mounted over a local storage. *)
Definition mountFrom (localStorage : gmap string string) : option State :=
  match loadMistakes localStorage with
  | NothingSaved => Some (mount None)
  | Saved savedMistakes => Some (mount (Some savedMistakes))
  | Unreadable => None
  end.

(** ** services/geminiService.ts: [fetchWordBatch]

    The request ([ai.models.generateContent]) and [JSON.parse] are inputs: what
    they come to is a [ProviderReply].  A parsed value is any JSON value; the
    cast [as WordCard[]] checks nothing.  (A number with a fraction behaves
    here like any other number: numbers are only passed on.) *)

(** The platform under [fetchWordBatch]: the generator behind
    [Math.random()], and [Array.prototype.sort], which is called with a
    comparator that draws random numbers.  Which comparisons [sort] makes is
    up to the engine, and so is what it leaves in the array when the
    comparator contradicts itself: ECMAScript promises the elements of the
    input, in some order, for a consistent comparator only.  That is the one
    law an engine has here. *)

(** [comparefn] is consistent: it is a function of its two arguments that
    orders them ([a =CF a], [=CF] symmetric and transitive, [<CF] and [>CF]
    transitive). *)
Definition consistentComparator {A} (f : A → A → Q) : Prop :=
  (∀ a, f a a == 0)%Q
  ∧ (∀ a b, f a b == 0 → f b a == 0)%Q
  ∧ (∀ a b c, f a b == 0 → f b c == 0 → f a c == 0)%Q
  ∧ (∀ a b c, f a b < 0 → f b c < 0 → f a c < 0)%Q
  ∧ (∀ a b c, 0 < f a b → 0 < f b c → 0 < f a c)%Q.

Class Engine := {
  Rng : Type;
  random : Rng → Q * Rng;
  random_unit : ∀ g, isRandom (random g).1 = true;
  sort : ∀ A : Type, (A → A → Rng → Q * Rng) → list A → Rng → list A * Rng;
  sort_consistent : ∀ A (f : A → A → Q) l g,
    consistentComparator f → (sort A (λ a b g', (f a b, g')) l g).1 ≡ₚ l
}.

Arguments sort {_ _} _ _ _.

(** An engine whose [sort] only ever reorders the elements it is given,
    whatever the comparator answers. *)
Definition SortReorders (E : Engine) : Prop :=
  ∀ A (cmp : A → A → Rng → Q * Rng) l g, (sort cmp l g).1 ≡ₚ l.

(** What [ai.models.generateContent] followed by [JSON.parse] comes to. *)
Inductive ProviderReply :=
| CallThrows
    (** the request fails *)
| NoText
    (** [response.text] is [undefined] or empty *)
| ParseThrows
    (** [JSON.parse(response.text)] throws *)
| Parsed (data : JSON.value).
    (** [JSON.parse(response.text)], whatever value it is *)

Inductive FetchError :=
| RequestError
    (** what the request threw *)
| SyntaxError
    (** what [JSON.parse] threw *)
| TypeError.
    (** [data.map], [item.options] or [item.options.sort] is not there *)

(** What the promise of [fetchWordBatch] settles to. *)
Inductive BatchOutcome :=
| Resolves (items : list JSON.value)
| Rejects (error : FetchError).

(** [item.options] where [item.options.sort(..)] can be called: [item] is an
    object whose [options] is an array.  Everything else throws a
    [TypeError]: [null] has no properties, on a boolean, a number, a string
    or an array [options] is [undefined], and a value that is no array has no
    function [sort].  With the array come the members of [item]. *)
Definition optionsOf (item : JSON.value)
    : option (list (string * JSON.value) * list JSON.value) :=
  match item with
  | JSON.Object members =>
    match getProperty "options" members with
    | Some (JSON.Array opts) => Some (members, opts)
    | _ => None
    end
  | _ => None
  end.

(** [{ ...item, options: sorted }]: the members of [item], [options]
    replaced where it stands. *)
Definition withOptions (sorted : JSON.value)
    (members : list (string * JSON.value)) : list (string * JSON.value) :=
  (λ kv : string * JSON.value,
     if decide (kv.1 = "options") then (kv.1, sorted) else kv) <$> members.

Section FetchWordBatch.
Context `{Engine}.

(** [() => Math.random() - 0.5].  [sort] looks at the sign of the answer
    only, and the difference that binary64 computes has the sign of the exact
    one. *)
Definition randomComparator {A} (_ _ : A) (g : Rng) : Q * Rng :=
  let '(u, g') := random g in ((u - (1 # 2))%Q, g').

(** [item => ({ ...item, options: item.options.sort(..) })]; [None] when it
    throws. *)
Definition shuffleOptions (item : JSON.value) (g : Rng)
    : option (JSON.value * Rng) :=
  match optionsOf item with
  | Some (members, opts) =>
    let '(sorted, g') := sort randomComparator opts g in
    Some (JSON.Object (withOptions (JSON.Array sorted) members), g')
  | None => None
  end.

(** [data.map(..)], first item first; it stops at the first item that
    throws. *)
Fixpoint mapShuffle (data : list JSON.value) (g : Rng)
    : option (list JSON.value) * Rng :=
  match data with
  | [] => (Some [], g)
  | item :: rest =>
    match shuffleOptions item g with
    | Some (item', g1) =>
      let '(rest', g2) := mapShuffle rest g1 in (cons item' <$> rest', g2)
    | None => (None, g)
    end
  end.

(** Whatever is thrown inside the [try] is logged and thrown again. *)
Definition fetchWordBatch (reply : ProviderReply) (g : Rng) : BatchOutcome * Rng :=
  match reply with
  | CallThrows => (Rejects RequestError, g)
  | NoText => (Resolves [], g)
  | ParseThrows => (Rejects SyntaxError, g)
  | Parsed (JSON.Array data) =>
    match mapShuffle data g with
    | (Some items, g') => (Resolves items, g')
    | (None, g') => (Rejects TypeError, g')
    end
  | Parsed _ => (Rejects TypeError, g)
  end.
End FetchWordBatch.

(** *** Batches of cards

    The session takes what [fetchWordBatch] resolves with for cards
    ([setWords(newWords)]).  These are the values that are cards. *)

Definition cardToValue (c : WordCard) : JSON.value :=
  JSON.Object
    [("word", JSON.String (word c));
     ("phonetic", JSON.String (phonetic c));
     ("meaning", JSON.String (meaning c));
     ("options", JSON.Array (JSON.String <$> options c));
     ("mnemonic", JSON.String (mnemonic c));
     ("sentence", JSON.String (sentence c));
     ("sentenceTranslation", JSON.String (sentenceTranslation c))].

(** A value read [as WordCard]; [None] when it has not that shape. *)
Definition valueToCard (v : JSON.value) : option WordCard :=
  match v with
  | JSON.Object members =>
    w ← getProperty "word" members ≫= asString;
    ph ← getProperty "phonetic" members ≫= asString;
    me ← getProperty "meaning" members ≫= asString;
    os ← getProperty "options" members ≫= asStrings;
    mn ← getProperty "mnemonic" members ≫= asString;
    se ← getProperty "sentence" members ≫= asString;
    st ← getProperty "sentenceTranslation" members ≫= asString;
    Some {| word := w; phonetic := ph; meaning := me; options := os;
            mnemonic := mn; sentence := se; sentenceTranslation := st |}
  | _ => None
  end.

Definition asBatch (items : list JSON.value) : option (list WordCard) :=
  mapM valueToCard items.

(** [card] is [item] with its options in some other order. *)
Definition reordered (item card : WordCard) : Prop :=
  options card ≡ₚ options item
  ∧ word card = word item ∧ phonetic card = phonetic item
  ∧ meaning card = meaning item ∧ mnemonic card = mnemonic item
  ∧ sentence card = sentence item
  ∧ sentenceTranslation card = sentenceTranslation item.

(** ** Sample data and sessions

    A batch of five cards as the provider returns them, a stored record, and
    the events of answering one card correctly and moving on. *)

Definition sampleCard (w : string) : WordCard :=
  {| word := w; phonetic := "-";
     meaning := "meaning of " +:+ w;
     options := ["wrong a"; "meaning of " +:+ w; "wrong b"; "wrong c"];
     mnemonic := "-"; sentence := "-"; sentenceTranslation := "-" |}.

Definition sampleBatch (tag : string) : list WordCard :=
  [sampleCard (tag +:+ "1"); sampleCard (tag +:+ "2"); sampleCard (tag +:+ "3");
   sampleCard (tag +:+ "4"); sampleCard (tag +:+ "5")].

Definition sampleRecord (w : string) (streak : nat) : MistakeRecord :=
  {| card := sampleCard w; timestamp := 1700000000000; consecutiveCorrect := streak |}.

(** Pick the right option (the second button), let the reward timer fire,
    press the continue button. *)
Definition answerAndAdvance (uIndex uThreshold : Q) : list Event :=
  [ClickOption 1 0; TimerFired; ClickNext uIndex uThreshold].

(** Five cards answered correctly in a row. *)
Definition finishBatch : list Event :=
  answerAndAdvance 0 0 ++ answerAndAdvance 0 0 ++ answerAndAdvance 0 0
  ++ answerAndAdvance 0 0 ++ answerAndAdvance 0 0.

(** *** Sessions

    [staleBatchSession]: the ledger holds one record with a streak of 2.  The
    first batch is finished; the request for the next one (promise 1) hangs,
    so the user opens the notebook, closes it and starts again.  The new
    session (promises 2 and 3) runs for ten words, the record is injected and
    answered correctly, and while its result is shown the old request
    arrives.  The review card is presented a second time and answered
    correctly once more. *)
Definition staleBatchSession : list Event :=
  [ClickStart; FetchSettled 0 (Fulfilled (sampleBatch "a"))] ++ finishBatch
  ++ [ClickTopMistakes; ClickClose; ClickStart;
      FetchSettled 2 (Fulfilled (sampleBatch "c"))] ++ finishBatch
  ++ [FetchSettled 3 (Fulfilled (sampleBatch "d"))] ++ finishBatch
  ++ [ClickOption 1 0; TimerFired;
      FetchSettled 1 (Fulfilled (sampleBatch "b"));
      ClickOption 1 0].

(** [failedNextBatchSession]: the first batch is finished and the request for
    the next one fails. *)
Definition failedNextBatchSession : list Event :=
  [ClickStart; FetchSettled 0 (Fulfilled (sampleBatch "a"))] ++ finishBatch
  ++ [FetchSettled 1 Rejected].

(** [failedStartSession]: the background fetch made at mount fails after the
    user pressed start. *)
Definition failedStartSession : list Event :=
  [ClickStart; FetchSettled 0 Rejected].

(** [reviewSession]: the stored record with a streak of 2 is injected after
    ten words and answered correctly; every batch arrives when it is
    awaited. *)
Definition reviewSession : list Event :=
  [ClickStart; FetchSettled 0 (Fulfilled (sampleBatch "a"))] ++ finishBatch
  ++ [FetchSettled 1 (Fulfilled (sampleBatch "b"))] ++ finishBatch
  ++ answerAndAdvance 0 0.

(** [lateBatchSession]: the first batch is finished and the request for the
    next one (promise 1) hangs; the user goes back to the welcome screen and
    starts again (promise 2), the new batch arrives and its first card gets a
    wrong answer.  Only now the old request arrives: its batch takes the
    screen.  [lateBatchRewardSession] is the same with a right answer, so that
    the old request arrives while the reward is shown. *)
Definition lateBatchSession : list Event :=
  [ClickStart; FetchSettled 0 (Fulfilled (sampleBatch "a"))] ++ finishBatch
  ++ [ClickLogo; ClickStart; FetchSettled 2 (Fulfilled (sampleBatch "c"));
      ClickOption 0 1; FetchSettled 1 (Fulfilled (sampleBatch "b"))].

Definition lateBatchRewardSession : list Event :=
  [ClickStart; FetchSettled 0 (Fulfilled (sampleBatch "a"))] ++ finishBatch
  ++ [ClickLogo; ClickStart; FetchSettled 2 (Fulfilled (sampleBatch "c"));
      ClickOption 1 1; FetchSettled 1 (Fulfilled (sampleBatch "b"))].

(** *** Engines for the samples

    A linear congruential generator on sixteen states, with insertion sort
    ([sampleEngine]), or with a sort that first asks the comparator twice
    about the first two elements and, when the answers differ, gives up
    sorting and fills the second place with the first element
    ([distrustfulEngine]). *)

Definition lcgRandom (g : nat) : Q * nat :=
  ((Z.of_nat (g `mod` 16) # 16)%Q, (5 * g + 3) `mod` 16).

Fixpoint insertBy {A} (cmp : A → A → nat → Q * nat) (x : A) (sorted : list A)
    (g : nat) : list A * nat :=
  match sorted with
  | [] => ([x], g)
  | y :: ys =>
    let '(c, g1) := cmp x y g in
    if Qle_bool c 0 then (x :: y :: ys, g1)
    else let '(r, g2) := insertBy cmp x ys g1 in (y :: r, g2)
  end.

Fixpoint insertionSort {A} (cmp : A → A → nat → Q * nat) (l : list A)
    (g : nat) : list A * nat :=
  match l with
  | [] => ([], g)
  | x :: xs =>
    let '(sorted, g1) := insertionSort cmp xs g in
    insertBy cmp x sorted g1
  end.


(** The generator stays in the unit interval on binary64 numbers, and with a
    comparator that is a function of its arguments both sorts only reorder. *)
Definition sampleEngine : Engine.
Proof.
  refine {| Rng := nat; random := lcgRandom; sort := @insertionSort |}.
  - intros g. change (isRandom (Z.of_nat (g `mod` 16) # 16) = true).
    generalize (Nat.mod_upper_bound g 16 ltac:(lia)).
    generalize (g `mod` 16). intros k Hk.
    do 16 (destruct k as [|k]; [reflexivity|]). lia.
  - intros A f l g _. generalize (λ (a b : A) (g' : nat), (f a b, g')).
    intros cmp.
    assert (Hins : ∀ (x : A) sorted g0,
               (insertBy cmp x sorted g0).1 ≡ₚ x :: sorted).
    { intros x sorted. induction sorted as [|y ys IH]; intros g0; simpl; [done|].
      destruct (cmp x y g0) as [c g1]. destruct (Qle_bool c 0); [done|].
      specialize (IH g1). destruct (insertBy cmp x ys g1) as [r g2]. simpl in *.
      rewrite IH. apply Permutation_swap. }
    revert g. induction l as [|x xs IH]; intros g; simpl; [done|].
    specialize (IH g). destruct (insertionSort cmp xs g) as [sorted g1]. simpl in *.
    rewrite Hins. by rewrite IH.
Defined.


(** ** More of the component: what the screens show *)

(** The hint under the options, line 333: part of what [renderQuiz] returns,
    so it takes the quiz screen (line 532) and an active card (line 251), and
    then [wrongCandidates.length > 0 && wrongCandidates.length < 2]. *)
Definition secondChanceHint (s : State) : bool :=
  bool_decide (status s = QUIZ ∧ is_Some (activeCard s)
               ∧ 0 < length (wrongCandidates s)
               ∧ length (wrongCandidates s) < 2).

(** The width of the progress bar in percent, line 262:
    [(currentIndex / words.length) * 100]. *)
Definition progressWidth (s : State) : Q :=
  (inject_Z (Z.of_nat (currentIndex s)) / inject_Z (Z.of_nat (length (words s)))
   * 100)%Q.

(** The label of the button under the result, lines 419-423. *)
Inductive NextLabel :=
| Continue
| NextWordArrow
| LoadNextBatch.

Definition nextButtonLabel (s : State) : NextLabel :=
  match reviewWord s with
  | Some _ => Continue
  | None =>
    if decide (currentIndex s < length (words s) - 1) then NextWordArrow
    else LoadNextBatch
  end.

(** [selectedOption === activeCard.meaning], line 344. *)
Definition isCorrect (s : State) (active : WordCard) : bool :=
  bool_decide (selectedOption s = Some (meaning active)).

(** [reviewWord && (reviewWord.consecutiveCorrect || 0) + 1 >= 3 && isCorrect],
    line 348. *)
Definition isMastered (s : State) (active : WordCard) : bool :=
  match reviewWord s with
  | Some r => bool_decide (3 ≤ or0 (consecutiveCorrect r) + 1) && isCorrect s active
  | None => false
  end.

(** The feedback subtitle of the result screen, lines 380-384. *)
Inductive Feedback :=
| WordMastered
| StreakOf (n : nat)
| AddedToNotebook.

Definition feedbackSubtitle (s : State) : list Feedback :=
  match activeCard s with
  | None => []
  | Some active =>
    (if isMastered s active then [WordMastered] else [])
    ++ match reviewWord s with
       | Some r =>
         if isCorrect s active && negb (isMastered s active)
         then [StreakOf (or0 (consecutiveCorrect r) + 1)] else []
       | None => []
       end
    ++ (if isCorrect s active then [] else [AddedToNotebook])
  end.

(** The texts the audio preloading effect asks for, lines 45-59. *)
Definition preloadTexts (s : State) : list string :=
  match activeCard s with
  | Some activeWord =>
    [word activeWord; sentence activeWord]
    ++ match reviewWord s, words s !! (currentIndex s + 1) with
       | None, Some next => [word next]
       | _, _ => []
       end
  | None => []
  end.

(** The texts behind the audio buttons of the screen shown: line 284 on the
    quiz, lines 371 and 407 on the result, lines 492 and 499 in the
    notebook. *)
Definition audioButtons (s : State) : list string :=
  match status s with
  | QUIZ =>
    match activeCard s with Some active => [word active] | None => [] end
  | REVIEW =>
    match activeCard s with
    | Some active => [word active; sentence active]
    | None => []
    end
  | MISTAKES => mistakes s ≫= (λ m : MistakeRecord, [word m; sentence m])
  | _ => []
  end.

(** ** Audio: [handleAudioPlay], [preloadAudio] and [playPronunciation]

    The cell [isLoadingAudio] of the component and the module-level
    [audioCache] are touched by these three functions only, so they are kept
    in a record of their own.  The speech request ([ai.models.generateContent])
    and the player ([playPcmAudio] of [./audioUtils]) are asynchronous calls
    into code outside the two files: a call is logged and leaves a pending
    task, and the task is resumed by an event carrying the outcome. *)

(** What a speech request settles to: a rejection, or a response whose
    [candidates?.[0]?.content?.parts?.[0]?.inlineData?.data] is a string or
    [undefined]. *)
Inductive AudioReply :=
| AudioRejected
| AudioResponse (data : option string).

(** A function suspended at an [await]: [preloadAudio] at line 79,
    [playPronunciation] at line 116, or [playPronunciation] at line 110 or
    132 (and, behind it, [handleAudioPlay] at line 99). *)
Inductive AudioTask :=
| PreloadRequest (text : string)
| PlayRequest (text : string)
| Playback.

Inductive AudioEffect :=
| TtsRequest (text : string)
| PlayPcm (data : string) (sampleRate : Z)
| AudioConsoleError (msg : string).

Record Audio := mkAudio {
  isLoadingAudio : bool;
  audioCache : gmap string string;
  (** suspended calls, oldest first *)
  pending : list AudioTask;
  (** requests sent, audio handed to the player, console errors; newest first *)
  audioLog : list AudioEffect
}.

Definition setIsLoadingAudio (v : bool) (a : Audio) : Audio :=
  mkAudio v (audioCache a) (pending a) (audioLog a).

Definition setPending (v : list AudioTask) (a : Audio) : Audio :=
  mkAudio (isLoadingAudio a) (audioCache a) v (audioLog a).

(** [audioCache.set(text, data)] *)
Definition audioCacheSet (text data : string) (a : Audio) : Audio :=
  mkAudio (isLoadingAudio a) (<[text := data]> (audioCache a)) (pending a)
    (audioLog a).

Definition logAudio (e : AudioEffect) (a : Audio) : Audio :=
  mkAudio (isLoadingAudio a) (audioCache a) (pending a) (e :: audioLog a).

(** [if (str)]: the empty string is falsy. *)
Definition truthy (str : string) : bool := bool_decide (str ≠ EmptyString).

(** [await ai.models.generateContent(..)] for the speech of [text]; [k] is
    the caller, suspended. *)
Definition generateContent (text : string) (k : AudioTask) (a : Audio) : Audio :=
  setPending (pending a ++ [k]) (logAudio (TtsRequest text) a).

(** [await playPcmAudio(data, sampleRate)] *)
Definition playPcmAudio (data : string) (sampleRate : Z) (a : Audio) : Audio :=
  setPending (pending a ++ [Playback]) (logAudio (PlayPcm data sampleRate) a).

(** [preloadAudio], up to its [await]. *)
Definition preloadAudio (text : string) (a : Audio) : Audio :=
  if decide (is_Some (audioCache a !! text)) then a
  else generateContent text (PreloadRequest text) a.

(** [preloadAudio], lines 92-98. *)
Definition preloadResumes (text : string) (r : AudioReply) (a : Audio) : Audio :=
  match r with
  | AudioResponse (Some base64Audio) =>
    if truthy base64Audio then audioCacheSet text base64Audio a else a
  | AudioResponse None => a
  | AudioRejected => logAudio (AudioConsoleError "Preload TTS Error:") a
  end.

(** [playPronunciation], up to its first [await]. *)
Definition playPronunciation (text : string) (a : Audio) : Audio :=
  match audioCache a !! text with
  | Some cachedAudio =>
    if truthy cachedAudio then playPcmAudio cachedAudio 24000%Z a
    else generateContent text (PlayRequest text) a
  | None => generateContent text (PlayRequest text) a
  end.

(** [handleAudioPlay], up to its [await]. *)
Definition handleAudioPlay (text : string) (a : Audio) : Audio :=
  if isLoadingAudio a then a
  else playPronunciation text (setIsLoadingAudio true a).

(** [playPronunciation], lines 129-136; where it returns, [handleAudioPlay]
    goes on with line 100. *)
Definition playResumes (text : string) (r : AudioReply) (a : Audio) : Audio :=
  match r with
  | AudioResponse (Some base64Audio) =>
    if truthy base64Audio
    then playPcmAudio base64Audio 24000%Z (audioCacheSet text base64Audio a)
    else setIsLoadingAudio false a
  | AudioResponse None => setIsLoadingAudio false a
  | AudioRejected =>
    setIsLoadingAudio false (logAudio (AudioConsoleError "TTS Error:") a)
  end.

(** The player is done ([ok]) or has failed: [playPronunciation] returns,
    through its [catch] in the second case, and [handleAudioPlay] goes on with
    line 100. *)
Definition playbackResumes (ok : bool) (a : Audio) : Audio :=
  setIsLoadingAudio false
    (if ok then a else logAudio (AudioConsoleError "TTS Error:") a).

Inductive AudioEvent :=
| CallPreload (text : string)
| ClickAudio (text : string)
| RequestSettled (i : nat) (r : AudioReply)
| PlaybackSettled (i : nat) (ok : bool).

Definition audioStep (e : AudioEvent) (a : Audio) : option Audio :=
  match e with
  | CallPreload text => Some (preloadAudio text a)
  | ClickAudio text => Some (handleAudioPlay text a)
  | RequestSettled i r =>
    match pending a !! i with
    | Some (PreloadRequest text) =>
      Some (preloadResumes text r (setPending (delete i (pending a)) a))
    | Some (PlayRequest text) =>
      Some (playResumes text r (setPending (delete i (pending a)) a))
    | _ => None
    end
  | PlaybackSettled i ok =>
    match pending a !! i with
    | Some Playback =>
      Some (playbackResumes ok (setPending (delete i (pending a)) a))
    | _ => None
    end
  end.

Arguments audioStep : simpl never.

Fixpoint audioRun (es : list AudioEvent) (a : Audio) : option Audio :=
  match es with
  | [] => Some a
  | e :: es' =>
    match audioStep e a with
    | Some a' => audioRun es' a'
    | None => None
    end
  end.

(** Nothing cached, nothing playing. *)
Definition audioInit : Audio := mkAudio false ∅ [] [].

Definition audioReachable (a : Audio) : Prop :=
  ∃ es, audioRun es audioInit = Some a.

(** The tasks behind which [handleAudioPlay] waits. *)
Definition isPlayTask (k : AudioTask) : bool :=
  match k with
  | PreloadRequest _ => false
  | PlayRequest _ | Playback => true
  end.

(** How many of the suspended calls are plays. *)
Definition playing (a : Audio) : nat :=
  length (filter (λ k, isPlayTask k = true) (pending a)).

(** * Properties *)

(** ** The ledger operations *)

Lemma or0_id x : or0 x = x.
Proof. unfold or0. case_decide; congruence. Qed.

Lemma hasWord_true w l : hasWord w l = true ↔ w ∈ ledgerWords l.
Proof.
  unfold hasWord, ledgerWords. rewrite bool_decide_eq_true, Exists_exists, list_elem_of_fmap.
  split; intros (m & H1 & H2); exists m; split; auto.
Qed.

Lemma hasWord_false w l : hasWord w l = false ↔ w ∉ ledgerWords l.
Proof.
  rewrite <- hasWord_true. destruct (hasWord w l); split; congruence.
Qed.

Lemma ledgerWords_bumpStreak w l : ledgerWords (bumpStreak w l) = ledgerWords l.
Proof.
  unfold ledgerWords, bumpStreak. rewrite <- list_fmap_compose.
  apply list_fmap_ext. intros _ m _. simpl. case_decide; reflexivity.
Qed.

Lemma ledgerWords_resetStreak w l : ledgerWords (resetStreak w l) = ledgerWords l.
Proof.
  unfold ledgerWords, resetStreak. rewrite <- list_fmap_compose.
  apply list_fmap_ext. intros _ m _. simpl. case_decide; reflexivity.
Qed.

Lemma NoDup_addRecord c now l :
  NoDup (ledgerWords l) → NoDup (ledgerWords (addRecord c now l)).
Proof.
  intros Hnd. unfold addRecord. destruct (hasWord (word c) l) eqn:E; [exact Hnd|].
  apply hasWord_false in E. simpl. apply NoDup_cons. split; assumption.
Qed.

Lemma NoDup_dropWord w l :
  NoDup (ledgerWords l) → NoDup (ledgerWords (dropWord w l)).
Proof.
  unfold ledgerWords, dropWord. intros Hnd.
  eapply sublist_NoDup; [exact Hnd|].
  apply fmap_sublist, sublist_filter.
Qed.

(** ** Which cells each handler leaves alone *)

Lemma mistakes_resume k r s : mistakes (resume k r s) = mistakes s.
Proof. destruct k as [[]|], r; reflexivity. Qed.

Lemma mistakes_foldl_resume r (ks : list (nat * Continuation)) s :
  mistakes (foldl (λ st a, resume a.2 r st) s ks) = mistakes s.
Proof.
  revert s. induction ks as [|a ks IH]; intros s; simpl; [reflexivity|].
  rewrite IH. apply mistakes_resume.
Qed.

Lemma mistakes_settle p r s : mistakes (settle p r s) = mistakes s.
Proof.
  unfold settle. rewrite mistakes_foldl_resume. destruct r; reflexivity.
Qed.

Lemma mistakes_startSession s : mistakes (startSession s) = mistakes s.
Proof.
  unfold startSession. destruct (initFetchPromise s) as [p|]; [|reflexivity].
  destruct (promises s !! p) as [[r|]|]; try reflexivity.
  by rewrite mistakes_resume.
Qed.

Lemma mistakes_nextWord u1 u2 s : mistakes (nextWord u1 u2 s) = mistakes s.
Proof.
  unfold nextWord. destruct (reviewWord s); [reflexivity|].
  repeat case_decide; reflexivity.
Qed.

(** The ledger after [handleAnswer] is the old one, or one of the three
    updaters applied to it. *)
Lemma mistakes_handleAnswer opt now s :
  mistakes (handleAnswer opt now s) = mistakes s
  ∨ (∃ r, reviewWord s = Some r ∧
       (mistakes (handleAnswer opt now s) = bumpStreak (word (card r)) (mistakes s)
        ∨ mistakes (handleAnswer opt now s) = resetStreak (word (card r)) (mistakes s)))
  ∨ (∃ c, reviewWord s = None ∧
       mistakes (handleAnswer opt now s) = addRecord c now (mistakes s)).
Proof.
  unfold handleAnswer. destruct (activeCard s) as [c|]; [|by left].
  case_decide.
  - destruct (reviewWord s) as [r|] eqn:E; [|by left].
    right; left. exists r. split; [done|]. by left.
  - case_decide; [by left|].
    destruct (reviewWord s) as [r|] eqn:E.
    + right; left. exists r. split; [done|]. by right.
    + right; right. exists c. done.
Qed.

Lemma step_mistakes e s s' :
  step e s = Some s' →
  mistakes s' = mistakes s
  ∨ (∃ w, mistakes s' = bumpStreak w (mistakes s))
  ∨ (∃ w, mistakes s' = resetStreak w (mistakes s))
  ∨ (∃ c now, mistakes s' = addRecord c now (mistakes s))
  ∨ (∃ w, mistakes s' = dropWord w (mistakes s)).
Proof.
  destruct e as [| | | | |idx now|u1 u2|now|idx|p r|]; unfold step; intros H;
    repeat case_decide; repeat case_match; simplify_eq; try (by left).
  - rewrite mistakes_startSession. by left.
  - match goal with |- context [handleAnswer ?o now s] =>
      destruct (mistakes_handleAnswer o now s)
        as [->|[(r & _ & [->| ->])|(c & _ & ->)]] end; eauto 8.
  - rewrite mistakes_nextWord. by left.
  - right; right; right; left. eauto.
  - right; right; right; right. eauto.
  - rewrite mistakes_settle. by left.
Qed.

Lemma step_NoDup e s s' :
  step e s = Some s' →
  NoDup (ledgerWords (mistakes s)) → NoDup (ledgerWords (mistakes s')).
Proof.
  intros Hstep Hnd.
  destruct (step_mistakes _ _ _ Hstep)
    as [->|[(w & ->)|[(w & ->)|[(c & now & ->)|(w & ->)]]]].
  - done.
  - by rewrite ledgerWords_bumpStreak.
  - by rewrite ledgerWords_resetStreak.
  - by apply NoDup_addRecord.
  - by apply NoDup_dropWord.
Qed.

Lemma run_NoDup es s s' :
  run es s = Some s' →
  NoDup (ledgerWords (mistakes s)) → NoDup (ledgerWords (mistakes s')).
Proof.
  revert s. induction es as [|e es IH]; simpl; intros s H Hnd.
  - by simplify_eq.
  - destruct (step e s) as [s1|] eqn:E; [|done].
    eapply IH; [exact H|]. eapply step_NoDup; eauto.
Qed.

Lemma addToMistakes_present c now s :
  word c ∈ ledgerWords (mistakes s) → addToMistakes c now s = s.
Proof.
  intros Hin. apply hasWord_true in Hin. unfold addToMistakes, addRecord.
  rewrite Hin. by destruct s.
Qed.

Lemma addToMistakes_absent c now s :
  word c ∉ ledgerWords (mistakes s) →
  mistakes (addToMistakes c now s) = mkMistakeRecord c now 0 :: mistakes s.
Proof.
  intros Hin. apply hasWord_false in Hin. unfold addToMistakes, addRecord.
  by rewrite Hin.
Qed.

(** C4: the ledger never holds two records with the same word.  Starting from a
    stored ledger without duplicates (or from none), every state of the
    session has pairwise distinct ledger words; [addToMistakes] on a word that
    is absent puts the record [{...card, timestamp: now, consecutiveCorrect: 0}]
    at the front; on a word that is present it changes nothing at all (so the
    stored timestamp and streak stay), and in both cases the words stay
    distinct. *)
Theorem ledger_words_unique saved s c now :
  NoDup (ledgerWords (default [] saved)) →
  reachable saved s →
  NoDup (ledgerWords (mistakes s))
  ∧ (word c ∉ ledgerWords (mistakes s) →
     mistakes (addToMistakes c now s) = mkMistakeRecord c now 0 :: mistakes s)
  ∧ (word c ∈ ledgerWords (mistakes s) → addToMistakes c now s = s)
  ∧ NoDup (ledgerWords (mistakes (addToMistakes c now s))).
Proof.
  intros Hnd (es & Hrun).
  assert (Hs : NoDup (ledgerWords (mistakes s))) by (eapply run_NoDup; eauto).
  split_and!; auto using addToMistakes_absent, addToMistakes_present.
  by apply NoDup_addRecord.
Qed.

(** The session in which the first card of the first batch is failed twice;
    its word is then offered to [addToMistakes] once more. *)
Lemma ledger_words_unique_witness :
  ∃ s, run [ClickStart; FetchSettled 0 (Fulfilled (sampleBatch "w"));
            ClickOption 0 1000; ClickOption 2 1001] (mount None) = Some s
       ∧ NoDup (ledgerWords (mistakes s))
       ∧ (word (sampleCard "w1") ∉ ledgerWords (mistakes s) →
          mistakes (addToMistakes (sampleCard "w1") 2000 s)
          = mkMistakeRecord (sampleCard "w1") 2000 0 :: mistakes s)
       ∧ (word (sampleCard "w1") ∈ ledgerWords (mistakes s) →
          addToMistakes (sampleCard "w1") 2000 s = s)
       ∧ NoDup (ledgerWords (mistakes (addToMistakes (sampleCard "w1") 2000 s))).
Proof.
  eexists. split; [vm_compute; reflexivity|].
  apply (ledger_words_unique None).
  - simpl. constructor.
  - exists [ClickStart; FetchSettled 0 (Fulfilled (sampleBatch "w"));
            ClickOption 0 1000; ClickOption 2 1001].
    vm_compute. reflexivity.
Defined.

(** ** Random draws *)

Lemma isRandom_spec u :
  isRandom u = true ↔ (0 <= u)%Q ∧ (u < 1)%Q ∧ isBinary64 u = true.
Proof.
  unfold isRandom. rewrite !andb_true_iff, negb_true_iff, Qle_bool_iff.
  split.
  - intros [[H0 H1] Hb]. split_and!; auto.
    apply Qnot_le_lt. intros H. apply Qle_bool_iff in H. congruence.
  - intros (H0 & H1 & Hb). split_and!; auto.
    destruct (Qle_bool 1 u) eqn:E; [|done].
    apply Qle_bool_iff in E. exfalso. eapply Qlt_not_le; eauto.
Qed.

(** What [isRandom] says of the fraction [a / b]. *)
Lemma isRandom_fraction a b :
  isRandom (a # b) = true → (0 ≤ a < Z.pos b)%Z ∧ (a < 2 ^ 53)%Z.
Proof.
  intros (H0 & H1 & Hb)%isRandom_spec.
  unfold Qle, Qlt in *. simpl in *.
  unfold isBinary64 in Hb. simpl in Hb.
  apply andb_true_iff in Hb as [_ Hb]. apply Z.ltb_lt in Hb. lia.
Qed.

(** Rounding moves a significand up by at most half a unit of the last place
    kept, which is at most [M / 2^54], and never below the multiple of that
    unit under it. *)
Lemma round53_bounds M :
  (0 ≤ M)%Z →
  ∃ k, (k = Z.max 0 (Z.log2 M + 1 - 53))%Z
       ∧ (M / 2 ^ k * 2 ^ k ≤ round53 M)%Z
       ∧ (2 ^ 53 * (round53 M - M) ≤ M)%Z.
Proof.
  intros HM. unfold round53.
  destruct (Z.leb_spec (Z.log2 M + 1 - 53) 0) as [Hk|Hk].
  - exists 0%Z. split; [lia|]. rewrite Z.pow_0_r, Z.div_1_r. lia.
  - set (k := (Z.log2 M + 1 - 53)%Z) in *.
    exists k. split; [lia|].
    assert (Hpos : (0 < M)%Z).
    { destruct (decide (M = 0%Z)) as [->|]; [|lia]. subst k. simpl in Hk. lia. }
    destruct (Z.log2_spec M Hpos) as [Hlo _].
    assert (H2k : (0 < 2 ^ k)%Z) by (apply Z.pow_pos_nonneg; lia).
    assert (Hhalf : (2 ^ k = 2 * 2 ^ (k - 1))%Z).
    { rewrite <- Z.pow_succ_r by lia. f_equal. lia. }
    assert (Hlog : (2 ^ Z.log2 M = 2 ^ 53 * 2 ^ (k - 1))%Z).
    { rewrite <- Z.pow_add_r by lia. f_equal. lia. }
    pose proof (Z.div_mod M (2 ^ k) ltac:(lia)) as Hdm.
    pose proof (Z.mod_pos_bound M (2 ^ k) H2k) as Hr.
    set (q := (M / 2 ^ k)%Z) in *. set (r := (M mod 2 ^ k)%Z) in *.
    set (h := (2 ^ (k - 1))%Z) in *.
    assert (Hh : (2 ^ 53 * h ≤ M)%Z) by lia.
    assert (H53 : (0 < 2 ^ 53)%Z) by reflexivity.
    destruct (Z.ltb_spec r h).
    { split; [lia|]. nia. }
    destruct (Z.ltb_spec h r).
    { split; [nia|]. assert ((q + 1) * 2 ^ k - M ≤ h)%Z by nia. nia. }
    assert (r = h) by lia.
    destruct (Z.even q).
    + split; [lia|]. nia.
    + split; [nia|]. assert ((q + 1) * 2 ^ k - M ≤ h)%Z by nia. nia.
Qed.

(** [Math.floor(Math.random() * n)] is an index below [n], also after the
    product has been rounded. *)
Lemma floorMul_lt u n : isRandom u = true → 0 < n → floorMul u n < n.
Proof.
  intros Hu Hn. destruct u as [a b].
  apply isRandom_fraction in Hu as [[Ha Hab] Ha53].
  unfold floorMul. simpl.
  assert (HM : (0 ≤ a * Z.of_nat n)%Z) by lia.
  destruct (round53_bounds _ HM) as (k & Hk & Hlo & Hhi).
  assert (H2k : (0 < 2 ^ k)%Z) by (apply Z.pow_pos_nonneg; lia).
  assert (H0 : (0 ≤ round53 (a * Z.of_nat n))%Z).
  { assert (0 ≤ a * Z.of_nat n / 2 ^ k)%Z by (apply Z.div_pos; lia). nia. }
  assert (Hlt : (round53 (a * Z.of_nat n) / Z.pos b < Z.of_nat n)%Z).
  { apply Z.div_lt_upper_bound; [lia|].
    assert (H53 : (0 < 2 ^ 53)%Z) by reflexivity.
    assert (Hab' : (2 ^ 53 * a + a < 2 ^ 53 * Z.pos b)%Z) by lia.
    assert (Hn' : (1 ≤ Z.of_nat n)%Z) by lia.
    assert (Hr : (2 ^ 53 * round53 (a * Z.of_nat n)
                  ≤ (2 ^ 53 * a + a) * Z.of_nat n)%Z) by lia.
    assert (Hs : ((2 ^ 53 * a + a) * Z.of_nat n
                  < 2 ^ 53 * Z.pos b * Z.of_nat n)%Z).
    { apply Z.mul_lt_mono_pos_r; lia. }
    assert (Ht : (2 ^ 53 * round53 (a * Z.of_nat n)
                  < 2 ^ 53 * (Z.pos b * Z.of_nat n))%Z) by lia.
    apply Z.mul_lt_mono_pos_l in Ht; lia. }
  assert (0 ≤ round53 (a * Z.of_nat n) / Z.pos b)%Z by (apply Z.div_pos; lia).
  lia.
Qed.

Lemma drawThreshold_range u : isRandom u = true → 10 ≤ drawThreshold u ≤ 20.
Proof.
  intros Hu. unfold drawThreshold.
  pose proof (floorMul_lt u 11 Hu ltac:(lia)). lia.
Qed.



(** Two draws that rounding decides: the exact products, [3 - 2^-52] and
    [5 - 2^-51], are ties that binary64 rounds up to 3 and to 5. *)
Lemma floorMul_rounds :
  drawThreshold (1228254443828317 # 4503599627370496) = 13
  ∧ floorMul (3752999689475413 # 4503599627370496) 6 = 5.
Proof. split; vm_compute; reflexivity. Qed.

(** ** The review scheduler inside [nextWord] *)

Lemma reviewCandidates_eligible ms : reviewCandidates ms = filter eligible ms.
Proof.
  unfold reviewCandidates. apply list_filter_iff. intros m.
  unfold eligible. by rewrite or0_id.
Qed.

Lemma nextWord_after_review uI uT s r :
  reviewWord s = Some r →
  nextWord uI uT s = setStatus QUIZ (setReviewWord None (resetCardState s)).
Proof. intros H. unfold nextWord. by rewrite H. Qed.

Lemma nextWord_inject uI uT s :
  reviewWord s = None →
  nextReviewThreshold s ≤ wordsSinceReview s + 1 →
  filter eligible (mistakes s) ≠ [] →
  nextWord uI uT s =
    setStatus QUIZ
      (setNextReviewThreshold (drawThreshold uT)
        (setWordsSinceReview 0
          (setReviewWord
            (filter eligible (mistakes s)
               !! floorMul uI (length (filter eligible (mistakes s))))
            (setWordsSinceReview (wordsSinceReview s + 1) (resetCardState s))))).
Proof.
  intros Hr Ht He. unfold nextWord. rewrite Hr, reviewCandidates_eligible.
  case_decide as Hd; [done|]. exfalso. apply Hd. split; [done|].
  destruct (filter eligible (mistakes s)); simpl; [done|lia].
Qed.




(** C5: advancing from the result of a review card.  The active review record
    is cleared and the quiz is presented again at the same place of the same
    batch; the counter, the threshold, the batch index, the ledger and the
    set of outstanding batch requests are as before, the per-card state is
    reset, and the outcome does not depend on the random numbers: the
    scheduler is not consulted. *)
Theorem advance_after_review_card uI uT s r :
  reviewWord s = Some r →
  let s' := nextWord uI uT s in
  reviewWord s' = None
  ∧ status s' = QUIZ
  ∧ wordsSinceReview s' = wordsSinceReview s
  ∧ nextReviewThreshold s' = nextReviewThreshold s
  ∧ currentIndex s' = currentIndex s
  ∧ words s' = words s
  ∧ activeCard s' = words s !! currentIndex s
  ∧ mistakes s' = mistakes s
  ∧ promises s' = promises s ∧ awaiters s' = awaiters s
  ∧ selectedOption s' = None ∧ wrongCandidates s' = [] ∧ showReward s' = false
  ∧ ∀ vI vT, nextWord vI vT s = s'.
Proof.
  intros Hr s'. subst s'. rewrite (nextWord_after_review _ _ _ _ Hr).
  split_and!; try reflexivity.
  intros vI vT. by rewrite (nextWord_after_review _ _ _ _ Hr).
Qed.

(** A review card shown at the third card of a batch, counter 4, threshold 13. *)
Lemma advance_after_review_card_witness :
  let s := setReviewWord (Some (sampleRecord "old" 1))
             (setNextReviewThreshold 13
               (setWordsSinceReview 4
                 (setCurrentIndex 2
                   (setStatus REVIEW
                     (setWords (sampleBatch "w")
                       (mount (Some [sampleRecord "old" 1]))))))) in
  wordsSinceReview (nextWord (1#2) (1#2) s) = 4
  ∧ nextReviewThreshold (nextWord (1#2) (1#2) s) = 13
  ∧ currentIndex (nextWord (1#2) (1#2) s) = 2
  ∧ activeCard (nextWord (1#2) (1#2) s) = Some (sampleCard "w3").
Proof.
  intros s.
  destruct (advance_after_review_card (1#2) (1#2) s (sampleRecord "old" 1) eq_refl)
    as (_ & _ & H1 & H2 & H3 & _ & H4 & _).
  rewrite H1, H2, H3, H4. vm_compute. done.
Defined.

(** ** Review answers and the ledger *)

Lemma bumpStreak_lookup w l i :
  bumpStreak w l !! i =
  (λ m : MistakeRecord,
     if decide (word m = w)
     then withConsecutiveCorrect (or0 (consecutiveCorrect m) + 1) m
     else m) <$> (l !! i).
Proof. unfold bumpStreak. apply list_lookup_fmap. Qed.

Lemma resetStreak_lookup w l i :
  resetStreak w l !! i =
  (λ m : MistakeRecord,
     if decide (word m = w) then withConsecutiveCorrect 0 m else m) <$> (l !! i).
Proof. unfold resetStreak. apply list_lookup_fmap. Qed.

(** C10: a review answer on the review word [w] (right, first wrong, or second
    wrong) leaves the ledger with the same number of records, and at every
    position the record keeps its card and its timestamp; a record whose word
    is not [w] is unchanged altogether.  So only [consecutiveCorrect] of the
    records of [w] can change and the order of the records is kept. *)
Theorem review_answer_frame opt now s r :
  reviewWord s = Some r →
  let after := mistakes (handleAnswer opt now s) in
  length after = length (mistakes s)
  ∧ ∀ i m, mistakes s !! i = Some m →
      ∃ m', after !! i = Some m'
            ∧ card m' = card m
            ∧ timestamp m' = timestamp m
            ∧ (word m ≠ word r → m' = m).
Proof.
  intros Hr after. subst after.
  destruct (mistakes_handleAnswer opt now s)
    as [->|[(r' & Hr' & [->| ->])|(c & Hnone & _)]]; [| | |congruence].
  - split; [done|]. intros i m Hm. exists m. done.
  - assert (r' = r) by congruence. subst r'.
    split; [unfold bumpStreak; by rewrite length_fmap|].
    intros i m Hm. rewrite bumpStreak_lookup, Hm. simpl.
    eexists. split; [done|]. case_decide; simpl; done.
  - assert (r' = r) by congruence. subst r'.
    split; [unfold resetStreak; by rewrite length_fmap|].
    intros i m Hm. rewrite resetStreak_lookup, Hm. simpl.
    eexists. split; [done|]. case_decide; simpl; done.
Qed.

(** A ledger of three records; the middle one is under review and answered
    correctly. *)
Lemma review_answer_frame_witness :
  let ledger := [sampleRecord "a" 0; sampleRecord "b" 1; sampleRecord "c" 2] in
  let s := setReviewWord (Some (sampleRecord "b" 1))
             (setStatus QUIZ (setWords (sampleBatch "w") (mount (Some ledger)))) in
  mistakes (handleAnswer "meaning of b" 5 s)
  = [sampleRecord "a" 0; sampleRecord "b" 2; sampleRecord "c" 2]
  ∧ length (mistakes (handleAnswer "meaning of b" 5 s)) = 3.
Proof.
  intros ledger s.
  destruct (review_answer_frame "meaning of b" 5 s (sampleRecord "b" 1) eq_refl)
    as [Hlen _].
  split; [vm_compute; reflexivity|]. rewrite Hlen. reflexivity.
Defined.

(** ** The two-strike answer machine *)

(** What a click on the [idx]-th option button amounts to. *)
Lemma step_ClickOption idx now s s' :
  step (ClickOption idx now) s = Some s' ↔
  ∃ active opt,
    status s = QUIZ ∧ activeCard s = Some active
    ∧ options active !! idx = Some opt
    ∧ (opt ∉ wrongCandidates s) ∧ showReward s = false
    ∧ s' = handleAnswer opt now s.
Proof.
  unfold step. split.
  - intros H. case_decide; [|done].
    destruct (activeCard s) as [active|]; [|done].
    destruct (options active !! idx) as [opt|] eqn:Eo; [|done].
    destruct (bool_decide (opt ∈ wrongCandidates s)) eqn:Ew; [done|].
    destruct (showReward s) eqn:Es; [done|]. simpl in H. simplify_eq.
    apply bool_decide_eq_false in Ew. exists active, opt. split_and!; done.
  - intros (active & opt & Hq & Ha & Ho & Hw & Hs & ->).
    rewrite decide_True by done. rewrite Ha, Ho, Hs.
    rewrite bool_decide_eq_false_2 by done. done.
Qed.

Lemma handleAnswer_correct opt now s active :
  activeCard s = Some active → opt = meaning active →
  showReward (handleAnswer opt now s) = true
  ∧ status (handleAnswer opt now s) = status s
  ∧ timers (handleAnswer opt now s) = timers s ++ [opt].
Proof.
  intros Ha Ho. unfold handleAnswer. rewrite Ha, decide_True by done.
  destruct (reviewWord s); done.
Qed.

Lemma handleAnswer_first_wrong opt now s active :
  activeCard s = Some active → opt ≠ meaning active → wrongCandidates s = [] →
  handleAnswer opt now s = setWrongCandidates [opt] s.
Proof.
  intros Ha Ho Hw. unfold handleAnswer.
  rewrite Ha, decide_False, decide_True by (done || by rewrite Hw).
  by rewrite Hw.
Qed.

Lemma handleAnswer_second_wrong opt now s active :
  activeCard s = Some active → opt ≠ meaning active → wrongCandidates s ≠ [] →
  status (handleAnswer opt now s) = REVIEW
  ∧ selectedOption (handleAnswer opt now s) = Some opt
  ∧ timers (handleAnswer opt now s) = timers s.
Proof.
  intros Ha Ho Hw. unfold handleAnswer.
  rewrite Ha, decide_False by done.
  rewrite decide_False by (by destruct (wrongCandidates s)).
  destruct (reviewWord s); done.
Qed.

Lemma strikesLeft_decreases idx now s s' :
  step (ClickOption idx now) s = Some s' → strikesLeft s' < strikesLeft s.
Proof.
  intros (active & opt & Hq & Ha & Ho & Hw & Hs & ->)%step_ClickOption.
  destruct (decide (opt = meaning active)) as [Hm|Hm].
  - destruct (handleAnswer_correct opt now s active Ha Hm) as (H1 & H2 & _).
    unfold strikesLeft. rewrite H1, H2, Hs, !decide_True by done.
    case_decide; lia.
  - destruct (wrongCandidates s) as [|w ws] eqn:Ew.
    + rewrite (handleAnswer_first_wrong opt now s active) by done.
      unfold strikesLeft. simpl. rewrite Hs, Ew, !decide_True by done.
      simpl. lia.
    + destruct (handleAnswer_second_wrong opt now s active) as (H1 & _);
        [done|done|by rewrite Ew|].
      unfold strikesLeft. rewrite H1, Hq, Hs, Ew. simpl. lia.
Qed.

Lemma clickOptions_bound clicks s : (clickOptions clicks s).1 ≤ strikesLeft s.
Proof.
  revert s. induction clicks as [|[idx now] rest IH]; intros s; simpl; [lia|].
  destruct (step (ClickOption idx now) s) as [s'|] eqn:E.
  - apply strikesLeft_decreases in E.
    specialize (IH s'). destruct (clickOptions rest s') as [n s''].
    cbn [fst] in *. lia.
  - apply IH.
Qed.

Lemma strikesLeft_le_2 s : strikesLeft s ≤ 2.
Proof. unfold strikesLeft. repeat case_decide; destruct (showReward s); lia. Qed.

Lemma clickOptions_wrongCandidates clicks s opt :
  opt ∈ wrongCandidates s → opt ∈ wrongCandidates (clickOptions clicks s).2.
Proof.
  revert s. induction clicks as [|[idx now] rest IH]; intros s Hin; simpl; [done|].
  destruct (step (ClickOption idx now) s) as [s'|] eqn:E; [|by apply IH].
  specialize (IH s'). destruct (clickOptions rest s') as [n s''] eqn:Ec.
  simpl. apply IH.
  apply step_ClickOption in E as (active & o & Hq & Ha & Ho & Hw & Hs & ->).
  unfold handleAnswer. rewrite Ha.
  case_decide; [by destruct (reviewWord s)|].
  case_decide; [simpl; set_solver|].
  by destruct (reviewWord s).
Qed.

(** Two strikes, for a card without a wrong attempt so far.  However the
    option buttons are clicked, at most two clicks reach [handleAnswer] before
    the card stops taking answers.  On a card without a wrong attempt so far, a
    wrong click is recorded in [wrongCandidates], the card stays on screen and
    every button showing that option rejects clicks from then on, whatever
    other options are clicked later.  A correct click raises the reward, which
    disables every option at once, and schedules the switch to the result
    screen with that selection; a wrong click on a card that already has a
    wrong attempt goes to the result screen at once. *)
Theorem two_strikes idx now s s' active opt :
  step (ClickOption idx now) s = Some s' →
  activeCard s = Some active →
  options active !! idx = Some opt →
  (∀ clicks st, (clickOptions clicks st).1 ≤ 2)
  ∧ (opt ≠ meaning active → wrongCandidates s = [] →
       status s' = QUIZ ∧ activeCard s' = Some active
       ∧ wrongCandidates s' = [opt]
       ∧ (∀ j t, options active !! j = Some opt → step (ClickOption j t) s' = None)
       ∧ (∀ clicks, opt ∈ wrongCandidates (clickOptions clicks s').2)
       ∧ (∀ clicks, (clickOptions clicks s').1 ≤ 1))
  ∧ (opt = meaning active →
       showReward s' = true
       ∧ (∀ j t, step (ClickOption j t) s' = None)
       ∧ timers s' = timers s ++ [opt]
       ∧ ∀ st, status (rewardTimeout opt st) = REVIEW
               ∧ selectedOption (rewardTimeout opt st) = Some opt
               ∧ showReward (rewardTimeout opt st) = false)
  ∧ (opt ≠ meaning active → wrongCandidates s ≠ [] →
       status s' = REVIEW ∧ selectedOption s' = Some opt
       ∧ ∀ j t, step (ClickOption j t) s' = None).
Proof.
  intros Hstep Ha Ho.
  apply step_ClickOption in Hstep
    as (active' & opt' & Hq & Ha' & Ho' & Hw & Hs & ->).
  assert (active' = active) by congruence. subst active'.
  assert (opt' = opt) by congruence. subst opt'.
  split_and!.
  - intros clicks st. etrans; [apply clickOptions_bound|apply strikesLeft_le_2].
  - intros Hm Hwc. rewrite (handleAnswer_first_wrong opt now s active) by done.
    split_and!; try done.
    + intros j t Hj. unfold step. rewrite decide_True by done.
      change (activeCard (setWrongCandidates [opt] s)) with (activeCard s).
      rewrite Ha, Hj. simpl. rewrite bool_decide_eq_true_2 by set_solver. done.
    + intros clicks. apply clickOptions_wrongCandidates. simpl. set_solver.
    + intros clicks. etrans; [apply clickOptions_bound|].
      unfold strikesLeft. simpl. rewrite Hs. case_decide; simpl; lia.
  - intros Hm. destruct (handleAnswer_correct opt now s active Ha Hm) as (H1 & H2 & H3).
    split_and!; try done.
    intros j t. destruct (step (ClickOption j t) (handleAnswer opt now s)) eqn:E; [|done].
    apply step_ClickOption in E as (? & ? & ? & ? & ? & ? & E & ?). congruence.
  - intros Hm Hwc.
    destruct (handleAnswer_second_wrong opt now s active Ha Hm Hwc) as (H1 & H2 & H3).
    split_and!; try done.
    intros j t. destruct (step (ClickOption j t) (handleAnswer opt now s)) eqn:E; [|done].
    apply step_ClickOption in E as (? & ? & E & ?). congruence.
Qed.

(** The first card of a batch: a wrong option, the same option again
    (rejected), another wrong option, then the right one (rejected: the
    result is already shown). *)
Lemma two_strikes_witness :
  let s := setStatus QUIZ (setWords (sampleBatch "w") (mount None)) in
  let s' := handleAnswer "wrong a" 1000 s in
  step (ClickOption 0 1000) s = Some s'
  ∧ wrongCandidates s' = ["wrong a"]
  ∧ step (ClickOption 0 1001) s' = None
  ∧ (clickOptions [(0, 1001%Z); (2, 1002%Z); (1, 1003%Z)] s').1 ≤ 1.
Proof.
  intros s s'.
  destruct (two_strikes 0 1000 s s' (sampleCard "w1") "wrong a")
    as (_ & H & _); [reflexivity..|].
  destruct H as (_ & _ & H3 & H4 & _ & H6).
  - vm_compute. discriminate.
  - reflexivity.
  - split; [reflexivity|]. split; [exact H3|].
    split; [apply H4; reflexivity|apply H6].
Defined.

(** C3: the second chance is lost on a card that a late batch brings.  A
    session that every user can have: the request for the next batch is still
    pending when a new session is started, and its batch arrives after a wrong
    answer to the new session's card.  The [.then] of [nextWord] shows the
    first card of that batch without resetting the card state, so this card,
    which has not been answered, has one option struck out and disabled
    already, and its first wrong answer fails it: one submission, no second
    chance, the word goes to the ledger.  When the batch arrives while the
    reward for a right answer is shown, the card that comes up takes no
    answer at all and ends on the result screen, judged wrong with the
    meaning of the other card. *)
Theorem second_chance_lost_after_late_batch :
  (∃ s s',
     run lateBatchSession (mount None) = Some s
     ∧ status s = QUIZ ∧ activeCard s = Some (sampleCard "b1")
     ∧ wrongCandidates s = ["wrong a"]
     ∧ step (ClickOption 0 2) s = None
     ∧ step (ClickOption 2 2) s = Some s'
     ∧ clickOptions [(2, 2%Z)] s = (1, s')
     ∧ status s' = REVIEW ∧ activeCard s' = Some (sampleCard "b1")
     ∧ selectedOption s' = Some "wrong b"
     ∧ mistakes s' = [mkMistakeRecord (sampleCard "b1") 2 0])
  ∧ (∃ s s',
       run lateBatchRewardSession (mount None) = Some s
       ∧ status s = QUIZ ∧ activeCard s = Some (sampleCard "b1")
       ∧ (∀ idx now, step (ClickOption idx now) s = None)
       ∧ step TimerFired s = Some s'
       ∧ status s' = REVIEW ∧ activeCard s' = Some (sampleCard "b1")
       ∧ selectedOption s' = Some "meaning of c1"
       ∧ isCorrect s' (sampleCard "b1") = false).
Proof.
  split.
  - eexists. eexists. split; [vm_compute; reflexivity|].
    split_and!; try reflexivity; vm_compute; reflexivity.
  - eexists. eexists. split; [vm_compute; reflexivity|].
    split_and!; try reflexivity; try (vm_compute; reflexivity).
    intros idx now.
    match goal with |- step _ ?s = None =>
      destruct (step (ClickOption idx now) s) eqn:E; [|done];
      apply step_ClickOption in E as (? & ? & _ & _ & _ & _ & E & _);
      discriminate E
    end.
Qed.


(** ** The streak of a record *)

(** What the code does to a streak, rule by rule: a new record starts at 0, a
    correct review answer adds exactly one to the record of the review word,
    the second wrong answer puts it back to 0, a record at 3 is no review
    candidate, and neither answer removes a record. *)
Lemma streak_rules (m : MistakeRecord) (c : WordCard) now l :
  (hasWord (word c) l = false →
     head (addRecord c now l) = Some (mkMistakeRecord c now 0))
  ∧ (∀ i, l !! i = Some m →
       bumpStreak (word m) l !! i
       = Some (withConsecutiveCorrect (consecutiveCorrect m + 1) m)
       ∧ resetStreak (word m) l !! i = Some (withConsecutiveCorrect 0 m))
  ∧ (3 ≤ consecutiveCorrect m → m ∉ reviewCandidates l)
  ∧ (consecutiveCorrect m < 3 → m ∈ l → m ∈ reviewCandidates l)
  ∧ length (bumpStreak (word m) l) = length l
  ∧ length (resetStreak (word m) l) = length l.
Proof.
  split_and!.
  - intros H. unfold addRecord. by rewrite H.
  - intros i Hi. rewrite bumpStreak_lookup, resetStreak_lookup, Hi. simpl.
    rewrite !decide_True by done. by rewrite or0_id.
  - intros H Hin. rewrite reviewCandidates_eligible in Hin.
    apply list_elem_of_filter in Hin as [He _]. unfold eligible in He. lia.
  - intros H Hin. rewrite reviewCandidates_eligible.
    apply list_elem_of_filter. done.
  - unfold bumpStreak. by rewrite length_fmap.
  - unfold resetStreak. by rewrite length_fmap.
Qed.

(** C2: a streak can leave the range 0..3.  In [staleBatchSession] the record
    "old" starts with a streak of 2, is reviewed correctly (3), and is then
    presented again because a late batch brings the quiz back while
    [reviewWord] is still set; the second correct answer makes it 4. *)
Theorem streak_exceeds_three :
  ∃ s, run staleBatchSession (mount (Some [sampleRecord "old" 2])) = Some s
       ∧ mistakes s = [sampleRecord "old" 4]
       ∧ ¬ Forall (λ m : MistakeRecord, consecutiveCorrect m ≤ 3) (mistakes s).
Proof.
  eexists. split; [vm_compute; reflexivity|].
  split; [reflexivity|].
  intros H. apply Forall_cons in H as [H _]. simpl in H. lia.
Qed.

(** ** Where the streak bound does hold

    The session of [streak_exceeds_three] is the only way past 3: as long as
    no batch requested by [nextWord] arrives while a review word is set, every
    streak stays within 0..3. *)

Lemma Forall_bumpStreak w l :
  Forall (λ m : MistakeRecord, consecutiveCorrect m ≤ 3) l →
  (∀ m : MistakeRecord, m ∈ l → word m = w → consecutiveCorrect m < 3) →
  Forall (λ m : MistakeRecord, consecutiveCorrect m ≤ 3) (bumpStreak w l).
Proof.
  intros Hall Hw. unfold bumpStreak. apply Forall_fmap, Forall_forall.
  intros m Hm. simpl. case_decide as Hd.
  - simpl. rewrite or0_id. specialize (Hw m Hm Hd). lia.
  - by eapply Forall_forall in Hall.
Qed.

Lemma Forall_resetStreak w l :
  Forall (λ m : MistakeRecord, consecutiveCorrect m ≤ 3) l →
  Forall (λ m : MistakeRecord, consecutiveCorrect m ≤ 3) (resetStreak w l).
Proof.
  intros Hall. unfold resetStreak. apply Forall_fmap, Forall_forall.
  intros m Hm. simpl. case_decide; simpl; [lia|].
  by eapply Forall_forall in Hall.
Qed.

Lemma Forall_addRecord c now l :
  Forall (λ m : MistakeRecord, consecutiveCorrect m ≤ 3) l →
  Forall (λ m : MistakeRecord, consecutiveCorrect m ≤ 3) (addRecord c now l).
Proof.
  intros Hall. unfold addRecord. destruct (hasWord (word c) l); [done|].
  constructor; [simpl; lia|done].
Qed.

Lemma Forall_dropWord w l :
  Forall (λ m : MistakeRecord, consecutiveCorrect m ≤ 3) l →
  Forall (λ m : MistakeRecord, consecutiveCorrect m ≤ 3) (dropWord w l).
Proof.
  intros Hall. unfold dropWord. rewrite Forall_forall in *.
  intros m Hm. apply list_elem_of_filter in Hm as [_ Hm]. by apply Hall.
Qed.

(** In a ledger with distinct words, the record of a word is unique. *)
Lemma ledger_word_unique (l : list MistakeRecord) (m r : MistakeRecord) :
  NoDup (ledgerWords l) → m ∈ l → r ∈ l → word m = word r → m = r.
Proof.
  unfold ledgerWords. induction l as [|x l IH]; intros Hnd Hm Hr Hw.
  - by apply not_elem_of_nil in Hm.
  - simpl in Hnd. apply NoDup_cons in Hnd as [Hx Hnd].
    apply elem_of_cons in Hm as [->|Hm]; apply elem_of_cons in Hr as [->|Hr].
    + done.
    + exfalso. apply Hx. rewrite Hw. apply list_elem_of_fmap. eauto.
    + exfalso. apply Hx. rewrite <- Hw. apply list_elem_of_fmap. eauto.
    + by apply IH.
Qed.

Lemma foldl_resume_reviewWord r (ks : list (nat * Continuation)) s :
  reviewWord s = None →
  reviewWord (foldl (λ st a, resume a.2 r st) s ks) = None.
Proof.
  revert s. induction ks as [|a ks IH]; intros s Hs; simpl; [done|].
  apply IH. destruct a as [p [[]|]], r; simpl; done.
Qed.

Lemma foldl_resume_last r (ks : list (nat * Continuation)) s :
  ks ≠ [] →
  (r = Rejected ∨ ∀ a, a ∈ ks → a.2 ≠ NextCont) →
  status (foldl (λ st a, resume a.2 r st) s ks) = IDLE
  ∨ reviewWord (foldl (λ st a, resume a.2 r st) s ks) = None.
Proof.
  induction ks as [|a ks _] using rev_ind; [done|]. intros _ Hk.
  rewrite foldl_app. simpl.
  destruct a as [p k]. simpl. destruct k as [pre|], r as [ws|].
  - right. by destruct pre.
  - by left.
  - exfalso. destruct Hk as [Hk|Hk]; [done|].
    apply (Hk (p, NextCont)); [|done]. apply elem_of_app. right.
    apply list_elem_of_here.
  - by left.
Qed.

Lemma settle_streaksBounded p r s :
  streaksBounded s → ¬ staleBatch (FetchSettled p r) s →
  streaksBounded (settle p r s).
Proof.
  intros (Hnd & Hall & Hrev) Hstale. unfold streaksBounded.
  rewrite !mistakes_settle. split; [done|]. split; [done|].
  unfold settle. cbv zeta.
  remember (setAwaiters _ _) as s3 eqn:Es3.
  remember (filter (λ a : nat * Continuation, a.1 = p) (awaiters s))
    as waiting eqn:Ew.
  assert (Hs3 : status s3 = status s ∧ showReward s3 = showReward s
                ∧ reviewWord s3 = reviewWord s).
  { subst s3. destruct r; done. }
  destruct Hs3 as (Hst & Hsh & Hrw).
  destruct (decide (waiting = [])) as [Hnil|Hne].
  { rewrite Hnil. simpl. rewrite Hst, Hsh, Hrw. exact Hrev. }
  assert (Hsafe : status (foldl (λ st a, resume a.2 r st) s3 waiting) = IDLE
                  ∨ reviewWord (foldl (λ st a, resume a.2 r st) s3 waiting) = None).
  { destruct r as [ws|].
    - destruct (reviewWord s) as [rw|] eqn:Erw.
      + apply foldl_resume_last; [done|]. right.
        intros [p' k] Hin Hk. simpl in Hk. subst k. rewrite Ew in Hin.
        apply list_elem_of_filter in Hin as [Hp Hin]. simpl in Hp. subst p'.
        apply Hstale. simpl. rewrite Erw. split; [by eexists|done].
      + right. apply foldl_resume_reviewWord. by rewrite Hrw.
    - apply foldl_resume_last; [done|]. by left. }
  intros Hq Hsr rw Hrw'. destruct Hsafe as [Hi|Hn]; congruence.
Qed.

Lemma handleAnswer_streaksBounded opt now s :
  streaksBounded s → status s = QUIZ → showReward s = false →
  NoDup (ledgerWords (mistakes (handleAnswer opt now s))) →
  streaksBounded (handleAnswer opt now s).
Proof.
  intros (Hnd & Hall & Hrev) Hq Hsr Hnd'. split; [done|]. revert Hnd'.
  unfold handleAnswer. destruct (activeCard s) as [active|]; [|done].
  case_decide.
  - (* correct *)
    intros _. destruct (reviewWord s) as [r|] eqn:Er; simpl.
    + split; [|intros _ ?; discriminate].
      apply Forall_bumpStreak; [done|]. intros m Hm Hw. by eapply Hrev.
    + split; [done|]. intros _ ?; discriminate.
  - case_decide.
    + (* first mistake *)
      intros _. simpl. split; [done|]. exact Hrev.
    + (* second mistake *)
      intros _. destruct (reviewWord s) as [r|] eqn:Er; simpl.
      * split; [by apply Forall_resetStreak|]. intros ?; discriminate.
      * split; [by apply Forall_addRecord|]. intros ?; discriminate.
Qed.

Lemma nextWord_streaksBounded u1 u2 s :
  streaksBounded s → streaksBounded (nextWord u1 u2 s).
Proof.
  intros (Hnd & Hall & Hrev). unfold streaksBounded.
  rewrite mistakes_nextWord. split; [done|]. split; [done|].
  unfold nextWord. destruct (reviewWord s) as [r|] eqn:Er.
  { simpl. intros _ _ r' ?; discriminate. }
  case_decide as Hinj.
  - simpl. intros _ _ r Hr m Hm Hw.
    apply list_elem_of_lookup_2 in Hr.
    rewrite reviewCandidates_eligible in Hr.
    apply list_elem_of_filter in Hr as [He Hr].
    assert (m = r) by (eapply ledger_word_unique; eauto). subst m. exact He.
  - case_decide; simpl.
    + rewrite Er. intros _ _ r' ?; discriminate.
    + intros ?; discriminate.
Qed.

Lemma startSession_streaksBounded s :
  streaksBounded s → streaksBounded (startSession s).
Proof.
  intros (Hnd & Hall & Hrev). unfold streaksBounded.
  rewrite mistakes_startSession. split; [done|]. split; [done|].
  unfold startSession. destruct (initFetchPromise s) as [p|].
  - destruct (promises s !! p) as [[[ws|]|]|]; simpl; intros ?; discriminate.
  - simpl. intros ?; discriminate.
Qed.

Lemma step_streaksBounded e s s' :
  streaksBounded s → ¬ staleBatch e s → step e s = Some s' → streaksBounded s'.
Proof.
  intros Hinv Hstale Hstep.
  pose proof (step_NoDup _ _ _ Hstep (proj1 Hinv)) as Hnd'.
  destruct e as [| | | | |idx now|u1 u2|now|idx|p r|].
  6:{ apply step_ClickOption in Hstep
        as (active & opt & Hq & Ha & Ho & Hw & Hs & ->).
      by apply handleAnswer_streaksBounded. }
  all: unfold step in Hstep; repeat case_decide; repeat case_match;
    simplify_eq.
  all: try (destruct Hinv as (Hnd & Hall & Hrev); split; [done|];
            split; [done|]; simpl; intros ?; congruence).
  - by apply startSession_streaksBounded.
  - by apply nextWord_streaksBounded.
  - destruct Hinv as (Hnd & Hall & Hrev). split; [done|].
    split; [by apply Forall_addRecord|]. simpl. intros ?; congruence.
  - destruct Hinv as (Hnd & Hall & Hrev). split; [done|].
    split; [by apply Forall_dropWord|]. simpl. intros ?; congruence.
  - by apply settle_streaksBounded.
Qed.

(** Without a stale batch every streak of every reachable ledger is within
    0..3, provided the stored ledger was in order. *)
Lemma streak_bound_without_stale_batch saved es s :
  NoDup (ledgerWords (default [] saved)) →
  Forall (λ m : MistakeRecord, consecutiveCorrect m ≤ 3) (default [] saved) →
  run es (mount saved) = Some s →
  noStaleBatch es (mount saved) →
  Forall (λ m : MistakeRecord, consecutiveCorrect m ≤ 3) (mistakes s).
Proof.
  intros Hnd Hall Hrun Hns.
  assert (Hinv : streaksBounded (mount saved)).
  { split; [done|]. split; [done|]. simpl. intros ?; discriminate. }
  clear Hnd Hall. revert Hinv Hrun Hns. generalize (mount saved).
  induction es as [|e es IH]; simpl; intros s0 Hinv Hrun Hns.
  - simplify_eq. apply Hinv.
  - destruct Hns as [Hns1 Hns2].
    destruct (step e s0) as [s1|] eqn:E; [|done].
    eapply IH; [|exact Hrun|exact Hns2]. eapply step_streaksBounded; eauto.
Qed.

(** [reviewSession] has no stale batch: the record ends with a streak of 3. *)
Lemma streak_bound_reviewSession :
  ∃ s, run reviewSession (mount (Some [sampleRecord "old" 2])) = Some s
       ∧ mistakes s = [sampleRecord "old" 3]
       ∧ Forall (λ m : MistakeRecord, consecutiveCorrect m ≤ 3) (mistakes s).
Proof.
  eexists. split; [vm_compute; reflexivity|]. split; [reflexivity|].
  apply (streak_bound_without_stale_batch
           (Some [sampleRecord "old" 2]) reviewSession).
  - simpl. apply NoDup_singleton.
  - simpl. repeat constructor.
  - vm_compute. reflexivity.
  - cbv. repeat (split; [first [exact id | intros [[? H] _]; discriminate H]|]).
    exact I.
Qed.

(** ** A failed batch *)

Lemma startSession_failure s :
  status (resume (StartCont true) Rejected s) = IDLE
  ∧ initFetchPromise (resume (StartCont true) Rejected s) = None
  ∧ (∃ msg, head (effects (resume (StartCont true) Rejected s)) = Some (Alert msg))
  ∧ status (resume (StartCont false) Rejected s) = IDLE
  ∧ initFetchPromise (resume (StartCont false) Rejected s) = None
  ∧ (∃ msg, head (effects (resume (StartCont false) Rejected s)) = Some (Alert msg)).
Proof. simpl. split_and!; eauto. Qed.

Lemma nextWord_failure s :
  status (resume NextCont Rejected s) = IDLE
  ∧ effects (resume NextCont Rejected s) = ConsoleError :: effects s.
Proof. done. Qed.

(** C6: a failed request for the next batch is not shown to the user.  In
    [failedNextBatchSession] the session ends in [IDLE] with no prefetch kept,
    and a new start loads a fresh batch; but all that was emitted are the two
    console messages (of [fetchWordBatch] and of the [.catch] in [nextWord]):
    there is no alert, unlike in [failedStartSession]. *)
Theorem next_batch_failure_is_silent :
  ∃ s, run failedNextBatchSession (mount None) = Some s
       ∧ status s = IDLE
       ∧ initFetchPromise s = None
       ∧ effects s = [ConsoleError; ConsoleError]
       ∧ (∀ msg, Alert msg ∉ effects s)
       ∧ (∃ s1, run [ClickStart; FetchSettled 2 (Fulfilled (sampleBatch "b"))] s
                  = Some s1
                ∧ status s1 = QUIZ ∧ words s1 = sampleBatch "b"
                ∧ currentIndex s1 = 0)
       ∧ ∃ s0 msg, run failedStartSession (mount None) = Some s0
                   ∧ status s0 = IDLE ∧ initFetchPromise s0 = None
                   ∧ head (effects s0) = Some (Alert msg).
Proof.
  eexists. split; [vm_compute; reflexivity|].
  split; [reflexivity|]. split; [reflexivity|]. split; [reflexivity|].
  split; [|split].
  - intros msg Hin. apply list_elem_of_In in Hin. simpl in Hin.
    intuition discriminate.
  - eexists. split; [vm_compute; reflexivity|]. done.
  - eexists. eexists. split; [vm_compute; reflexivity|]. done.
Qed.

(** ** The JSON text of a value reads back as the value *)

Module JSONFacts.
Import JSON.

Lemma chars_Array l : chars (Array l) = "["%char :: elementsChars l.
Proof.
  reflexivity.
Qed.

Lemma chars_Object l : chars (Object l) = "{"%char :: membersChars l.
Proof.
  reflexivity.
Qed.

Lemma parseString_escape c tail :
  parseString (escape c ++ tail) =
  match parseString tail with
  | Some (s, r) => Some (c :: s, r)
  | None => None
  end.
Proof. destruct c as [[] [] [] [] [] [] [] []]; reflexivity. Qed.

Lemma parseString_escapeAll s rest :
  parseString (escapeAll s ++ "034"%char :: rest) = Some (s, rest).
Proof.
  induction s as [|c s IH]; [reflexivity|].
  simpl. rewrite <- app_assoc, parseString_escape, IH. done.
Qed.

Lemma parseDigits_uintChars d rest :
  match rest with c :: _ => digitValue c = None | [] => True end →
  parseDigits (uintChars d ++ rest) = (d, rest).
Proof.
  intros Hrest. induction d; simpl; try (rewrite IHd; reflexivity).
  destruct rest as [|c rest]; [done|]. simpl. by rewrite Hrest.
Qed.

Lemma uintChars_head d :
  d ≠ Nil → ∃ c tl, uintChars d = c :: tl ∧ 48 ≤ nat_of_ascii c ≤ 57.
Proof.
  destruct d; [done|..]; intros _; eexists _, _;
    (split; [reflexivity|]); vm_compute; lia.
Qed.

Lemma to_uint_nonnil n : N.to_uint n ≠ Nil.
Proof.
  destruct n; simpl; [discriminate|]. apply DecimalPos.Unsigned.to_uint_nonnil.
Qed.

Lemma splitSign_digits d rest :
  d ≠ Nil → splitSign (uintChars d ++ rest) = (false, uintChars d ++ rest).
Proof.
  intros Hd. destruct (uintChars_head d Hd) as (c & tl & Hc & Hr).
  rewrite Hc. simpl. by rewrite decide_False by lia.
Qed.

Lemma continuesNumber_false rest : endsNumber rest → continuesNumber rest = false.
Proof.
  destruct rest as [|c rest]; [done|]. intros (_ & ? & ? & ?). simpl.
  apply bool_decide_eq_false_2. lia.
Qed.

Lemma parseNumber_numberChars z rest :
  endsNumber rest → parseNumber (numberChars z ++ rest) = Some (z, rest).
Proof.
  intros Hrest.
  assert (Hd : match rest with c :: _ => digitValue c = None | [] => True end).
  { destruct rest; [done|apply Hrest]. }
  unfold numberChars, parseNumber. case_decide as Hz.
  - change (splitSign (("-"%char :: uintChars (N.to_uint (Z.to_N (- z)))) ++ rest))
      with (true, uintChars (N.to_uint (Z.to_N (- z))) ++ rest).
    cbv beta iota. rewrite parseDigits_uintChars by done.
    rewrite (continuesNumber_false _ Hrest).
    pose proof (to_uint_nonnil (Z.to_N (- z))) as Hn.
    destruct (N.to_uint (Z.to_N (- z))) eqn:E; [done|..];
      rewrite <- E, DecimalN.Unsigned.of_to; f_equal; f_equal; lia.
  - rewrite splitSign_digits by apply to_uint_nonnil.
    cbv beta iota. rewrite parseDigits_uintChars by done.
    rewrite (continuesNumber_false _ Hrest).
    pose proof (to_uint_nonnil (Z.to_N z)) as Hn.
    destruct (N.to_uint (Z.to_N z)) eqn:E; [done|..];
      rewrite <- E, DecimalN.Unsigned.of_to; f_equal; f_equal; lia.
Qed.

Lemma numberChars_head z :
  ∃ c tl, numberChars z = c :: tl
          ∧ (nat_of_ascii c = 45 ∨ 48 ≤ nat_of_ascii c ≤ 57).
Proof.
  unfold numberChars. case_decide.
  - eexists _, _. split; [reflexivity|]. by left.
  - destruct (uintChars_head _ (to_uint_nonnil (Z.to_N z))) as (c & tl & -> & Hd).
    eexists _, _. split; [reflexivity|]. by right.
Qed.

Lemma skipWs_cons c rest : isWs c = false → skipWs (c :: rest) = c :: rest.
Proof. intros H. simpl. by rewrite H. Qed.

Lemma endsNumber_comma rest : endsNumber (","%char :: rest).
Proof. simpl. split_and!; [reflexivity|vm_compute; lia..]. Qed.

Lemma endsNumber_bracket rest : endsNumber ("]"%char :: rest).
Proof. simpl. split_and!; [reflexivity|vm_compute; lia..]. Qed.

Lemma endsNumber_brace rest : endsNumber ("}"%char :: rest).
Proof. simpl. split_and!; [reflexivity|vm_compute; lia..]. Qed.

Lemma chars_head v :
  ∃ c tl, chars v = c :: tl ∧ isWs c = false ∧ nat_of_ascii c ≠ 93.
Proof.
  destruct v as [|[]|z|s|l|l];
    try (eexists _, _; split; [reflexivity|]; split; [reflexivity|vm_compute; lia]).
  destruct (numberChars_head z) as (c & tl & Hc & Hd).
  exists c, tl. split; [exact Hc|]. split; [|lia].
  unfold isWs. apply bool_decide_eq_false_2. lia.
Qed.

Lemma parseValue_array fuel inp :
  parseValue (S fuel) ("["%char :: inp) =
  match skipWs inp with
  | c :: r =>
    if decide (nat_of_ascii c = 93) then Some (Array [], r)
    else match parseElements fuel inp with
         | Some (vs, r') => Some (Array vs, r')
         | None => None
         end
  | [] => None
  end.
Proof. reflexivity. Qed.

Lemma parseValue_object fuel inp :
  parseValue (S fuel) ("{"%char :: inp) =
  match skipWs inp with
  | c :: r =>
    if decide (nat_of_ascii c = 125) then Some (Object [], r)
    else match parseMembers fuel inp with
         | Some (ms, r') => Some (Object ms, r')
         | None => None
         end
  | [] => None
  end.
Proof. reflexivity. Qed.

Lemma parseElements_S fuel inp :
  parseElements (S fuel) inp =
  match parseValue fuel inp with
  | Some (v, rest) =>
    match skipWs rest with
    | c :: rest1 =>
      if decide (nat_of_ascii c = 44) then
        match parseElements fuel rest1 with
        | Some (vs, rest2) => Some (v :: vs, rest2)
        | None => None
        end
      else if decide (nat_of_ascii c = 93) then Some ([v], rest1)
      else None
    | [] => None
    end
  | None => None
  end.
Proof. reflexivity. Qed.

Lemma parseMembers_quote fuel inp :
  parseMembers (S fuel) ("034"%char :: inp) =
  match parseString inp with
  | Some (k, rest1) =>
    match skipWs rest1 with
    | c :: rest2 =>
      if decide (nat_of_ascii c = 58) then
        match parseValue fuel rest2 with
        | Some (v, rest3) =>
          match skipWs rest3 with
          | c' :: rest4 =>
            if decide (nat_of_ascii c' = 44) then
              match parseMembers fuel rest4 with
              | Some (ms, rest5) => Some ((string_of_list_ascii k, v) :: ms, rest5)
              | None => None
              end
            else if decide (nat_of_ascii c' = 125)
                 then Some ([(string_of_list_ascii k, v)], rest4)
            else None
          | [] => None
          end
        | None => None
        end
      else None
    | [] => None
    end
  | None => None
  end.
Proof. reflexivity. Qed.

(** The separator written after an element or a member. *)
Lemma elementsChars_cons v l :
  elementsChars (v :: l) =
  chars v ++ match l with [] => ["]"%char] | _ :: _ => ","%char :: elementsChars l end.
Proof. reflexivity. Qed.

Lemma membersChars_cons k v l :
  membersChars ((k, v) :: l) =
  "034"%char :: (escapeAll (list_ascii_of_string k) ++ ["034"%char])
  ++ ":"%char :: chars v
  ++ match l with [] => ["}"%char] | _ :: _ => ","%char :: membersChars l end.
Proof. reflexivity. Qed.

(** Reading back what was written, with enough fuel for the text. *)
Lemma parse_chars fuel :
  (∀ v rest, length (chars v) ≤ fuel → endsNumber rest →
     parseValue fuel (chars v ++ rest) = Some (v, rest))
  ∧ (∀ l rest, l ≠ [] → length (elementsChars l) ≤ fuel →
       parseElements fuel (elementsChars l ++ rest) = Some (l, rest))
  ∧ (∀ l rest, l ≠ [] → length (membersChars l) ≤ fuel →
       parseMembers fuel (membersChars l ++ rest) = Some (l, rest)).
Proof.
  induction fuel as [|fuel (IHv & IHe & IHm)].
  { split_and!.
    - intros v rest Hlen. exfalso.
      destruct (chars_head v) as (c & tl & Hc & _). rewrite Hc in Hlen.
      simpl in Hlen. lia.
    - intros [|v l] rest Hl Hlen; [done|]. exfalso.
      rewrite elementsChars_cons, length_app in Hlen.
      destruct l; simpl in Hlen; lia.
    - intros [|[k v] l] rest Hl Hlen; [done|]. exfalso.
      rewrite membersChars_cons in Hlen. simpl in Hlen. lia. }
  split_and!.
  - intros v rest Hlen Hrest. destruct v as [|[]|z|s|l|l].
    + reflexivity.
    + reflexivity.
    + reflexivity.
    + destruct (numberChars_head z) as (c & tl & Hc & Hd).
      pose proof (parseNumber_numberChars z rest Hrest) as Hp.
      change (chars (Number z)) with (numberChars z). rewrite Hc in *.
      cbn [parseValue app]. rewrite skipWs_cons.
      2:{ unfold isWs. apply bool_decide_eq_false_2. lia. }
      rewrite !decide_False by lia. cbn [app] in Hp. by rewrite Hp.
    + simpl. rewrite <- app_assoc. simpl. rewrite parseString_escapeAll.
      by rewrite string_of_list_ascii_of_string.
    + rewrite chars_Array in *. destruct l as [|v l]; [reflexivity|].
      cbn [app]. rewrite parseValue_array.
      destruct (chars_head v) as (c & tl & Hc & Hw & Hb).
      rewrite elementsChars_cons at 1. rewrite Hc. cbn [app].
      rewrite skipWs_cons by done. rewrite decide_False by done.
      rewrite IHe; [done|done|]. simpl in Hlen. simpl. lia.
    + rewrite chars_Object in *. destruct l as [|[k v] l]; [reflexivity|].
      cbn [app]. rewrite parseValue_object.
      rewrite membersChars_cons at 1. cbn [app].
      rewrite skipWs_cons by done. rewrite decide_False by (vm_compute; lia).
      change ("034"%char :: ((escapeAll (list_ascii_of_string k) ++ ["034"%char])
               ++ ":"%char :: chars v
               ++ match l with [] => ["}"%char] | _ :: _ => ","%char :: membersChars l end)
               ++ rest)
        with (membersChars ((k, v) :: l) ++ rest).
      rewrite IHm; [done|done|]. simpl in Hlen. simpl. lia.
  - intros [|v l] rest Hl Hlen; [done|].
    rewrite parseElements_S, elementsChars_cons, <- app_assoc.
    rewrite elementsChars_cons, length_app in Hlen.
    rewrite IHv.
    + destruct l as [|v' l'].
      * reflexivity.
      * cbn [app]. rewrite skipWs_cons by done.
        rewrite decide_True by done.
        rewrite IHe; [done|done|]. cbn [length] in Hlen. lia.
    + destruct l; cbn [length] in Hlen; lia.
    + destruct l; [apply endsNumber_bracket|apply endsNumber_comma].
  - intros [|[k v] l] rest Hl Hlen; [done|].
    rewrite membersChars_cons. cbn [app]. rewrite parseMembers_quote.
    rewrite membersChars_cons in Hlen. cbn [length] in Hlen.
    rewrite !length_app in Hlen. cbn [length] in Hlen. rewrite length_app in Hlen.
    rewrite <- !app_assoc. cbn [app]. rewrite parseString_escapeAll.
    rewrite skipWs_cons by done. rewrite decide_True by done.
    rewrite string_of_list_ascii_of_string, <- app_assoc.
    rewrite IHv.
    + destruct l as [|m' l'].
      * reflexivity.
      * cbn [app]. rewrite skipWs_cons by done.
        rewrite decide_True by done.
        rewrite IHm; [done|done|]. cbn [length] in Hlen. lia.
    + lia.
    + destruct l; [apply endsNumber_brace|apply endsNumber_comma].
Qed.

Lemma parse_stringify v : parse (stringify v) = Some v.
Proof.
  unfold parse, stringify. rewrite list_ascii_of_string_of_list_ascii.
  destruct (parse_chars (S (length (chars v)))) as (Hv & _ & _).
  rewrite <- (app_nil_r (chars v)) at 2.
  rewrite Hv by (simpl; done || lia). done.
Qed.

End JSONFacts.

(** ** Persistence *)

Lemma mapM_asString l : mapM asString (JSON.String <$> l) = Some l.
Proof.
  apply mapM_Some. induction l as [|s l IH]; csimpl; by constructor.
Qed.

Lemma valueToRecord_recordToValue m : valueToRecord (recordToValue m) = Some m.
Proof.
  destruct m as [[w ph me os mn se st] ts cc]. unfold valueToRecord, recordToValue.
  csimpl. rewrite mapM_asString. csimpl.
  rewrite decide_True by lia. csimpl. by rewrite Nat2Z.id.
Qed.

Lemma valueToLedger_ledgerToValue ms : valueToLedger (ledgerToValue ms) = Some ms.
Proof.
  unfold valueToLedger, ledgerToValue. apply mapM_Some.
  induction ms as [|m ms IH]; csimpl; constructor; [|done].
  apply valueToRecord_recordToValue.
Qed.

Lemma stringify_ledger_nonempty ms : JSON.stringify (ledgerToValue ms) ≠ EmptyString.
Proof. unfold JSON.stringify, ledgerToValue. simpl. discriminate. Qed.

(** C8: the ledger survives local storage.  After the save effect has written
    the ledger, the load effect of the next mount reads back exactly the same
    list of records: every field of every record, in the same order, whatever
    else the storage holds.  (Timestamps and streaks are integers, strings are
    byte strings.) *)
Theorem ledger_round_trip ms localStorage :
  loadMistakes (saveMistakes ms localStorage) = Saved ms
  ∧ ∃ s, mountFrom (saveMistakes ms localStorage) = Some s ∧ mistakes s = ms.
Proof.
  assert (H : loadMistakes (saveMistakes ms localStorage) = Saved ms).
  { unfold loadMistakes, saveMistakes. rewrite lookup_insert_eq.
    rewrite decide_False by apply stringify_ledger_nonempty.
    rewrite JSONFacts.parse_stringify.
    change (Some (ledgerToValue ms) ≫= valueToLedger)
      with (valueToLedger (ledgerToValue ms)).
    by rewrite valueToLedger_ledgerToValue. }
  split; [exact H|]. unfold mountFrom. rewrite H. eexists. split; reflexivity.
Qed.

(** ** Fetching a batch *)

Lemma filter_withOptions k new members :
  filter (λ kv : string * JSON.value, kv.1 = k) (withOptions new members)
  = withOptions new (filter (λ kv : string * JSON.value, kv.1 = k) members).
Proof.
  unfold withOptions. induction members as [|[k' v] members IH]; [done|].
  csimpl. destruct (decide (k' = "options")) as [Eo|Eo];
    destruct (decide (k' = k)) as [Ek|Ek].
  - rewrite !filter_cons_True by done. csimpl.
    rewrite decide_True by done. by rewrite IH.
  - rewrite !filter_cons_False by done. done.
  - rewrite !filter_cons_True by done. csimpl.
    rewrite decide_False by done. by rewrite IH.
  - rewrite !filter_cons_False by done. done.
Qed.

(** [{ ...item, options: sorted }.options] is [sorted] when [item] has the
    property, and every other property is the one of [item]. *)
Lemma getProperty_withOptions new members :
  is_Some (getProperty "options" members) →
  getProperty "options" (withOptions new members) = Some new.
Proof.
  unfold getProperty. rewrite filter_withOptions.
  unfold withOptions at 1. rewrite fmap_last.
  destruct (last (filter _ members)) as [[k v]|] eqn:El; [|by intros [? ?]].
  intros _. apply last_Some_elem_of, list_elem_of_filter in El as [Hk _].
  simpl in *. subst k. csimpl. done.
Qed.

Lemma getProperty_withOptions_ne k new members :
  k ≠ "options" →
  getProperty k (withOptions new members) = getProperty k members.
Proof.
  intros Hne. unfold getProperty. rewrite filter_withOptions.
  unfold withOptions at 1. rewrite fmap_last.
  destruct (last (filter _ members)) as [[k' v]|] eqn:El; [|done].
  apply last_Some_elem_of, list_elem_of_filter in El as [Hk _].
  simpl in *. subst k'. csimpl. by rewrite ?decide_False.
Qed.

Lemma mapM_Permutation {A B} (f : A → option B) l l' k :
  l ≡ₚ l' → mapM f l = Some k → ∃ k', mapM f l' = Some k' ∧ k ≡ₚ k'.
Proof.
  setoid_rewrite mapM_Some. intros Hp. revert k.
  induction Hp as [|x l l' Hp IH|x y l|l1 l2 l3 H12 IH12 H23 IH23]; intros k Hk.
  - exists k. done.
  - apply Forall2_cons_inv_l in Hk as (b & r & Hb & Hr & ->).
    destruct (IH r Hr) as (r' & Hr' & Hpr). exists (b :: r').
    split; [by constructor|by apply perm_skip].
  - apply Forall2_cons_inv_l in Hk as (b & r0 & Hb & Hr0 & ->).
    apply Forall2_cons_inv_l in Hr0 as (a & r & Ha & Hr & ->).
    exists (a :: b :: r). split; [by repeat constructor|apply Permutation_swap].
  - destruct (IH12 k Hk) as (k2 & H2 & Hp2).
    destruct (IH23 k2 H2) as (k3 & H3 & Hp3).
    exists k3. split; [done|]. by etrans.
Qed.

(** A card whose options are put in another order is still a card: the same
    card with its options in that order. *)
Lemma valueToCard_withOptions members opts sorted card :
  getProperty "options" members = Some (JSON.Array opts) →
  sorted ≡ₚ opts →
  valueToCard (JSON.Object members) = Some card →
  ∃ card',
    valueToCard (JSON.Object (withOptions (JSON.Array sorted) members)) = Some card'
    ∧ reordered card card'.
Proof.
  intros Ho Hp Hc. unfold valueToCard in *.
  rewrite (getProperty_withOptions_ne "word"),
    (getProperty_withOptions_ne "phonetic"),
    (getProperty_withOptions_ne "meaning"),
    (getProperty_withOptions_ne "mnemonic"),
    (getProperty_withOptions_ne "sentence"),
    (getProperty_withOptions_ne "sentenceTranslation") by done.
  rewrite getProperty_withOptions by (by rewrite Ho).
  rewrite Ho in Hc.
  destruct (getProperty "word" members ≫= asString) as [w|]; [|done].
  destruct (getProperty "phonetic" members ≫= asString) as [ph|]; [|done].
  destruct (getProperty "meaning" members ≫= asString) as [me|]; [|done].
  csimpl in *.
  destruct (mapM asString opts) as [os|] eqn:Eos; [|done]. csimpl in *.
  destruct (mapM_Permutation asString opts sorted os) as (os' & Hos' & Hos);
    [done|done|].
  destruct (getProperty "mnemonic" members ≫= asString) as [mn|]; [|done].
  destruct (getProperty "sentence" members ≫= asString) as [se|]; [|done].
  destruct (getProperty "sentenceTranslation" members ≫= asString) as [st|];
    [|done].
  csimpl in Hc. simplify_eq. eexists. split.
  - apply bind_Some. exists os'. split; [exact Hos'|reflexivity].
  - unfold reordered. simpl. split_and!; done.
Qed.

Lemma valueToCard_cardToValue c : valueToCard (cardToValue c) = Some c.
Proof.
  destruct c as [w ph me os mn se st]. unfold valueToCard, cardToValue.
  csimpl. rewrite mapM_asString. done.
Qed.

Lemma optionsOf_cardToValue c :
  ∃ members, optionsOf (cardToValue c) = Some (members, JSON.String <$> options c)
             ∧ cardToValue c = JSON.Object members.
Proof. eexists. split; reflexivity. Qed.

Section FetchWordBatchFacts.
Context `{Engine}.

(** What [data.map] returns when no item throws: for each item, in order, the
    item with the array that [sort] returned for its options. *)
Lemma mapShuffle_Some data g items :
  (mapShuffle data g).1 = Some items →
  Forall2 (λ item out, ∃ members opts g1,
             optionsOf item = Some (members, opts)
             ∧ out = JSON.Object
                       (withOptions
                          (JSON.Array (sort randomComparator opts g1).1) members))
    data items.
Proof.
  revert g items. induction data as [|item rest IH]; intros g items; simpl.
  - intros [= <-]. constructor.
  - unfold shuffleOptions.
    destruct (optionsOf item) as [[members opts]|] eqn:Eo; [|done].
    destruct (sort randomComparator opts g) as [sorted g1] eqn:Es.
    specialize (IH g1).
    destruct (mapShuffle rest g1) as [[rest'|] g2]; [|done].
    simpl in *. intros [= <-]. constructor; [|by apply IH].
    exists members, opts, g. by rewrite Es.
Qed.

(** It throws exactly when some item has no array of options. *)
Lemma mapShuffle_None data g :
  (mapShuffle data g).1 = None ↔ Exists (λ item, optionsOf item = None) data.
Proof.
  revert g. induction data as [|item rest IH]; intros g; simpl.
  - split; [done|]. intros Hex. by apply Exists_nil in Hex.
  - unfold shuffleOptions.
    destruct (optionsOf item) as [[members opts]|] eqn:Eo.
    + destruct (sort randomComparator opts g) as [sorted g1].
      specialize (IH g1).
      destruct (mapShuffle rest g1) as [[rest'|] g2]; simpl in *.
      * split; [done|]. intros [Hh|Ht]%Exists_cons; [congruence|].
        by apply IH in Ht.
      * split; [|done]. intros _. apply Exists_cons_tl. by apply IH.
    + split; [|done]. intros _. by apply Exists_cons_hd.
Qed.

(** A promise that resolves had no text to parse, or an array to map. *)
Lemma fetchWordBatch_Resolves reply g items :
  (fetchWordBatch reply g).1 = Resolves items →
  (reply = NoText ∧ items = [])
  ∨ ∃ data, reply = Parsed (JSON.Array data) ∧ (mapShuffle data g).1 = Some items.
Proof.
  destruct reply as [| | |v]; simpl.
  - intros [=].
  - intros [= <-]. by left.
  - intros [=].
  - destruct v as [|b|z|str|data|members]; simpl; intros Hf;
      try discriminate Hf.
    right. exists data. split; [done|].
    destruct (mapShuffle data g) as [[items'|] g']; simpl in *; by simplify_eq.
Qed.

Lemma optionsOf_Some item members opts :
  optionsOf item = Some (members, opts) →
  item = JSON.Object members
  ∧ getProperty "options" members = Some (JSON.Array opts).
Proof.
  unfold optionsOf. destruct item as [| | | | |ms]; try done.
  destruct (getProperty "options" ms) as [[| | | |l|]|] eqn:E; try done.
  intros [= <- <-]. done.
Qed.

(** Cards stay cards, on an engine whose [sort] reorders. *)
Lemma mapShuffle_cards data g items :
  SortReorders H →
  (mapShuffle (cardToValue <$> data) g).1 = Some items →
  ∃ cards, asBatch items = Some cards ∧ Forall2 reordered data cards.
Proof.
  intros Hsort Hm. apply mapShuffle_Some in Hm.
  apply Forall2_fmap_l in Hm.
  unfold asBatch. setoid_rewrite mapM_Some.
  induction Hm as [|c out data items (members & opts & g1 & Ho & ->) _ IH].
  - exists []. split; constructor.
  - destruct IH as (cards & Hc & Hre).
    apply optionsOf_Some in Ho as [Hv Hgo].
    pose proof (valueToCard_cardToValue c) as Hcard. rewrite Hv in Hcard.
    destruct (valueToCard_withOptions members opts
                (sort randomComparator opts g1).1 c Hgo (Hsort _ _ _ _) Hcard)
      as (c' & Hc' & Hre').
    exists (c' :: cards). split; by constructor.
Qed.

(** C7, as the code has it.  [fetchWordBatch] rejects with the error of the
    request, with the error of [JSON.parse], or with a [TypeError] when the
    parsed value is not an array or one of its elements is not an object with
    an array of options.  Otherwise it resolves: with no element when the
    response has no text, else with one element for each element of the parsed
    array, in order, the element itself with its options as [sort] returned
    them.  Neither the number of elements nor what else they hold is looked
    at. *)
Theorem fetchWordBatch_outcome reply g :
  match (fetchWordBatch reply g).1 with
  | Rejects RequestError => reply = CallThrows
  | Rejects SyntaxError => reply = ParseThrows
  | Rejects TypeError =>
    ∃ v, reply = Parsed v
         ∧ ∀ data, v = JSON.Array data →
             Exists (λ item, optionsOf item = None) data
  | Resolves items =>
    (reply = NoText ∧ items = [])
    ∨ ∃ data,
        reply = Parsed (JSON.Array data)
        ∧ Forall (λ item, is_Some (optionsOf item)) data
        ∧ length items = length data
        ∧ Forall2 (λ item out, ∃ members opts g1,
                     optionsOf item = Some (members, opts)
                     ∧ out = JSON.Object
                               (withOptions
                                  (JSON.Array (sort randomComparator opts g1).1)
                                  members))
            data items
  end.
Proof.
  destruct reply as [| | |v]; simpl; try done; [by left|].
  destruct v as [|b|z|str|data|members]; simpl;
    try (eexists; split; [done|]; intros data' [=]).
  pose proof (mapShuffle_Some data g) as HS.
  pose proof (mapShuffle_None data g) as HN.
  destruct (mapShuffle data g) as [[items|] g']; simpl in *.
  - right. exists data. specialize (HS items eq_refl).
    split; [done|]. split_and!.
    + apply Forall_forall. intros item Hin.
      destruct (optionsOf item) eqn:E; [done|]. exfalso.
      assert (Hex : Exists (λ item, optionsOf item = None) data).
      { apply Exists_exists. eauto. }
      by apply HN in Hex.
    + symmetry. by eapply Forall2_length.
    + done.
  - eexists. split; [done|]. intros data' [= <-]. by apply HN.
Qed.


End FetchWordBatchFacts.

Lemma insertionSort_reorders {A} (cmp : A → A → nat → Q * nat) l g :
  (insertionSort cmp l g).1 ≡ₚ l.
Proof.
  assert (Hins : ∀ (x : A) sorted g0,
             (insertBy cmp x sorted g0).1 ≡ₚ x :: sorted).
  { intros x sorted. induction sorted as [|y ys IH]; intros g0; simpl; [done|].
    destruct (cmp x y g0) as [c g1]. destruct (Qle_bool c 0); [done|].
    specialize (IH g1). destruct (insertBy cmp x ys g1) as [r g2]. simpl in *.
    rewrite IH. apply Permutation_swap. }
  revert g. induction l as [|x xs IH]; intros g; simpl; [done|].
  specialize (IH g). destruct (insertionSort cmp xs g) as [sorted g1]. simpl in *.
  rewrite Hins. by rewrite IH.
Qed.

(** Insertion sort moves elements and does nothing else. *)
Lemma sampleEngine_reorders : SortReorders sampleEngine.
Proof. intros A cmp l g. apply insertionSort_reorders. Qed.



(** C7 as stated fails: a response without text resolves with no element, an
    array of two cards with two, and an array whose element is no card with
    that element. *)
Lemma fetchWordBatch_not_always_five :
  (fetchWordBatch (H := sampleEngine) NoText 7%nat).1 = Resolves []
  ∧ (∃ items cards,
       (fetchWordBatch (H := sampleEngine)
          (Parsed (JSON.Array [cardToValue (sampleCard "w1");
                               cardToValue (sampleCard "w2")])) 7%nat).1
         = Resolves items
       ∧ asBatch items = Some cards ∧ length cards = 2)
  ∧ (fetchWordBatch (H := sampleEngine)
       (Parsed (JSON.Array [JSON.Object [("options", JSON.Array [])]])) 7%nat).1
     = Resolves [JSON.Object [("options", JSON.Array [])]]
  ∧ valueToCard (JSON.Object [("options", JSON.Array [])]) = None
  ∧ ¬ (∀ (E : Engine) reply g,
         (∃ err, (fetchWordBatch reply g).1 = Rejects err)
         ∨ ∃ items cards, (fetchWordBatch reply g).1 = Resolves items
                          ∧ asBatch items = Some cards ∧ length cards = 5).
Proof.
  split_and!.
  - reflexivity.
  - eexists. eexists. split; [vm_compute; reflexivity|].
    split; [vm_compute; reflexivity|]. reflexivity.
  - vm_compute. reflexivity.
  - reflexivity.
  - intros Hall.
    destruct (Hall sampleEngine NoText 7%nat)
      as [[err Hr]|(items & cards & Hi & Hc & Hl)].
    + discriminate Hr.
    + simpl in Hi. injection Hi as <-. simpl in Hc. injection Hc as <-.
      discriminate Hl.
Qed.

(** * Further properties *)

(** ** Removing from the ledger *)

Lemma dropWord_absent w l : w ∉ ledgerWords l → dropWord w l = l.
Proof.
  unfold dropWord, ledgerWords. induction l as [|m l IH]; intros Hw; [done|].
  rewrite fmap_cons, not_elem_of_cons in Hw. destruct Hw as [Hm Hl].
  rewrite filter_cons_True by (simpl; congruence). by rewrite IH.
Qed.

Lemma dropWord_length w l :
  NoDup (ledgerWords l) → w ∈ ledgerWords l →
  S (length (dropWord w l)) = length l.
Proof.
  unfold ledgerWords. induction l as [|m l IH]; intros Hnd Hw.
  - by apply not_elem_of_nil in Hw.
  - rewrite fmap_cons in Hnd, Hw. apply NoDup_cons in Hnd as [Hm Hnd].
    unfold dropWord in *. destruct (decide (word m = w)) as [E|E].
    + rewrite filter_cons_False by (simpl; intros ?; done).
      rewrite E in Hm. fold (dropWord w l). fold (ledgerWords l) in Hm.
      rewrite (dropWord_absent w l Hm). done.
    + rewrite filter_cons_True by done. simpl. f_equal. apply IH; [done|].
      apply elem_of_cons in Hw as [Hw|Hw]; [congruence|done].
Qed.

(** X1: [removeMistake] takes out exactly the records of the given word.  The
    records that stay are those of the other words, in their old order; the
    word is gone afterwards; nothing but the ledger changes; a word that is
    not in the ledger leaves the state as it is; and in a ledger with
    distinct words a present word costs exactly one record. *)
Theorem removeMistake_removes w s :
  (∀ m : MistakeRecord,
     m ∈ mistakes (removeMistake w s) ↔ m ∈ mistakes s ∧ word m ≠ w)
  ∧ mistakes (removeMistake w s) `sublist_of` mistakes s
  ∧ (w ∉ ledgerWords (mistakes (removeMistake w s)))
  ∧ removeMistake w s = setMistakes (mistakes (removeMistake w s)) s
  ∧ (w ∉ ledgerWords (mistakes s) → removeMistake w s = s)
  ∧ (NoDup (ledgerWords (mistakes s)) → w ∈ ledgerWords (mistakes s) →
     S (length (mistakes (removeMistake w s))) = length (mistakes s)).
Proof.
  unfold removeMistake. simpl. split_and!.
  - intros m. unfold dropWord. rewrite list_elem_of_filter. tauto.
  - apply sublist_filter.
  - unfold ledgerWords. rewrite list_elem_of_fmap. intros (m & Hw & Hm).
    unfold dropWord in Hm. apply list_elem_of_filter in Hm as [Hne _]. done.
  - done.
  - intros Hw. rewrite dropWord_absent by done. by destruct s.
  - apply dropWord_length.
Qed.

(** A ledger of three words loses the middle one. *)
Lemma removeMistake_removes_witness :
  let s := mount (Some [sampleRecord "a" 0; sampleRecord "b" 3; sampleRecord "c" 1]) in
  mistakes (removeMistake "b" s) = [sampleRecord "a" 0; sampleRecord "c" 1]
  ∧ S (length (mistakes (removeMistake "b" s))) = 3
  ∧ removeMistake "z" s = s.
Proof.
  intros s.
  destruct (removeMistake_removes "b" s) as (_ & _ & _ & _ & _ & Hlen).
  destruct (removeMistake_removes "z" s) as (_ & _ & _ & _ & Hid & _).
  split; [vm_compute; reflexivity|]. split.
  - apply Hlen.
    + compute_done.
    + compute_done.
  - apply Hid. compute_done.
Defined.

(** X2: adding and removing undo each other only one way round.  Removing a
    word that was just added to a ledger without it gives back the old
    state; adding a word right after removing it always yields a fresh
    record at the front (streak 0, the new timestamp), whatever streak and
    place the old record had. *)
Theorem add_remove_round_trip c now s :
  (word c ∉ ledgerWords (mistakes s) →
     removeMistake (word c) (addToMistakes c now s) = s)
  ∧ mistakes (addToMistakes c now (removeMistake (word c) s))
    = mkMistakeRecord c now 0 :: dropWord (word c) (mistakes s).
Proof.
  split.
  - intros Hw. unfold removeMistake, addToMistakes, addRecord. simpl.
    apply hasWord_false in Hw as Hh. rewrite Hh. unfold dropWord.
    rewrite filter_cons_False by (simpl; intros ?; done).
    fold (dropWord (word c) (mistakes s)). rewrite dropWord_absent by done.
    by destruct s.
  - unfold removeMistake, addToMistakes, addRecord. simpl.
    assert (Hh : hasWord (word c) (dropWord (word c) (mistakes s)) = false).
    { apply hasWord_false. unfold ledgerWords. rewrite list_elem_of_fmap.
      intros (m & Hw & Hm). unfold dropWord in Hm.
      apply list_elem_of_filter in Hm as [Hne _]. done. }
    by rewrite Hh.
Qed.

(** A mastered record that is removed and added again starts over. *)
Lemma add_remove_round_trip_witness :
  let s := mount (Some [sampleRecord "a" 0; sampleRecord "b" 3]) in
  removeMistake "c" (addToMistakes (sampleCard "c") 5 s) = s
  ∧ mistakes (addToMistakes (sampleCard "b") 5 (removeMistake "b" s))
    = [mkMistakeRecord (sampleCard "b") 5 0; sampleRecord "a" 0].
Proof.
  intros s.
  destruct (add_remove_round_trip (sampleCard "c") 5 s) as [H1 _].
  destruct (add_remove_round_trip (sampleCard "b") 5 s) as [_ H2].
  split; [apply H1; compute_done|].
  etrans; [exact H2|]. vm_compute. reflexivity.
Defined.

(** ** What can and cannot leave the ledger *)

Lemma addRecord_grows c now l :
  ledgerWords l `sublist_of` ledgerWords (addRecord c now l)
  ∧ length l ≤ length (addRecord c now l) ≤ length l + 1.
Proof.
  unfold addRecord. destruct (hasWord (word c) l); simpl.
  - split; [done|lia].
  - split; [by apply sublist_cons|lia].
Qed.

Lemma step_keeps_words e s s' :
  step e s = Some s' → (∀ idx, e ≠ ClickRemove idx) →
  ledgerWords (mistakes s) `sublist_of` ledgerWords (mistakes s')
  ∧ length (mistakes s) ≤ length (mistakes s') ≤ length (mistakes s) + 1.
Proof.
  intros Hstep Hrm.
  assert (Hsame : mistakes s' = mistakes s →
    ledgerWords (mistakes s) `sublist_of` ledgerWords (mistakes s')
    ∧ length (mistakes s) ≤ length (mistakes s') ≤ length (mistakes s) + 1).
  { intros ->. split; [done|lia]. }
  destruct e as [| | | | |idx now|u1 u2|now|idx|p r|].
  6:{ apply step_ClickOption in Hstep
        as (active & opt & _ & _ & _ & _ & _ & ->).
      destruct (mistakes_handleAnswer opt now s)
        as [E|[(r & _ & [E|E])|(c & _ & E)]]; rewrite E.
      - split; [done|lia].
      - rewrite ledgerWords_bumpStreak. unfold bumpStreak.
        rewrite length_fmap. split; [done|lia].
      - rewrite ledgerWords_resetStreak. unfold resetStreak.
        rewrite length_fmap. split; [done|lia].
      - apply addRecord_grows. }
  8:{ by destruct (Hrm idx). }
  all: unfold step in Hstep; repeat case_decide; repeat case_match;
    simplify_eq; try (by apply Hsame).
  - apply Hsame, mistakes_startSession.
  - apply Hsame, mistakes_nextWord.
  - apply addRecord_grows.
  - apply Hsame, mistakes_settle.
Qed.

(** X3: nothing but the remove button of the notebook takes a word out of the
    ledger.  Over any run without a click on it, the words of the ledger at
    the start are still there at the end, in the same order, and the ledger
    has grown by at most one record per event.  So a record that reaches a
    streak of 3 stays where it is. *)
Theorem ledger_shrinks_only_by_remove es s s' :
  run es s = Some s' →
  (∀ idx, ClickRemove idx ∉ es) →
  ledgerWords (mistakes s) `sublist_of` ledgerWords (mistakes s')
  ∧ (∀ w, w ∈ ledgerWords (mistakes s) → w ∈ ledgerWords (mistakes s'))
  ∧ length (mistakes s) ≤ length (mistakes s') ≤ length (mistakes s) + length es.
Proof.
  intros Hrun Hrm.
  assert (H : ledgerWords (mistakes s) `sublist_of` ledgerWords (mistakes s')
              ∧ length (mistakes s) ≤ length (mistakes s')
                ≤ length (mistakes s) + length es).
  { revert s Hrun. induction es as [|e es IH]; simpl; intros s Hrun.
    - simplify_eq. split; [done|lia].
    - destruct (step e s) as [s1|] eqn:E; [|done].
      destruct (step_keeps_words e s s1 E) as [Hsub Hlen].
      { intros idx ->. apply (Hrm idx). apply list_elem_of_here. }
      destruct (IH (λ idx Hin, Hrm idx (list_elem_of_further _ _ _ Hin)) s1 Hrun)
        as [Hsub' Hlen'].
      split; [by etrans|lia]. }
  destruct H as [Hsub Hlen]. split_and!; try done; try lia.
  intros w Hw. eapply elem_of_sublist; eauto.
Qed.

(** In [reviewSession] the record is mastered and stays in the ledger. *)
Lemma ledger_shrinks_only_by_remove_witness :
  ∃ s', run reviewSession (mount (Some [sampleRecord "old" 2])) = Some s'
        ∧ mistakes s' = [sampleRecord "old" 3]
        ∧ "old" ∈ ledgerWords (mistakes s').
Proof.
  eexists. split; [vm_compute; reflexivity|]. split; [reflexivity|].
  eapply (ledger_shrinks_only_by_remove reviewSession
            (mount (Some [sampleRecord "old" 2]))).
  - vm_compute. reflexivity.
  - intros idx Hin. apply list_elem_of_In in Hin. vm_compute in Hin.
    repeat (destruct Hin as [Hin|Hin]; [discriminate Hin|]). exact Hin.
  - compute_done.
Defined.

(** X4: a regular card that is failed is in the notebook afterwards.  The
    second wrong answer on a card of the batch shows the result, leaves the
    card on screen, and puts its word into the ledger unless it is there
    already (then the old record stays); so the button for adding it by
    hand is not offered on that result. *)
Theorem failed_card_is_in_ledger idx now s s' active opt :
  step (ClickOption idx now) s = Some s' →
  reviewWord s = None →
  activeCard s = Some active →
  options active !! idx = Some opt →
  opt ≠ meaning active →
  wrongCandidates s ≠ [] →
  status s' = REVIEW
  ∧ activeCard s' = Some active
  ∧ mistakes s' = addRecord active now (mistakes s)
  ∧ word active ∈ ledgerWords (mistakes s')
  ∧ (word active ∈ ledgerWords (mistakes s) → mistakes s' = mistakes s)
  ∧ ∀ t, step (ClickManualAdd t) s' = None.
Proof.
  intros Hstep Hr Ha Ho Hm Hw.
  apply step_ClickOption in Hstep
    as (active' & opt' & Hq & Ha' & Ho' & _ & Hs & ->).
  assert (active' = active) by congruence. subst active'.
  assert (opt' = opt) by congruence. subst opt'.
  assert (E : handleAnswer opt now s
              = addToMistakes active now
                  (setStatus REVIEW (setSelectedOption (Some opt) s))).
  { unfold handleAnswer. rewrite Ha, decide_False by done.
    rewrite decide_False by (by destruct (wrongCandidates s)).
    by rewrite Hr. }
  assert (Hin : word active ∈ ledgerWords (addRecord active now (mistakes s))).
  { unfold addRecord. destruct (hasWord (word active) (mistakes s)) eqn:Eh.
    - by apply hasWord_true.
    - simpl. apply list_elem_of_here. }
  rewrite E. split_and!; try done.
  - intros Hold. simpl. unfold addRecord.
    apply hasWord_true in Hold. by rewrite Hold.
  - intros t. unfold step. simpl.
    replace (activeCard _) with (Some active)
      by (unfold activeCard in *; simpl; rewrite Hr in Ha |- *; done).
    rewrite Hr. apply hasWord_true in Hin. by rewrite Hin.
Qed.

(** The first card of a batch is failed with two different wrong options. *)
Lemma failed_card_is_in_ledger_witness :
  let s := setWrongCandidates ["wrong a"]
             (setStatus QUIZ (setWords (sampleBatch "w") (mount None))) in
  let s' := handleAnswer "wrong b" 9 s in
  step (ClickOption 2 9) s = Some s'
  ∧ mistakes s' = [mkMistakeRecord (sampleCard "w1") 9 0]
  ∧ step (ClickManualAdd 10) s' = None.
Proof.
  intros s s'.
  destruct (failed_card_is_in_ledger 2 9 s s' (sampleCard "w1") "wrong b")
    as (_ & _ & H3 & _ & _ & H6); try reflexivity.
  - vm_compute. discriminate.
  - discriminate.
  - split; [reflexivity|]. split; [exact H3|apply H6].
Defined.

Lemma bumpStreak_absent w l : w ∉ ledgerWords l → bumpStreak w l = l.
Proof.
  unfold bumpStreak, ledgerWords. induction l as [|m l IH]; intros Hw; [done|].
  rewrite fmap_cons, not_elem_of_cons in Hw. destruct Hw as [Hm Hl].
  rewrite fmap_cons, decide_False by congruence. by rewrite IH.
Qed.

Lemma resetStreak_absent w l : w ∉ ledgerWords l → resetStreak w l = l.
Proof.
  unfold resetStreak, ledgerWords. induction l as [|m l IH]; intros Hw; [done|].
  rewrite fmap_cons, not_elem_of_cons in Hw. destruct Hw as [Hm Hl].
  rewrite fmap_cons, decide_False by congruence. by rewrite IH.
Qed.

(** X5: a review answer for a word that is no longer in the ledger changes no
    record.  Whatever the answer to the review card, when no record carries
    its word the ledger after [handleAnswer] is the ledger before: nothing is
    created, and no other record is touched. *)
Theorem review_answer_without_record opt now s r :
  reviewWord s = Some r →
  word r ∉ ledgerWords (mistakes s) →
  mistakes (handleAnswer opt now s) = mistakes s.
Proof.
  intros Hr Hw.
  destruct (mistakes_handleAnswer opt now s)
    as [E|[(r' & Hr' & [E|E])|(c & Hnone & _)]]; [done| | |congruence].
  - assert (r' = r) by congruence. subst r'.
    rewrite E. by apply bumpStreak_absent.
  - assert (r' = r) by congruence. subst r'.
    rewrite E. by apply resetStreak_absent.
Qed.

(** The review record was removed from the notebook while its card was open. *)
Lemma review_answer_without_record_witness :
  let s := setReviewWord (Some (sampleRecord "gone" 1))
             (setStatus QUIZ (mount (Some [sampleRecord "a" 2]))) in
  mistakes (handleAnswer "meaning of gone" 5 s) = [sampleRecord "a" 2].
Proof.
  intros s.
  rewrite (review_answer_without_record "meaning of gone" 5 s
             (sampleRecord "gone" 1) eq_refl); [reflexivity|].
  compute_done.
Defined.

(** ** Invariants of a session *)

(** Unfolds an event into the setters it applies. *)
Ltac unfold_step H :=
  unfold step, startSession, nextWord, handleAnswer, resume, addToMistakes,
    removeMistake, rewardTimeout, resetCardState, callFetchWordBatch,
    register, setTimeout in H;
  repeat (case_decide || case_match || simplify_eq); simpl in *.

Lemma foldl_resume_preserves (P : State → Prop) r
    (ks : list (nat * Continuation)) s :
  (∀ k st, P st → P (resume k r st)) →
  P s → P (foldl (λ st a, resume a.2 r st) s ks).
Proof.
  intros Hres. revert s. induction ks as [|a ks IH]; intros s Hs; simpl; [done|].
  apply IH, Hres, Hs.
Qed.

Lemma settle_preserves (P : State → Prop) p r s :
  (∀ k st, P st → P (resume k r st)) →
  (∀ st v, P st → P (setPromises v st)) →
  (∀ st v, P st → P (setAwaiters v st)) →
  (∀ st e, P st → P (emit e st)) →
  P s → P (settle p r s).
Proof.
  intros Hres Hp Ha He Hs. unfold settle.
  apply foldl_resume_preserves; [done|]. apply Ha.
  destruct r; [|apply He]; by apply Hp.
Qed.

Lemma step_wrongCandidates e s s' :
  step e s = Some s' →
  length (wrongCandidates s) ≤ 1 → length (wrongCandidates s') ≤ 1.
Proof.
  intros Hstep Hs.
  destruct e as [| | | | |idx now|u1 u2|now|idx|p r|];
    try (unfold_step Hstep; simpl; rewrite ?length_app; simpl; lia).
  unfold step in Hstep. repeat case_match; simplify_eq.
  apply (settle_preserves (λ st, length (wrongCandidates st) ≤ 1)); try done.
  intros k st Hst. destruct k as [[]|], r; simpl; lia.
Qed.

(** X6: at most one wrong attempt is ever recorded for a card.  In every state
    of a session [wrongCandidates] is empty or holds a single option, so on the
    quiz screen with a card the hint about one more chance is shown exactly
    while a wrong attempt is recorded (the second half of its condition is
    always true); on no other screen is it shown. *)
Theorem one_wrong_candidate saved s :
  reachable saved s →
  length (wrongCandidates s) ≤ 1
  ∧ (wrongCandidates s ≠ [] → ∃ opt, wrongCandidates s = [opt])
  ∧ (secondChanceHint s = true ↔
     status s = QUIZ ∧ is_Some (activeCard s) ∧ wrongCandidates s ≠ []).
Proof.
  intros (es & Hrun).
  assert (H : length (wrongCandidates s) ≤ 1).
  { assert (H0 : length (wrongCandidates (mount saved)) ≤ 1) by (simpl; lia).
    revert H0 Hrun. generalize (mount saved).
    induction es as [|e es IH]; simpl; intros s0 H0 Hrun.
    - by simplify_eq.
    - destruct (step e s0) as [s1|] eqn:E; [|done].
      eapply IH; [|exact Hrun]. eapply step_wrongCandidates; eauto. }
  split; [done|]. unfold secondChanceHint. rewrite bool_decide_eq_true.
  destruct (wrongCandidates s) as [|o [|o' l]]; simpl in *.
  - split; [done|]. split; [intros (_ & _ & ? & _); lia|by intros (_ & _ & ?)].
  - split; [eauto|]. split.
    + intros (? & ? & _). done.
    + intros (? & ? & _). split_and!; auto; lia.
  - lia.
Qed.

(** The state after a first wrong answer, and the result after the second:
    the wrong attempt is still recorded there, the hint is gone. *)
Lemma one_wrong_candidate_witness :
  ∃ s s', run [ClickStart; FetchSettled 0 (Fulfilled (sampleBatch "w"));
               ClickOption 0 1] (mount None) = Some s
    ∧ wrongCandidates s = ["wrong a"]
    ∧ secondChanceHint s = true
    ∧ step (ClickOption 2 2) s = Some s'
    ∧ status s' = REVIEW ∧ wrongCandidates s' = ["wrong a"]
    ∧ secondChanceHint s' = false.
Proof.
  eexists. eexists. split; [vm_compute; reflexivity|]. split; [reflexivity|].
  split.
  - eapply (one_wrong_candidate None).
    + exists [ClickStart; FetchSettled 0 (Fulfilled (sampleBatch "w"));
              ClickOption 0 1]. vm_compute. reflexivity.
    + split_and!; [reflexivity|eexists; reflexivity|discriminate].
  - split; [vm_compute; reflexivity|]. split_and!; reflexivity.
Defined.

Lemma step_threshold e s s' :
  step e s = Some s' →
  10 ≤ nextReviewThreshold s ≤ 20 → 10 ≤ nextReviewThreshold s' ≤ 20.
Proof.
  intros Hstep Hs.
  destruct e as [| | | | |idx now|u1 u2|now|idx|p r|].
  7:{ unfold step in Hstep. repeat (case_decide || case_match); simplify_eq.
      match goal with H : _ && _ = true |- _ =>
        apply andb_true_iff in H as [_ Hu] end.
      unfold nextWord, callFetchWordBatch, register.
      repeat (case_decide || case_match); simpl; try done.
      by apply drawThreshold_range. }
  9:{ unfold step in Hstep. repeat case_match; simplify_eq.
      apply (settle_preserves (λ st, 10 ≤ nextReviewThreshold st ≤ 20));
        try done.
      intros k st Hst. destruct k as [[]|], r; simpl; lia. }
  all: unfold_step Hstep; simpl; lia.
Qed.

(** X7: the review threshold is always between 10 and 20.  It starts at 10,
    and in every state of a session, however it was reached,
    [nextReviewThreshold] is within 10..20: a review is never due before the
    tenth regular word after the last one. *)
Theorem threshold_in_range saved s :
  reachable saved s → 10 ≤ nextReviewThreshold s ≤ 20.
Proof.
  intros (es & Hrun).
  assert (H0 : 10 ≤ nextReviewThreshold (mount saved) ≤ 20) by (simpl; lia).
  revert H0 Hrun. generalize (mount saved).
  induction es as [|e es IH]; simpl; intros s0 H0 Hrun.
  - by simplify_eq.
  - destruct (step e s0) as [s1|] eqn:E; [|done].
    eapply IH; [|exact Hrun]. eapply step_threshold; eauto.
Qed.

(** A session that went through a review and one more card. *)
Lemma threshold_in_range_witness :
  ∃ s, run (reviewSession ++ answerAndAdvance (1#2) (11#16))
           (mount (Some [sampleRecord "old" 0; sampleRecord "new" 0])) = Some s
       ∧ 10 ≤ nextReviewThreshold s ≤ 20.
Proof.
  eexists. split; [vm_compute; reflexivity|].
  apply (threshold_in_range (Some [sampleRecord "old" 0; sampleRecord "new" 0])).
  exists (reviewSession ++ answerAndAdvance (1#2) (11#16)).
  vm_compute. reflexivity.
Defined.

Lemma step_reward_timer e s s' :
  step e s = Some s' →
  (showReward s = true → timers s ≠ []) →
  (showReward s' = true → timers s' ≠ []).
Proof.
  intros Hstep Hs.
  destruct e as [| | | | |idx now|u1 u2|now|idx|p r|].
  6:{ apply step_ClickOption in Hstep as (active & opt & _ & Ha & _ & _ & Hsr & ->).
      unfold handleAnswer, setTimeout. rewrite Ha.
      repeat (case_decide || case_match); simpl; try congruence;
        intros _; by destruct (timers s). }
  9:{ unfold step in Hstep. repeat case_match; simplify_eq.
      apply (settle_preserves (λ st, showReward st = true → timers st ≠ []));
        try done.
      intros k st Hst. destruct k as [[]|], r; simpl; done. }
  all: unfold_step Hstep; simpl; try done.
Qed.

(** X8: the reward overlay cannot stay for ever.  In every state of a session
    in which [showReward] is set (the stars are shown and all options are
    disabled), a reward timer is pending, and when the oldest pending timer
    fires the overlay is taken down and the result screen is shown. *)
Theorem reward_always_ends saved s :
  reachable saved s →
  showReward s = true →
  ∃ s', step TimerFired s = Some s'
        ∧ showReward s' = false ∧ status s' = REVIEW.
Proof.
  intros (es & Hrun) Hsr.
  assert (H : showReward s = true → timers s ≠ []).
  { assert (H0 : showReward (mount saved) = true → timers (mount saved) ≠ [])
      by (simpl; done).
    revert H0 Hrun. generalize (mount saved).
    induction es as [|e es IH]; simpl; intros s0 H0 Hrun.
    - by simplify_eq.
    - destruct (step e s0) as [s1|] eqn:E; [|done].
      eapply IH; [|exact Hrun]. eapply step_reward_timer; eauto. }
  specialize (H Hsr). unfold step.
  destruct (timers s) as [|opt rest]; [done|].
  eexists. split; [reflexivity|]. done.
Qed.

(** The state right after a correct answer. *)
Lemma reward_always_ends_witness :
  ∃ s s', run [ClickStart; FetchSettled 0 (Fulfilled (sampleBatch "w"));
               ClickOption 1 1] (mount None) = Some s
          ∧ showReward s = true
          ∧ step TimerFired s = Some s' ∧ status s' = REVIEW.
Proof.
  eexists.
  edestruct (reward_always_ends None) as (s' & H1 & _ & H3).
  - exists [ClickStart; FetchSettled 0 (Fulfilled (sampleBatch "w"));
            ClickOption 1 1]. vm_compute. reflexivity.
  - reflexivity.
  - exists s'. split; [vm_compute; reflexivity|]. split; [reflexivity|].
    split; [exact H1|exact H3].
Defined.

Lemma step_index e s s' :
  step e s = Some s' →
  (currentIndex s < length (words s) ∨ currentIndex s = 0) →
  (currentIndex s' < length (words s') ∨ currentIndex s' = 0).
Proof.
  intros Hstep Hs.
  destruct e as [| | | | |idx now|u1 u2|now|idx|p r|].
  10:{ unfold step in Hstep. repeat case_match; simplify_eq.
       apply (settle_preserves
                (λ st, currentIndex st < length (words st) ∨ currentIndex st = 0));
         try done.
       intros k st Hst. destruct k as [[]|], r; simpl; auto. }
  all: unfold_step Hstep; simpl; try done; try (right; done); try (left; lia).
Qed.

Lemma progressWidth_range s :
  currentIndex s < length (words s) →
  (0 <= progressWidth s)%Q ∧ (progressWidth s < 100)%Q.
Proof.
  intros Hlt. unfold progressWidth.
  set (i := Z.of_nat (currentIndex s)). set (n := Z.of_nat (length (words s))).
  assert (Hi : (0 ≤ i)%Z) by lia. assert (Hn : (i < n)%Z) by lia.
  assert (Hn0 : (0 < inject_Z n)%Q).
  { unfold Qlt. simpl. lia. }
  assert (Hq0 : (0 <= inject_Z i / inject_Z n)%Q).
  { apply Qle_shift_div_l; [done|]. rewrite Qmult_0_l.
    unfold Qle. simpl. lia. }
  assert (Hq1 : (inject_Z i / inject_Z n < 1)%Q).
  { apply Qlt_shift_div_r; [done|]. rewrite Qmult_1_l.
    rewrite <- Zlt_Qlt. done. }
  split.
  - apply Qmult_le_0_compat; [done|]. unfold Qle. simpl. lia.
  - apply Qlt_le_trans with (1 * 100)%Q; [|unfold Qle; simpl; lia].
    apply Qmult_lt_r; [reflexivity|done].
Qed.

(** X9: the batch index never runs past the batch.  In every state of a
    session with a non-empty batch, [currentIndex] is a position of the
    batch; so outside a review a card is on screen exactly when the batch is
    not empty, and the progress bar, which divides the index by the batch
    length, then shows a width from 0 up to but never 100 percent. *)
Theorem index_within_batch saved s :
  reachable saved s →
  (words s ≠ [] → currentIndex s < length (words s))
  ∧ (reviewWord s = None → (is_Some (activeCard s) ↔ words s ≠ []))
  ∧ (reviewWord s = None → is_Some (activeCard s) →
     (0 <= progressWidth s)%Q ∧ (progressWidth s < 100)%Q).
Proof.
  intros (es & Hrun).
  assert (H : currentIndex s < length (words s) ∨ currentIndex s = 0).
  { assert (H0 : currentIndex (mount saved) < length (words (mount saved))
                 ∨ currentIndex (mount saved) = 0) by (right; done).
    revert H0 Hrun. generalize (mount saved).
    induction es as [|e es IH]; simpl; intros s0 H0 Hrun.
    - by simplify_eq.
    - destruct (step e s0) as [s1|] eqn:E; [|done].
      eapply IH; [|exact Hrun]. eapply step_index; eauto. }
  assert (Hidx : words s ≠ [] → currentIndex s < length (words s)).
  { intros Hne. destruct H as [H|H]; [done|]. rewrite H.
    destruct (words s); simpl; [done|lia]. }
  split; [done|]. split.
  - intros Hr. unfold activeCard. rewrite Hr. split.
    + intros [c Hc] Hnil. rewrite Hnil in Hc. by rewrite lookup_nil in Hc.
    + intros Hne. apply lookup_lt_is_Some_2. auto.
  - intros Hr Ha. apply progressWidth_range.
    unfold activeCard in Ha. rewrite Hr in Ha. by apply lookup_lt_is_Some_1.
Qed.

(** The third card of a batch of five: the bar is at 40 percent. *)
Lemma index_within_batch_witness :
  ∃ s, run ([ClickStart; FetchSettled 0 (Fulfilled (sampleBatch "w"))]
            ++ answerAndAdvance 0 0 ++ answerAndAdvance 0 0) (mount None) = Some s
       ∧ currentIndex s = 2
       ∧ (progressWidth s == 40)%Q
       ∧ (progressWidth s < 100)%Q.
Proof.
  eexists. split; [vm_compute; reflexivity|]. split; [reflexivity|].
  split; [reflexivity|].
  eapply (index_within_batch None); [|reflexivity|eexists; reflexivity].
  exists ([ClickStart; FetchSettled 0 (Fulfilled (sampleBatch "w"))]
          ++ answerAndAdvance 0 0 ++ answerAndAdvance 0 0).
  vm_compute. reflexivity.
Defined.

(** ** The background fetch *)

Lemma step_prefetch_none e s s' :
  step e s = Some s' → initFetchPromise s = None → initFetchPromise s' = None.
Proof.
  intros Hstep Hs.
  destruct e as [| | | | |idx now|u1 u2|now|idx|p r|].
  10:{ unfold step in Hstep. repeat case_match; simplify_eq.
       apply (settle_preserves (λ st, initFetchPromise st = None)); try done.
       intros k st Hst. destruct k as [[]|], r; simpl; done. }
  all: unfold_step Hstep; simpl; congruence.
Qed.

Lemma run_prefetch_none es s s' :
  run es s = Some s' → initFetchPromise s = None → initFetchPromise s' = None.
Proof.
  revert s. induction es as [|e es IH]; simpl; intros s Hrun Hs.
  - by simplify_eq.
  - destruct (step e s) as [s1|] eqn:E; [|done].
    eapply IH; [exact Hrun|]. eapply step_prefetch_none; eauto.
Qed.

Lemma Forall_filter_keeps {A} (P Q : A → Prop) `{∀ x, Decision (Q x)} (l : list A) :
  Forall P l → Forall P (filter Q l).
Proof.
  rewrite !Forall_forall. intros Hl x Hx.
  apply list_elem_of_filter in Hx as [_ Hx]. auto.
Qed.

Lemma foldl_resume_consumes r (ks : list (nat * Continuation)) s :
  ks ≠ [] → Forall (λ a, a.2 = StartCont true) ks →
  initFetchPromise (foldl (λ st a, resume a.2 r st) s ks) = None.
Proof.
  destruct ks as [|[p k] ks]; [done|]. intros _ Hall.
  apply Forall_cons in Hall as [Hk _]. simpl in *. subst k.
  apply foldl_resume_preserves.
  - intros k st Hst. destruct k as [[]|], r; simpl; done.
  - destruct r; reflexivity.
Qed.

(** Not consumed yet: no batch has been shown and only [startSession] waits. *)
Lemma step_prefetch e s s' :
  step e s = Some s' →
  initFetchPromise s = Some 0 ∧ words s = [] ∧ reviewWord s = None
  ∧ Forall (λ a, a.2 = StartCont true) (awaiters s) →
  initFetchPromise s' = None
  ∨ (initFetchPromise s' = Some 0 ∧ words s' = [] ∧ reviewWord s' = None
     ∧ Forall (λ a, a.2 = StartCont true) (awaiters s')).
Proof.
  intros Hstep (Hp & Hw & Hr & Ha).
  assert (Hac : activeCard s = None).
  { unfold activeCard. rewrite Hr, Hw. apply lookup_nil. }
  destruct e as [| | | | |idx now|u1 u2|now|idx|p r|].
  3:{ unfold step in Hstep. case_decide; simplify_eq.
      unfold startSession. rewrite Hp.
      destruct (promises s !! 0) as [[r|]|].
      - left. destruct r; reflexivity.
      - right. simpl. split_and!; try done.
        apply Forall_app. split; [done|]. by repeat constructor.
      - right. simpl. split_and!; try done.
        apply Forall_app. split; [done|]. by repeat constructor. }
  9:{ unfold step in Hstep. repeat case_match; simplify_eq.
      unfold settle.
      destruct (filter (λ a : nat * Continuation, a.1 = p) (awaiters s))
        as [|a ks] eqn:Ef.
      - right. simpl. destruct r; simpl; split_and!; try done;
          by apply Forall_filter_keeps.
      - left. apply foldl_resume_consumes; [done|].
        rewrite <- Ef. by apply Forall_filter_keeps. }
  all: unfold step in Hstep; rewrite ?Hac in Hstep;
    repeat (case_decide || case_match); simplify_eq; right; done.
Qed.

(** X10: the batch fetched at mount is used for one session start and never
    again.  Until a start has completed no card is on screen, and pressing
    start again waits for the same promise without a new request.  From the
    moment it has been consumed it never comes back, and every start makes
    a request of its own. *)
Theorem prefetch_used_once saved s :
  reachable saved s →
  (initFetchPromise s = Some 0 ∨ initFetchPromise s = None)
  ∧ (initFetchPromise s = Some 0 →
     words s = [] ∧ activeCard s = None
     ∧ promises (startSession s) = promises s)
  ∧ (initFetchPromise s = None →
     promises (startSession s) = promises s ++ [None]
     ∧ ∀ es s', run es s = Some s' → initFetchPromise s' = None).
Proof.
  intros (es & Hrun).
  assert (H : initFetchPromise s = None
              ∨ (initFetchPromise s = Some 0 ∧ words s = []
                 ∧ reviewWord s = None
                 ∧ Forall (λ a, a.2 = StartCont true) (awaiters s))).
  { assert (H0 : initFetchPromise (mount saved) = None
                 ∨ (initFetchPromise (mount saved) = Some 0
                    ∧ words (mount saved) = [] ∧ reviewWord (mount saved) = None
                    ∧ Forall (λ a, a.2 = StartCont true) (awaiters (mount saved))))
      by (right; simpl; split_and!; done).
    revert H0 Hrun. generalize (mount saved).
    induction es as [|e es IH]; simpl; intros s0 H0 Hrun.
    - by simplify_eq.
    - destruct (step e s0) as [s1|] eqn:E; [|done].
      eapply IH; [|exact Hrun]. destruct H0 as [H0|H0].
      + left. eapply step_prefetch_none; eauto.
      + eapply step_prefetch; eauto. }
  split_and!.
  - destruct H as [H|(H & _)]; auto.
  - intros Hp. destruct H as [H|(_ & Hw & Hr & _)]; [congruence|].
    split; [done|]. split.
    + unfold activeCard. rewrite Hr, Hw. apply lookup_nil.
    + unfold startSession. rewrite Hp.
      destruct (promises s !! 0) as [[[]|]|]; reflexivity.
  - intros Hp. split.
    + unfold startSession. by rewrite Hp.
    + intros es' s' Hrun'. eapply run_prefetch_none; eauto.
Qed.

(** Start pressed twice before the background batch arrives, and once more
    after it has been used. *)
Lemma prefetch_used_once_witness :
  ∃ s s', run [ClickStart; ClickTopMistakes; ClickClose] (mount None) = Some s
    ∧ promises (startSession s) = [None]
    ∧ run [ClickStart; FetchSettled 0 (Fulfilled (sampleBatch "w")); ClickLogo] s
      = Some s'
    ∧ promises (startSession s') = [Some (Fulfilled (sampleBatch "w")); None].
Proof.
  eexists. eexists.
  split; [vm_compute; reflexivity|].
  split.
  - edestruct (prefetch_used_once None) as (_ & H & _).
    + exists [ClickStart; ClickTopMistakes; ClickClose]. vm_compute. reflexivity.
    + destruct H as (_ & _ & H); [reflexivity|]. etrans; [exact H|reflexivity].
  - split; [vm_compute; reflexivity|].
    edestruct (prefetch_used_once None) as (_ & _ & H).
    + exists [ClickStart; ClickTopMistakes; ClickClose; ClickStart;
              FetchSettled 0 (Fulfilled (sampleBatch "w")); ClickLogo].
      vm_compute. reflexivity.
    + destruct H as (H & _); [reflexivity|]. etrans; [exact H|reflexivity].
Defined.

Lemma filter_awaiters_other p (l : list (nat * Continuation)) :
  (∀ a, a ∈ l → a.1 ≠ p) →
  filter (λ a : nat * Continuation, a.1 = p) l = []
  ∧ filter (λ a : nat * Continuation, a.1 ≠ p) l = l.
Proof.
  induction l as [|a l IH]; intros Hl; [done|].
  assert (Ha : a.1 ≠ p) by (apply Hl, list_elem_of_here).
  destruct IH as [IH1 IH2].
  { intros b Hb. apply Hl. by apply list_elem_of_further. }
  rewrite filter_cons_False, filter_cons_True by done. by rewrite IH1, IH2.
Qed.

(** X11: it makes no difference whether the background batch arrives before
    or after start is pressed.  From an idle state that still holds a pending
    background promise nobody waits for, pressing start and then receiving
    the batch leads to exactly the same state as receiving it first and then
    pressing start.  (For a request that fails the two orders differ in what
    the runtime reports, an unhandled rejection in one of them; that case is
    not covered.) *)
Theorem start_and_prefetch_commute p ws s :
  status s = IDLE →
  initFetchPromise s = Some p →
  promises s !! p = Some None →
  (∀ a, a ∈ awaiters s → a.1 ≠ p) →
  run [ClickStart; FetchSettled p (Fulfilled ws)] s
  = run [FetchSettled p (Fulfilled ws); ClickStart] s
  ∧ run [ClickStart; FetchSettled p (Fulfilled ws)] s
    = Some (resume (StartCont true) (Fulfilled ws)
              (setPromises (<[p := Some (Fulfilled ws)]> (promises s)) s)).
Proof.
  intros Hst Hp Hpr Haw.
  destruct (filter_awaiters_other p (awaiters s) Haw) as [Hf1 Hf2].
  assert (Hlt : p < length (promises s)) by (by eapply lookup_lt_Some).
  assert (E1 : run [ClickStart; FetchSettled p (Fulfilled ws)] s
          = Some (resume (StartCont true) (Fulfilled ws)
                    (setPromises (<[p := Some (Fulfilled ws)]> (promises s)) s))).
  { simpl. unfold step at 1. rewrite decide_True by done.
    unfold startSession. rewrite Hp, Hpr. unfold step. simpl. rewrite Hpr.
    unfold settle. simpl. rewrite !filter_app, Hf1, Hf2.
    rewrite (filter_cons_True (λ a : nat * Continuation, a.1 = p)) by done.
    rewrite (filter_cons_False (λ a : nat * Continuation, a.1 ≠ p))
      by (simpl; intros Hne; by apply Hne).
    rewrite !filter_nil, app_nil_r. simpl. destruct s; reflexivity. }
  assert (E2 : run [FetchSettled p (Fulfilled ws); ClickStart] s
          = Some (resume (StartCont true) (Fulfilled ws)
                    (setPromises (<[p := Some (Fulfilled ws)]> (promises s)) s))).
  { simpl. unfold step at 1. rewrite Hpr. unfold settle. rewrite Hf1, Hf2. simpl.
    unfold step. rewrite decide_True by done.
    unfold startSession. simpl. rewrite Hp, list_lookup_insert_eq by done.
    destruct s; reflexivity. }
  rewrite E1, E2. done.
Qed.

(** At mount. *)
Lemma start_and_prefetch_commute_witness :
  run [ClickStart; FetchSettled 0 (Fulfilled (sampleBatch "w"))] (mount None)
  = run [FetchSettled 0 (Fulfilled (sampleBatch "w")); ClickStart] (mount None).
Proof.
  apply (start_and_prefetch_commute 0 (sampleBatch "w") (mount None));
    try reflexivity. intros a Ha. by apply not_elem_of_nil in Ha.
Defined.

(** ** Cards at the edges *)

(** X12: an empty batch leaves a quiz with nothing on it.  When a session
    start, or a request for the next batch outside a review, resolves with no
    card at all, the quiz screen is selected but there is no active card: no
    option, continue, add, start, close or remove button can be pressed, and
    only the top bar (logo, Mistakes), a timer or another arriving batch
    change the state. *)
Theorem empty_batch_blank_quiz k s :
  (k = NextCont → reviewWord s = None) →
  status (resume k (Fulfilled []) s) = QUIZ
  ∧ activeCard (resume k (Fulfilled []) s) = None
  ∧ ∀ e s', step e (resume k (Fulfilled []) s) = Some s' →
      e = ClickLogo ∨ e = ClickTopMistakes ∨ e = TimerFired
      ∨ ∃ p r, e = FetchSettled p r.
Proof.
  intros Hk.
  assert (Hst : status (resume k (Fulfilled []) s) = QUIZ).
  { destruct k as [[]|]; reflexivity. }
  assert (Hac : activeCard (resume k (Fulfilled []) s) = None).
  { destruct k as [[]|]; unfold activeCard; simpl; try reflexivity.
    by rewrite Hk. }
  split; [done|]. split; [done|].
  intros e s' Hstep.
  destruct e as [| | | | |idx now|u1 u2|now|idx|p r|]; eauto 6;
    exfalso; unfold step in Hstep; rewrite ?Hac, ?Hst in Hstep;
    repeat case_match; simplify_eq.
Qed.

(** A response without text at session start. *)
Lemma empty_batch_blank_quiz_witness :
  ∃ s, run [ClickStart; FetchSettled 0 (Fulfilled [])] (mount None) = Some s
       ∧ status s = QUIZ ∧ activeCard s = None
       ∧ step (ClickOption 0 0) s = None ∧ step ClickStart s = None.
Proof.
  exists (resume (StartCont true) (Fulfilled [])
            (setAwaiters [] (setPromises [Some (Fulfilled [])]
               (register 0 (StartCont true) (setStatus LOADING (mount None)))))).
  destruct (empty_batch_blank_quiz (StartCont true)
              (setAwaiters [] (setPromises [Some (Fulfilled [])]
                 (register 0 (StartCont true) (setStatus LOADING (mount None))))))
    as (H1 & H2 & H3); [discriminate|].
  split; [reflexivity|]. split; [exact H1|]. split; [exact H2|].
  split; reflexivity.
Defined.

(** X13: a card with two different options can always be brought to an end,
    and a card whose options are all the same wrong text cannot.  After any
    first answer the card is either over (reward or result), or, if some
    other option differs from the one clicked, a second click exists that
    ends it; if every option is the clicked wrong text, all buttons are
    disabled while the quiz screen stays, and no answer is possible any
    more. *)
Theorem card_end_or_stuck idx now s s1 active opt :
  step (ClickOption idx now) s = Some s1 →
  activeCard s = Some active →
  options active !! idx = Some opt →
  wrongCandidates s = [] →
  ((∃ o, o ∈ options active ∧ o ≠ opt) →
     (showReward s1 = true ∨ status s1 = REVIEW)
     ∨ ∃ j s2, step (ClickOption j now) s1 = Some s2
               ∧ (showReward s2 = true ∨ status s2 = REVIEW))
  ∧ ((∀ o, o ∈ options active → o = opt) → opt ≠ meaning active →
     status s1 = QUIZ ∧ showReward s1 = false
     ∧ ∀ j t, step (ClickOption j t) s1 = None).
Proof.
  intros Hstep Ha Ho Hwc.
  apply step_ClickOption in Hstep
    as (active' & opt' & Hq & Ha' & Ho' & Hw & Hs & ->).
  assert (active' = active) by congruence. subst active'.
  assert (opt' = opt) by congruence. subst opt'.
  split.
  - intros (o & Hin & Hne).
    destruct (decide (opt = meaning active)) as [Hm|Hm].
    { left. left. by destruct (handleAnswer_correct opt now s active Ha Hm). }
    right. rewrite (handleAnswer_first_wrong opt now s active) by done.
    apply list_elem_of_lookup in Hin as [j Hj].
    exists j, (handleAnswer o now (setWrongCandidates [opt] s)).
    split.
    + apply step_ClickOption. exists active, o. split_and!; try done.
      simpl. by intros ?%list_elem_of_singleton.
    + destruct (decide (o = meaning active)) as [Hm'|Hm'].
      * left. by destruct (handleAnswer_correct o now
                             (setWrongCandidates [opt] s) active Ha Hm').
      * right. by destruct (handleAnswer_second_wrong o now
                              (setWrongCandidates [opt] s) active Ha Hm').
  - intros Hall Hm.
    rewrite (handleAnswer_first_wrong opt now s active) by done.
    split; [done|]. split; [done|].
    intros j t.
    destruct (step (ClickOption j t) (setWrongCandidates [opt] s)) eqn:E; [|done].
    apply step_ClickOption in E as (a & o & _ & Ha2 & Ho2 & Hw2 & _).
    exfalso. assert (a = active) by (change (activeCard s = Some a) in Ha2; congruence).
    subst a.
    apply Hw2. simpl. rewrite (Hall o); [set_solver|].
    eapply list_elem_of_lookup_2; eauto.
Qed.

(** A sample card after a wrong first answer, and a card with one text four
    times. *)
Lemma card_end_or_stuck_witness :
  let s := setStatus QUIZ (setWords (sampleBatch "w") (mount None)) in
  let bad := mkWordCard "w" "-" "right" ["same"; "same"; "same"; "same"]
               "-" "-" "-" in
  let t := setStatus QUIZ (setWords [bad] (mount None)) in
  (∃ j s2, step (ClickOption j 1) (handleAnswer "wrong a" 1 s) = Some s2
           ∧ (showReward s2 = true ∨ status s2 = REVIEW))
  ∧ ∀ j, step (ClickOption j 2) (handleAnswer "same" 1 t) = None.
Proof.
  intros s bad t. split.
  - destruct (card_end_or_stuck 0 1 s (handleAnswer "wrong a" 1 s)
                (sampleCard "w1") "wrong a") as [H _]; try reflexivity.
    destruct H as [[H|H]|H]; [|discriminate H|discriminate H|exact H].
    exists "wrong b". split; [|discriminate]. compute_done.
  - destruct (card_end_or_stuck 0 1 t (handleAnswer "same" 1 t) bad "same")
      as [_ H]; try reflexivity.
    destruct H as (_ & _ & H); [|discriminate|intros j; apply H].
    intros o Ho. apply list_elem_of_In in Ho. simpl in Ho. intuition.
Defined.

(** X14: a card whose options do not contain its meaning can only be failed.
    On a regular card without a wrong attempt so far, any two answers that
    are accepted are both wrong: the first gives the second chance without a
    reward, the second shows the result with a selection that is not the
    meaning, and the word is in the ledger. *)
Theorem card_without_meaning_fails i t j t' s s1 s2 active :
  step (ClickOption i t) s = Some s1 →
  step (ClickOption j t') s1 = Some s2 →
  activeCard s = Some active →
  meaning active ∉ options active →
  wrongCandidates s = [] →
  reviewWord s = None →
  showReward s1 = false ∧ status s1 = QUIZ
  ∧ status s2 = REVIEW ∧ showReward s2 = false
  ∧ selectedOption s2 ≠ Some (meaning active)
  ∧ word active ∈ ledgerWords (mistakes s2).
Proof.
  intros H1 H2 Ha Hm Hwc Hr.
  apply step_ClickOption in H1 as (a1 & o1 & Hq & Ha1 & Ho1 & _ & Hs & ->).
  assert (a1 = active) by congruence. subst a1.
  assert (Hne1 : o1 ≠ meaning active).
  { intros ->. apply Hm. eapply list_elem_of_lookup_2; eauto. }
  rewrite (handleAnswer_first_wrong o1 t s active) in * by done.
  apply step_ClickOption in H2 as (a2 & o2 & _ & Ha2 & Ho2 & _ & _ & ->).
  assert (a2 = active) by (change (activeCard s = Some a2) in Ha2; congruence).
  subst a2.
  assert (Hne2 : o2 ≠ meaning active).
  { intros ->. apply Hm. eapply list_elem_of_lookup_2; eauto. }
  assert (E : handleAnswer o2 t' (setWrongCandidates [o1] s)
              = addToMistakes active t'
                  (setStatus REVIEW (setSelectedOption (Some o2)
                     (setWrongCandidates [o1] s)))).
  { unfold handleAnswer. rewrite Ha2, decide_False by done.
    rewrite decide_False by (simpl; lia). simpl. by rewrite Hr. }
  rewrite E. split_and!; try done.
  - simpl. congruence.
  - simpl. unfold addRecord.
    destruct (hasWord (word active) (mistakes s)) eqn:Eh.
    + by apply hasWord_true.
    + simpl. apply list_elem_of_here.
Qed.

(** A card whose provider left the meaning out of the options. *)
Lemma card_without_meaning_fails_witness :
  let bad := mkWordCard "w" "-" "right" ["a"; "b"; "c"; "d"] "-" "-" "-" in
  let s := setStatus QUIZ (setWords [bad] (mount None)) in
  ∃ s2, run [ClickOption 0 1; ClickOption 3 2] s = Some s2
        ∧ status s2 = REVIEW
        ∧ mistakes s2 = [mkMistakeRecord bad 2 0].
Proof.
  intros bad s. eexists. split; [vm_compute; reflexivity|].
  split; [|reflexivity].
  eapply (card_without_meaning_fails 0 1 3 2 s _ _ bad); try reflexivity.
  compute_done.
Defined.

(** ** The result screen *)

Lemma step_ClickNext u1 u2 s s' :
  step (ClickNext u1 u2) s = Some s' →
  status s = REVIEW ∧ is_Some (activeCard s)
  ∧ isRandom u1 = true ∧ isRandom u2 = true
  ∧ s' = nextWord u1 u2 s.
Proof.
  unfold step. intros H. repeat (case_decide || case_match); simplify_eq.
  match goal with H : _ && _ = true |- _ =>
    apply andb_true_iff in H as [Hu1 Hu2] end.
  split_and!; eauto.
Qed.

(** X15: what the button under the result announces and what it does.
    Labelled "Continue" (after a review card) it shows the quiz again at the
    same batch position with no review card and no request.  Labelled
    "Next Word" it never requests a batch: it moves to the next card of the
    batch, unless a review is due, in which case a review card is shown and
    the position stays.  Labelled "Load Next Batch" it requests a batch and
    shows the loading screen, unless a review is due: then no request is made,
    a review card is shown, and the batch is only requested by a later
    press. *)
Theorem next_button_announces u1 u2 s s' :
  step (ClickNext u1 u2) s = Some s' →
  let due := nextReviewThreshold s ≤ wordsSinceReview s + 1
             ∧ filter eligible (mistakes s) ≠ [] in
  match nextButtonLabel s with
  | Continue =>
    status s' = QUIZ ∧ reviewWord s' = None
    ∧ currentIndex s' = currentIndex s ∧ promises s' = promises s
  | NextWordArrow =>
    status s' = QUIZ ∧ promises s' = promises s
    ∧ (due → is_Some (reviewWord s') ∧ currentIndex s' = currentIndex s)
    ∧ (¬ due → reviewWord s' = None ∧ currentIndex s' = currentIndex s + 1)
  | LoadNextBatch =>
    (due → status s' = QUIZ ∧ is_Some (reviewWord s')
           ∧ currentIndex s' = currentIndex s ∧ promises s' = promises s)
    ∧ (¬ due → status s' = LOADING ∧ promises s' = promises s ++ [None]
               ∧ awaiters s' = awaiters s ++ [(length (promises s), NextCont)])
  end.
Proof.
  intros Hstep due.
  apply step_ClickNext in Hstep as (_ & _ & Hu1 & _ & ->).
  assert (Hinj : due → reviewWord s = None →
            status (nextWord u1 u2 s) = QUIZ
            ∧ is_Some (reviewWord (nextWord u1 u2 s))
            ∧ currentIndex (nextWord u1 u2 s) = currentIndex s
            ∧ promises (nextWord u1 u2 s) = promises s).
  { intros [Ht He] Hr. rewrite nextWord_inject by done. simpl.
    split_and!; try done. apply lookup_lt_is_Some_2, floorMul_lt; [done|].
    destruct (filter eligible (mistakes s)); simpl; [done|lia]. }
  assert (Hreg : ¬ due → reviewWord s = None →
            nextWord u1 u2 s
            = if decide (currentIndex s < length (words s) - 1)
              then setStatus QUIZ (setCurrentIndex (currentIndex s + 1)
                     (setWordsSinceReview (wordsSinceReview s + 1)
                        (resetCardState s)))
              else register (length (promises s)) NextCont
                     (setPromises (promises s ++ [None])
                        (setStatus LOADING
                           (setWordsSinceReview (wordsSinceReview s + 1)
                              (resetCardState s))))).
  { intros Hn Hr. unfold nextWord. rewrite Hr, reviewCandidates_eligible.
    rewrite decide_False; [done|]. intros [Ht Hl]. apply Hn. split; [done|].
    intros E. rewrite E in Hl. simpl in Hl. lia. }
  unfold nextButtonLabel.
  destruct (reviewWord s) as [r|] eqn:Hr.
  { by rewrite (nextWord_after_review u1 u2 s r). }
  case_decide as Hlast.
  - assert (Hcases : due ∨ ¬ due).
    { unfold due. destruct (decide (nextReviewThreshold s ≤ wordsSinceReview s + 1));
        destruct (decide (filter eligible (mistakes s) = [])); tauto. }
    destruct Hcases as [Hd|Hd].
    + destruct (Hinj Hd eq_refl) as (H1 & H2 & H3 & H4).
      split_and!; try done; tauto.
    + rewrite (Hreg Hd eq_refl). simpl.
      split_and!; try done; tauto.
  - split.
    + intros Hd. by apply Hinj.
    + intros Hd. by rewrite (Hreg Hd eq_refl).
Qed.

(** The result of the last card of a batch of five, with one record in the
    ledger: after one regular word the batch is requested, after nine a review
    card is shown instead. *)
Lemma next_button_announces_witness :
  let s := setStatus REVIEW (setCurrentIndex 4 (setWords (sampleBatch "w")
             (mount (Some [sampleRecord "old" 0])))) in
  ∃ s1 s2,
    nextButtonLabel s = LoadNextBatch
    ∧ step (ClickNext 0 0) s = Some s1 ∧ status s1 = LOADING
    ∧ step (ClickNext 0 0) (setWordsSinceReview 9 s) = Some s2
    ∧ status s2 = QUIZ ∧ is_Some (reviewWord s2) ∧ promises s2 = promises s.
Proof.
  intros s.
  exists (nextWord 0 0 s), (nextWord 0 0 (setWordsSinceReview 9 s)).
  assert (E1 : step (ClickNext 0 0) s = Some (nextWord 0 0 s)) by reflexivity.
  assert (E2 : step (ClickNext 0 0) (setWordsSinceReview 9 s)
               = Some (nextWord 0 0 (setWordsSinceReview 9 s))) by reflexivity.
  pose proof (next_button_announces 0 0 s _ E1) as H1.
  pose proof (next_button_announces 0 0 (setWordsSinceReview 9 s) _ E2) as H2.
  cbv zeta in H1, H2.
  change (nextButtonLabel s) with LoadNextBatch in H1.
  change (nextButtonLabel (setWordsSinceReview 9 s)) with LoadNextBatch in H2.
  destruct H1 as [_ H1]. destruct H1 as (H1 & _).
  { intros [Hd _]. simpl in Hd. lia. }
  destruct H2 as [H2 _]. destruct H2 as (H2 & H3 & _ & H4).
  { split; [simpl; lia|]. by vm_compute. }
  split_and!; done.
Defined.

(** ** Batches that arrive *)

Lemma foldl_resume_promises r (ks : list (nat * Continuation)) s :
  promises (foldl (λ st a, resume a.2 r st) s ks) = promises s
  ∧ awaiters (foldl (λ st a, resume a.2 r st) s ks) = awaiters s.
Proof.
  apply (foldl_resume_preserves
           (λ st, promises st = promises s ∧ awaiters st = awaiters s)); [|done].
  intros k st Hst. destruct k as [[]|], r; simpl; done.
Qed.

Lemma settle_promises p r s :
  promises (settle p r s) = <[p := Some r]> (promises s)
  ∧ awaiters (settle p r s)
    = filter (λ a : nat * Continuation, a.1 ≠ p) (awaiters s).
Proof.
  unfold settle. cbv zeta.
  match goal with |- context [foldl _ ?s3 ?ks] =>
    destruct (foldl_resume_promises r ks s3) as [-> ->] end.
  by destruct r.
Qed.

Lemma foldl_resume_takes_over r (ks : list (nat * Continuation)) s :
  ks ≠ [] →
  status (foldl (λ st a, resume a.2 r st) s ks)
  = match r with Fulfilled _ => QUIZ | Rejected => IDLE end
  ∧ ∀ ws, r = Fulfilled ws →
      words (foldl (λ st a, resume a.2 r st) s ks) = ws
      ∧ currentIndex (foldl (λ st a, resume a.2 r st) s ks) = 0.
Proof.
  induction ks as [|a ks _] using rev_ind; [done|]. intros _.
  rewrite foldl_app. simpl. destruct a as [q [[]|]], r; simpl;
    (split; [done|]); intros ws' E; by simplify_eq.
Qed.

Lemma settle_nobody_waits p r s :
  (∀ a, a ∈ awaiters s → a.1 ≠ p) →
  status (settle p r s) = status s ∧ words (settle p r s) = words s
  ∧ currentIndex (settle p r s) = currentIndex s
  ∧ awaiters (settle p r s) = awaiters s.
Proof.
  intros Hno. unfold settle.
  destruct (filter_awaiters_other p (awaiters s) Hno) as [-> ->].
  by destruct r.
Qed.

(** X16: a batch that arrives takes the screen, wherever the user is.  When a
    request settles and some start or continue is still waiting for it, the
    quiz is shown with the new batch from its first card (or the welcome
    screen, on failure) whatever screen was shown before: the notebook, the
    welcome screen or another quiz.  When nobody waits for it, screen, batch
    and position stay as they are. *)
Theorem settled_batch_takes_the_screen p r s s' :
  step (FetchSettled p r) s = Some s' →
  ((∃ k, (p, k) ∈ awaiters s) →
     status s' = match r with Fulfilled _ => QUIZ | Rejected => IDLE end
     ∧ (∀ ws, r = Fulfilled ws → words s' = ws ∧ currentIndex s' = 0)
     ∧ ∀ a, a ∈ awaiters s' → a.1 ≠ p)
  ∧ ((∀ a, a ∈ awaiters s → a.1 ≠ p) →
     status s' = status s ∧ words s' = words s
     ∧ currentIndex s' = currentIndex s ∧ awaiters s' = awaiters s).
Proof.
  intros Hstep. unfold step in Hstep.
  destruct (promises s !! p) as [[|]|]; simplify_eq.
  split.
  - intros (k & Hk).
    destruct (settle_promises p r s) as [_ Haw].
    split_and!.
    + unfold settle. apply foldl_resume_takes_over.
      intros Hnil.
      assert (Hin : (p, k) ∈ filter (λ a : nat * Continuation, a.1 = p)
                               (awaiters s)).
      { by apply list_elem_of_filter. }
      rewrite Hnil in Hin. by apply not_elem_of_nil in Hin.
    + unfold settle. apply foldl_resume_takes_over.
      intros Hnil.
      assert (Hin : (p, k) ∈ filter (λ a : nat * Continuation, a.1 = p)
                               (awaiters s)).
      { by apply list_elem_of_filter. }
      rewrite Hnil in Hin. by apply not_elem_of_nil in Hin.
    + intros a. rewrite Haw. intros Ha.
      by apply list_elem_of_filter in Ha as [Ha _].
  - apply settle_nobody_waits.
Qed.

(** The batch of a start arrives while the user reads the notebook. *)
Lemma settled_batch_takes_the_screen_witness :
  ∃ s s', run [ClickStart; ClickTopMistakes] (mount (Some [sampleRecord "old" 0]))
          = Some s
    ∧ status s = MISTAKES
    ∧ step (FetchSettled 0 (Fulfilled (sampleBatch "w"))) s = Some s'
    ∧ status s' = QUIZ ∧ words s' = sampleBatch "w".
Proof.
  eexists. eexists. split; [vm_compute; reflexivity|]. split; [reflexivity|].
  split; [vm_compute; reflexivity|].
  match goal with |- status ?s' = _ ∧ _ =>
    destruct (settled_batch_takes_the_screen 0 (Fulfilled (sampleBatch "w"))
                (setStatus MISTAKES (startSession (mount (Some [sampleRecord "old" 0]))))
                s' eq_refl) as [H _]
  end.
  destruct H as (H1 & H2 & _).
  { exists (StartCont true). simpl. apply list_elem_of_here. }
  split; [exact H1|]. by destruct (H2 _ eq_refl).
Defined.

Lemma step_loading e s s' :
  step e s = Some s' →
  (∀ a, a ∈ awaiters s → promises s !! a.1 = Some None)
  ∧ (∀ p, initFetchPromise s = Some p → p < length (promises s))
  ∧ (status s = LOADING → awaiters s ≠ []) →
  (∀ a, a ∈ awaiters s' → promises s' !! a.1 = Some None)
  ∧ (∀ p, initFetchPromise s' = Some p → p < length (promises s'))
  ∧ (status s' = LOADING → awaiters s' ≠ []).
Proof.
  intros Hstep (Haw & Hinit & Hld).
  assert (Hfetch : ∀ st k,
            awaiters st = awaiters s → promises st = promises s →
            ∀ a, a ∈ awaiters (register (length (promises st)) k
                                 (setPromises (promises st ++ [None]) st)) →
                 promises (register (length (promises st)) k
                             (setPromises (promises st ++ [None]) st)) !! a.1
                 = Some None).
  { intros st k Ea Ep a. simpl. rewrite Ea, Ep.
    intros [Ha| ->%list_elem_of_singleton]%elem_of_app.
    - rewrite lookup_app_l; [by apply Haw|].
      eapply lookup_lt_Some. by apply Haw.
    - simpl. by rewrite lookup_app_r, Nat.sub_diag. }
  destruct e as [| | | | |idx now|u1 u2|now|idx|p r|].
  3:{ unfold step in Hstep. case_decide; simplify_eq.
      unfold startSession.
      destruct (initFetchPromise s) as [p|] eqn:Hp.
      - destruct (promises s !! p) as [[r|]|] eqn:Hpr.
        + destruct r; simpl; split_and!; done.
        + simpl. split_and!.
          * intros a [Ha| ->%list_elem_of_singleton]%elem_of_app; auto.
          * by rewrite Hp.
          * intros _. by destruct (awaiters s).
        + exfalso. apply lookup_ge_None in Hpr. specialize (Hinit p eq_refl). lia.
      - unfold callFetchWordBatch. split_and!.
        + by apply (Hfetch (setStatus LOADING s)).
        + simpl. by rewrite Hp.
        + simpl. intros _. by destruct (awaiters s). }
  6:{ apply step_ClickNext in Hstep as (Hst & _ & _ & _ & ->).
      unfold nextWord. destruct (reviewWord s); [simpl; split_and!; done|].
      case_decide; [simpl; split_and!; done|].
      case_decide; [simpl; split_and!; done|].
      unfold callFetchWordBatch. split_and!.
      - by apply (Hfetch (setStatus LOADING (setWordsSinceReview _ (resetCardState s)))).
      - simpl. intros p Hp. rewrite length_app. specialize (Hinit p Hp). simpl. lia.
      - simpl. intros _. by destruct (awaiters s). }
  8:{ unfold step in Hstep. repeat case_match; simplify_eq.
      destruct (settle_promises p r s) as [Hpr' Haw'].
      assert (Hinit' : ∀ q, initFetchPromise (settle p r s) = Some q →
                            q < length (promises s)).
      { apply (settle_preserves
                 (λ st, ∀ q, initFetchPromise st = Some q → q < length (promises s)));
          try done.
        intros k st Hst. destruct k as [[]|], r; simpl; done. }
      split_and!.
      - intros a. rewrite Haw', Hpr'. intros [Hne Ha]%list_elem_of_filter.
        rewrite list_lookup_insert_ne by done. by apply Haw.
      - intros q Hq. rewrite Hpr', length_insert. by apply Hinit'.
      - destruct (decide (filter (λ a : nat * Continuation, a.1 = p) (awaiters s) = []))
          as [Hnil|Hne].
        + assert (Hno : ∀ a, a ∈ awaiters s → a.1 ≠ p).
          { intros a Ha Hp.
            assert (Hin : a ∈ filter (λ a : nat * Continuation, a.1 = p) (awaiters s))
              by (by apply list_elem_of_filter).
            rewrite Hnil in Hin. by apply not_elem_of_nil in Hin. }
          destruct (settle_nobody_waits p r s Hno) as (-> & _ & _ & ->). done.
        + unfold settle at 1. cbv zeta.
          match goal with |- status (foldl _ ?s3 _) = _ → _ =>
            destruct (foldl_resume_takes_over r _ s3 Hne) as [-> _] end.
          by destruct r. }
  all: unfold step in Hstep; repeat (case_decide || case_match); simplify_eq;
    try (split_and!; done).
  unfold handleAnswer, setTimeout, addToMistakes.
  repeat (case_decide || case_match); simplify_eq; simpl;
    split_and!; try done; congruence.
Qed.

(** X17: the loading screen always has a request behind it.  In every state
    of a session that shows the loading screen, a start or a continue waits
    for a request that has not settled; whatever that request settles to, the
    loading screen is left, for the quiz or for the welcome screen. *)
Theorem loading_has_pending_request saved s :
  reachable saved s →
  status s = LOADING →
  ∃ p k, (p, k) ∈ awaiters s ∧ promises s !! p = Some None
         ∧ ∀ r, ∃ s', step (FetchSettled p r) s = Some s'
                      ∧ status s'
                        = match r with Fulfilled _ => QUIZ | Rejected => IDLE end.
Proof.
  intros (es & Hrun) Hst.
  assert (H : (∀ a, a ∈ awaiters s → promises s !! a.1 = Some None)
              ∧ (∀ p, initFetchPromise s = Some p → p < length (promises s))
              ∧ (status s = LOADING → awaiters s ≠ [])).
  { assert (H0 : (∀ a, a ∈ awaiters (mount saved) →
                       promises (mount saved) !! a.1 = Some None)
                 ∧ (∀ p, initFetchPromise (mount saved) = Some p →
                         p < length (promises (mount saved)))
                 ∧ (status (mount saved) = LOADING → awaiters (mount saved) ≠ [])).
    { simpl. split_and!; [|intros p [= <-]; lia|done].
      intros a Ha. by apply not_elem_of_nil in Ha. }
    revert H0 Hrun. generalize (mount saved).
    induction es as [|e es IH]; simpl; intros s0 H0 Hrun.
    - by simplify_eq.
    - destruct (step e s0) as [s1|] eqn:E; [|done].
      eapply IH; [|exact Hrun]. eapply step_loading; eauto. }
  destruct H as (Haw & _ & Hne). specialize (Hne Hst).
  destruct (awaiters s) as [|[p k] l] eqn:Ea; [done|].
  assert (Hin : (p, k) ∈ awaiters s) by (rewrite Ea; apply list_elem_of_here).
  rewrite <- Ea in *.
  pose proof (Haw (p, k) Hin) as Hp. simpl in Hp.
  exists p, k. split; [done|]. split; [done|].
  intros r. exists (settle p r s). split.
  - unfold step. by rewrite Hp.
  - unfold settle. apply foldl_resume_takes_over.
    intros Hnil.
    assert (Hin' : (p, k) ∈ filter (λ a : nat * Continuation, a.1 = p) (awaiters s))
      by (by apply list_elem_of_filter).
    rewrite Hnil in Hin'. by apply not_elem_of_nil in Hin'.
Qed.

(** The loading screen after the last card of a batch. *)
Lemma loading_has_pending_request_witness :
  ∃ s p k, run ([ClickStart; FetchSettled 0 (Fulfilled (sampleBatch "w"))]
                ++ finishBatch) (mount None) = Some s
    ∧ status s = LOADING
    ∧ (p, k) ∈ awaiters s ∧ promises s !! p = Some None.
Proof.
  eexists.
  edestruct (loading_has_pending_request None) as (p & k & H1 & H2 & _).
  - exists ([ClickStart; FetchSettled 0 (Fulfilled (sampleBatch "w"))]
            ++ finishBatch). vm_compute. reflexivity.
  - reflexivity.
  - exists p, k. split; [vm_compute; reflexivity|]. split; [reflexivity|].
    split; [exact H1|exact H2].
Defined.

(** ** What the result of a review card says *)

(** X18: a mastered word stays in the notebook.  After the right answer on a
    review card whose record is in the ledger, the result screen shows one
    line of feedback: the new streak out of three, which is the streak now
    stored in the ledger, or, once that streak is three, the message that the
    word is mastered.  In both cases the ledger holds the same words as
    before: a mastered word is not removed, it only stops being a candidate
    for review. *)
Theorem mastered_word_stays_in_notebook now s r :
  reviewWord s = Some r →
  r ∈ mistakes s →
  NoDup (ledgerWords (mistakes s)) →
  let s' := rewardTimeout (meaning r) (handleAnswer (meaning r) now s) in
  feedbackSubtitle s'
  = (if decide (2 ≤ consecutiveCorrect r) then [WordMastered]
     else [StreakOf (consecutiveCorrect r + 1)])
  ∧ withConsecutiveCorrect (consecutiveCorrect r + 1) r ∈ mistakes s'
  ∧ ledgerWords (mistakes s') = ledgerWords (mistakes s)
  ∧ (2 ≤ consecutiveCorrect r →
     word r ∉ ledgerWords (reviewCandidates (mistakes s'))).
Proof.
  intros Hr Hin Hnd s'.
  assert (Ha : activeCard s = Some (card r)).
  { unfold activeCard. by rewrite Hr. }
  assert (Hm : mistakes s' = bumpStreak (word r) (mistakes s)).
  { unfold s', handleAnswer. rewrite Ha, decide_True by done. by rewrite Hr. }
  assert (Hr' : reviewWord s' = Some r).
  { unfold s', handleAnswer. rewrite Ha, decide_True by done. by rewrite Hr. }
  assert (Hsel : selectedOption s' = Some (meaning r)) by done.
  split_and!.
  - unfold feedbackSubtitle, activeCard, isMastered, isCorrect.
    rewrite Hr', Hsel, or0_id. rewrite (bool_decide_eq_true_2 (Some _ = Some _)) by done.
    destruct (decide (2 ≤ consecutiveCorrect r)) as [Hge|Hlt].
    + rewrite bool_decide_eq_true_2 by lia. done.
    + rewrite bool_decide_eq_false_2 by lia. done.
  - rewrite Hm. unfold bumpStreak. apply list_elem_of_fmap.
    exists r. split; [|done]. by rewrite decide_True, or0_id.
  - rewrite Hm. apply ledgerWords_bumpStreak.
  - intros Hge Hw. rewrite Hm in Hw. unfold ledgerWords in Hw.
    apply list_elem_of_fmap in Hw as (m' & Hwm & Hm').
    unfold reviewCandidates in Hm'.
    apply list_elem_of_filter in Hm' as [Hlt Hm'].
    unfold bumpStreak in Hm'. apply list_elem_of_fmap in Hm' as (m & -> & Hmin).
    rewrite or0_id in Hlt.
    case_decide as Hd; simpl in *.
    + assert (m = r) by (by apply (ledger_word_unique (mistakes s))).
      subst m. rewrite or0_id in Hlt. lia.
    + congruence.
Qed.

(** The third right answer in a row for a stored word. *)
Lemma mastered_word_stays_in_notebook_witness :
  let s := setStatus QUIZ (setReviewWord (Some (sampleRecord "old" 2))
             (mount (Some [sampleRecord "new" 0; sampleRecord "old" 2]))) in
  let s' := rewardTimeout "meaning of old" (handleAnswer "meaning of old" 7 s) in
  feedbackSubtitle s' = [WordMastered]
  ∧ ledgerWords (mistakes s') = ["new"; "old"].
Proof.
  intros s s'.
  destruct (mastered_word_stays_in_notebook 7 s (sampleRecord "old" 2))
    as (H1 & _ & H3 & _).
  - reflexivity.
  - compute_done.
  - compute_done.
  - split; [exact H1|exact H3].
Defined.

(** ** Audio *)

Ltac unfold_audio :=
  unfold preloadAudio, handleAudioPlay, playPronunciation, preloadResumes,
    playResumes, playbackResumes, generateContent, playPcmAudio, audioCacheSet,
    logAudio, setPending, setIsLoadingAudio.

Lemma audioRun_invariant (P : Audio → Prop) es a a' :
  (∀ e b b', audioStep e b = Some b' → P b → P b') →
  audioRun es a = Some a' → P a → P a'.
Proof.
  intros Hstep. revert a. induction es as [|e es IH]; simpl; intros a Hrun Ha.
  - by simplify_eq.
  - destruct (audioStep e a) as [a1|] eqn:E; [|done]. eauto.
Qed.

Lemma truthy_spec str : truthy str = true ↔ str ≠ EmptyString.
Proof. unfold truthy. by rewrite bool_decide_eq_true. Qed.

Lemma audioStep_cache_truthy e a a' :
  audioStep e a = Some a' →
  (∀ t d, audioCache a !! t = Some d → truthy d = true) →
  (∀ t d, audioCache a' !! t = Some d → truthy d = true).
Proof.
  intros Hstep Ha. unfold audioStep in Hstep.
  repeat case_match; simplify_eq; revert Ha; unfold_audio;
    repeat (case_decide || case_match); simpl; intros Ha t' d'; eauto;
    (destruct (decide (t' = text)) as [->|Hne];
       [rewrite lookup_insert_eq; intros [= <-]; done
       |rewrite lookup_insert_ne by done; eauto]).
Qed.

(** X19: audio that is cached is played from the cache.  In every state of
    the audio machine a cached entry is a non-empty string, so the test on the
    cached value in [playPronunciation] never fails: preloading a cached text
    does nothing at all, and pressing an audio button for it (while nothing is
    playing) hands the cached audio to the player at 24000 Hz without a
    request. *)
Theorem cached_audio_needs_no_request a text d :
  audioReachable a →
  audioCache a !! text = Some d →
  d ≠ EmptyString
  ∧ preloadAudio text a = a
  ∧ (isLoadingAudio a = false →
     handleAudioPlay text a = playPcmAudio d 24000 (setIsLoadingAudio true a)
     ∧ audioLog (handleAudioPlay text a) = PlayPcm d 24000 :: audioLog a).
Proof.
  intros (es & Hrun) Hc.
  assert (Ht : truthy d = true).
  { eapply (audioRun_invariant
              (λ b, ∀ t d, audioCache b !! t = Some d → truthy d = true));
      [apply audioStep_cache_truthy|exact Hrun| |exact Hc].
    intros t d'. simpl. by rewrite lookup_empty. }
  split; [by apply truthy_spec|]. split.
  - unfold preloadAudio. rewrite decide_True; [done|]. by rewrite Hc.
  - intros Hb. unfold handleAudioPlay, playPronunciation. rewrite Hb. simpl.
    by rewrite Hc, Ht.
Qed.

(** A word preloaded and then played. *)
Lemma cached_audio_needs_no_request_witness :
  ∃ a, audioRun [CallPreload "word"; RequestSettled 0 (AudioResponse (Some "UklGRg"))]
         audioInit = Some a
       ∧ preloadAudio "word" a = a
       ∧ audioLog (handleAudioPlay "word" a)
         = [PlayPcm "UklGRg" 24000; TtsRequest "word"].
Proof.
  eexists. split; [vm_compute; reflexivity|].
  edestruct (cached_audio_needs_no_request
               (mkAudio false {["word" := "UklGRg"]} [] [TtsRequest "word"])
               "word" "UklGRg") as (_ & H1 & H2).
  - exists [CallPreload "word"; RequestSettled 0 (AudioResponse (Some "UklGRg"))].
    vm_compute. reflexivity.
  - vm_compute. reflexivity.
  - destruct (H2 eq_refl) as [_ H3]. split; [|exact H3].
    etrans; [|exact H1]. vm_compute. reflexivity.
Defined.

Lemma filter_delete_length {A} (P : A → Prop) `{∀ x, Decision (P x)}
    (l : list A) i k :
  l !! i = Some k →
  length (filter P l)
  = length (filter P (delete i l)) + (if decide (P k) then 1 else 0).
Proof.
  revert i. induction l as [|x l IH]; intros i Hi; [done|].
  destruct i as [|i]; simpl in *.
  - simplify_eq. case_decide.
    + rewrite filter_cons_True by done. simpl. lia.
    + rewrite filter_cons_False by done. lia.
  - specialize (IH i Hi). destruct (decide (P x)).
    + rewrite !filter_cons_True by done. simpl. lia.
    + rewrite !filter_cons_False by done. lia.
Qed.

Lemma playing_app a k :
  length (filter (λ k, isPlayTask k = true) (pending a ++ [k]))
  = playing a + (if isPlayTask k then 1 else 0).
Proof.
  unfold playing. rewrite filter_app, length_app. by destruct k.
Qed.

Lemma audioStep_playing e a a' :
  audioStep e a = Some a' →
  playing a = (if isLoadingAudio a then 1 else 0) →
  playing a' = (if isLoadingAudio a' then 1 else 0).
Proof.
  intros Hstep Ha. unfold audioStep in Hstep.
  destruct e as [text|text|i r|i ok].
  - simplify_eq. unfold preloadAudio. case_decide; [done|].
    unfold playing, generateContent. simpl. rewrite playing_app. simpl. lia.
  - simplify_eq. unfold handleAudioPlay, playPronunciation.
    destruct (isLoadingAudio a) eqn:Eb; [by rewrite Eb|].
    repeat case_match; try (simpl in *; discriminate);
      unfold playing in *; simpl; rewrite filter_app, length_app, Ha; reflexivity.
  - destruct (pending a !! i) as [[text|text|]|] eqn:Ei; simplify_eq.
    + unfold playing in Ha.
      rewrite (filter_delete_length _ _ _ _ Ei) in Ha. simpl in Ha.
      destruct r as [|[d|]]; unfold_audio; unfold playing; simpl;
        try destruct (truthy d); simpl; lia.
    + unfold playing in Ha.
      rewrite (filter_delete_length _ _ _ _ Ei) in Ha. simpl in Ha.
      destruct (isLoadingAudio a) eqn:Eb; [|lia].
      destruct r as [|[d|]]; unfold_audio; unfold playing; simpl; try lia.
      destruct (truthy d); simpl; [|lia].
      rewrite filter_app, length_app, Eb. simpl. lia.
  - destruct (pending a !! i) as [[text|text|]|] eqn:Ei; simplify_eq.
    unfold playing in Ha.
    rewrite (filter_delete_length _ _ _ _ Ei) in Ha. simpl in Ha.
    destruct (isLoadingAudio a) eqn:Eb; [|lia].
    destruct ok; unfold_audio; unfold playing; simpl; lia.
Qed.

Lemma filter_at_most_one {A} (P : A → Prop) `{∀ x, Decision (P x)}
    (l : list A) i j x y :
  length (filter P l) ≤ 1 →
  l !! i = Some x → l !! j = Some y → P x → P y → i = j.
Proof.
  revert i j. induction l as [|z l IH]; intros i j Hlen Hi Hj Hx Hy; [done|].
  assert (Hnone : ∀ n v, P z → l !! n = Some v → P v → False).
  { intros n v Hz Hn Hv. rewrite filter_cons_True in Hlen by done.
    simpl in Hlen.
    assert (Hin : v ∈ filter P l).
    { apply list_elem_of_filter. split; [done|]. by eapply list_elem_of_lookup_2. }
    destruct (filter P l); [by apply not_elem_of_nil in Hin|simpl in Hlen; lia]. }
  destruct i as [|i], j as [|j]; simpl in *; simplify_eq.
  - done.
  - exfalso. eauto.
  - exfalso. eauto.
  - f_equal. apply IH; try done.
    destruct (decide (P z)).
    + rewrite filter_cons_True in Hlen by done. simpl in Hlen. lia.
    + by rewrite filter_cons_False in Hlen.
Qed.

Lemma audioReachable_playing a :
  audioReachable a → playing a = (if isLoadingAudio a then 1 else 0).
Proof.
  intros (es & Hrun).
  eapply (audioRun_invariant
            (λ b, playing b = (if isLoadingAudio b then 1 else 0)));
    [apply audioStep_playing|exact Hrun|done].
Qed.

Lemma busy_play_task a :
  audioReachable a → isLoadingAudio a = true →
  ∃ i k, pending a !! i = Some k ∧ isPlayTask k = true.
Proof.
  intros Hr Hb. pose proof (audioReachable_playing a Hr) as Hp.
  rewrite Hb in Hp. unfold playing in Hp.
  destruct (filter (λ k, isPlayTask k = true) (pending a)) as [|k l] eqn:Ef;
    [done|].
  assert (Hin : k ∈ filter (λ k, isPlayTask k = true) (pending a)).
  { rewrite Ef. apply list_elem_of_here. }
  apply list_elem_of_filter in Hin as [Hk Hin].
  apply list_elem_of_lookup in Hin as [i Hi]. eauto.
Qed.

(** X20: one playback at a time, and the busy flag says so.  In every state
    of the audio machine [isLoadingAudio] is set exactly when a play is under
    way (waiting for its speech request or for the player): there is one such
    call when the flag is set and none when it is clear.  Preloads do not
    count: any number of them can be pending either way. *)
Theorem one_playback_at_a_time a :
  audioReachable a →
  playing a = (if isLoadingAudio a then 1 else 0)
  ∧ (∀ i j ki kj, pending a !! i = Some ki → pending a !! j = Some kj →
       isPlayTask ki = true → isPlayTask kj = true → i = j)
  ∧ (isLoadingAudio a = true ↔ ∃ i k, pending a !! i = Some k ∧ isPlayTask k = true).
Proof.
  intros Hr. pose proof (audioReachable_playing a Hr) as Hp.
  split; [done|]. split.
  - intros i j ki kj Hi Hj Hki Hkj.
    apply (filter_at_most_one (λ k, isPlayTask k = true) (pending a) i j ki kj);
      try done.
    unfold playing in Hp. rewrite Hp. destruct (isLoadingAudio a); lia.
  - split.
    + intros Hb. by apply busy_play_task.
    + intros (i & k & Hi & Hk).
      destruct (isLoadingAudio a); [done|]. unfold playing in Hp.
      assert (Hin : k ∈ filter (λ k, isPlayTask k = true) (pending a)).
      { apply list_elem_of_filter. split; [done|]. by eapply list_elem_of_lookup_2. }
      destruct (filter (λ k, isPlayTask k = true) (pending a));
        [by apply not_elem_of_nil in Hin|done].
Qed.

(** Two preloads pending, a button pressed twice. *)
Lemma one_playback_at_a_time_witness :
  ∃ a, audioRun [CallPreload "word"; CallPreload "a sentence";
                 ClickAudio "word"; ClickAudio "a sentence"] audioInit = Some a
       ∧ pending a = [PreloadRequest "word"; PreloadRequest "a sentence";
                      PlayRequest "word"]
       ∧ playing a = 1.
Proof.
  eexists. split; [vm_compute; reflexivity|]. split; [reflexivity|].
  match goal with |- playing ?a = _ =>
    destruct (one_playback_at_a_time a) as [H _]; [|exact H] end.
  exists [CallPreload "word"; CallPreload "a sentence";
          ClickAudio "word"; ClickAudio "a sentence"].
  vm_compute. reflexivity.
Defined.

(** X21: the busy flag always comes down.  In every state of the audio
    machine with [isLoadingAudio] set, the play under way is waiting either
    for the player, and the flag is cleared when the player is done or fails,
    or for its speech request: a rejection or a response without audio clears
    the flag at once, and a response with audio starts the player, whose end
    or failure clears it. *)
Theorem busy_flag_comes_down a :
  audioReachable a →
  isLoadingAudio a = true →
  ∃ i,
    (pending a !! i = Some Playback
     ∧ ∀ ok, ∃ a', audioStep (PlaybackSettled i ok) a = Some a'
                   ∧ isLoadingAudio a' = false)
    ∨ (∃ text, pending a !! i = Some (PlayRequest text)
       ∧ ∀ r, ∃ a', audioStep (RequestSettled i r) a = Some a'
            ∧ (isLoadingAudio a' = false
               ∨ ∃ j, ∀ ok, ∃ a'', audioStep (PlaybackSettled j ok) a' = Some a''
                                   ∧ isLoadingAudio a'' = false)).
Proof.
  intros Hr Hb.
  destruct (busy_play_task a Hr Hb) as (i & k & Hi & Hk).
  exists i. destruct k as [text|text|]; [done| |].
  - right. exists text. split; [done|]. intros r.
    unfold audioStep. rewrite Hi. eexists. split; [reflexivity|].
    destruct r as [|[d|]]; simpl; auto.
    destruct (truthy d) eqn:Et; simpl; auto.
    right. exists (length (delete i (pending a))). intros ok.
    unfold audioStep. simpl.
    rewrite lookup_app_r, Nat.sub_diag by done. simpl.
    eexists. split; [reflexivity|]. by destruct ok.
  - left. split; [done|]. intros ok.
    unfold audioStep. rewrite Hi. eexists. split; [reflexivity|]. by destruct ok.
Qed.

(** A play of a text that is not cached: the request is answered with audio,
    then the player ends. *)
Lemma busy_flag_comes_down_witness :
  ∃ a a', audioRun [ClickAudio "word"] audioInit = Some a
    ∧ isLoadingAudio a = true
    ∧ audioRun [RequestSettled 0 (AudioResponse (Some "UklGRg"));
                PlaybackSettled 0 true] a = Some a'
    ∧ isLoadingAudio a' = false
    ∧ ∃ i, pending a !! i = Some (PlayRequest "word").
Proof.
  eexists. eexists. split; [vm_compute; reflexivity|]. split; [reflexivity|].
  split; [vm_compute; reflexivity|]. split; [reflexivity|].
  edestruct (busy_flag_comes_down
               (mkAudio true ∅ [PlayRequest "word"] [TtsRequest "word"]))
    as (i & [[H _]|(text & H & _)]).
  - exists [ClickAudio "word"]. vm_compute. reflexivity.
  - reflexivity.
  - destruct i as [|[|i]]; discriminate H.
  - exists i. destruct i as [|[|i]]; [reflexivity|discriminate H|discriminate H].
Defined.

Lemma audioStep_cache_grows e a a' text :
  audioStep e a = Some a' →
  is_Some (audioCache a !! text) → is_Some (audioCache a' !! text).
Proof.
  intros Hstep Ha. unfold audioStep in Hstep.
  repeat case_match; simplify_eq; revert Ha; unfold_audio;
    repeat (case_decide || case_match); simpl; try done;
    intros Ha; rewrite lookup_insert_is_Some; destruct (decide (text0 = text)); auto.
Qed.

Lemma audioStep_requested e a a' :
  audioStep e a = Some a' →
  (∀ t, is_Some (audioCache a !! t) ∨ PreloadRequest t ∈ pending a
        ∨ PlayRequest t ∈ pending a → TtsRequest t ∈ audioLog a) →
  (∀ t, is_Some (audioCache a' !! t) ∨ PreloadRequest t ∈ pending a'
        ∨ PlayRequest t ∈ pending a' → TtsRequest t ∈ audioLog a').
Proof.
  intros Hstep Ha.
  assert (Hdel : ∀ i k, k ∈ delete i (pending a) → k ∈ pending a).
  { intros i k Hk. eapply elem_of_sublist; [exact Hk|apply sublist_delete]. }
  unfold audioStep in Hstep.
  destruct e as [text|text|i r|i ok].
  - simplify_eq. unfold preloadAudio. case_decide; [done|]. simpl.
    intros t [Ht|[Ht|Ht]].
    + apply list_elem_of_further. auto.
    + apply elem_of_app in Ht as [Ht|Ht%list_elem_of_singleton].
      * apply list_elem_of_further. auto.
      * simplify_eq. apply list_elem_of_here.
    + apply elem_of_app in Ht as [Ht|Ht%list_elem_of_singleton]; [|done].
      apply list_elem_of_further. auto.
  - simplify_eq. unfold handleAudioPlay, playPronunciation.
    destruct (isLoadingAudio a); [done|]. simpl.
    assert (Hreq : ∀ t, is_Some (audioCache a !! t)
                        ∨ PreloadRequest t ∈ pending a ++ [PlayRequest text]
                        ∨ PlayRequest t ∈ pending a ++ [PlayRequest text] →
                        TtsRequest t ∈ TtsRequest text :: audioLog a).
    { intros t [Ht|[Ht|Ht]].
      - apply list_elem_of_further. auto.
      - apply elem_of_app in Ht as [Ht|Ht%list_elem_of_singleton]; [|done].
        apply list_elem_of_further. auto.
      - apply elem_of_app in Ht as [Ht|Ht%list_elem_of_singleton].
        + apply list_elem_of_further. auto.
        + simplify_eq. apply list_elem_of_here. }
    destruct (audioCache a !! text) as [d|] eqn:Ec; [|exact Hreq].
    destruct (truthy d); [|exact Hreq]. simpl.
    intros t [Ht|[Ht|Ht]].
    + apply list_elem_of_further. auto.
    + apply elem_of_app in Ht as [Ht|Ht%list_elem_of_singleton]; [|done].
      apply list_elem_of_further. auto.
    + apply elem_of_app in Ht as [Ht|Ht%list_elem_of_singleton]; [|done].
      apply list_elem_of_further. auto.
  - destruct (pending a !! i) as [[text|text|]|] eqn:Ei; simplify_eq.
    + assert (Hold : ∀ t, is_Some (audioCache a !! t)
                          ∨ PreloadRequest t ∈ delete i (pending a)
                          ∨ PlayRequest t ∈ delete i (pending a) →
                          TtsRequest t ∈ audioLog a).
      { intros t [Ht|[Ht|Ht]]; eauto. }
      assert (Htext : TtsRequest text ∈ audioLog a).
      { apply Ha. right. left. by eapply list_elem_of_lookup_2. }
      destruct r as [|[d|]]; unfold_audio; simpl; try done.
      * intros t Ht. apply list_elem_of_further. auto.
      * destruct (truthy d); simpl; [|done].
        intros t [Ht|Ht]; [|auto].
        apply lookup_insert_is_Some in Ht as [<-|[_ Ht]]; auto.
    + assert (Hold : ∀ t, is_Some (audioCache a !! t)
                          ∨ PreloadRequest t ∈ delete i (pending a)
                          ∨ PlayRequest t ∈ delete i (pending a) →
                          TtsRequest t ∈ audioLog a).
      { intros t [Ht|[Ht|Ht]]; eauto. }
      assert (Htext : TtsRequest text ∈ audioLog a).
      { apply Ha. right. right. by eapply list_elem_of_lookup_2. }
      destruct r as [|[d|]]; unfold_audio; simpl; try done.
      * intros t Ht. apply list_elem_of_further. auto.
      * destruct (truthy d); simpl; [|done].
        intros t [Ht|[Ht|Ht]]; apply list_elem_of_further.
        -- apply lookup_insert_is_Some in Ht as [<-|[_ Ht]]; auto.
        -- apply elem_of_app in Ht as [Ht|Ht%list_elem_of_singleton]; [|done].
           auto.
        -- apply elem_of_app in Ht as [Ht|Ht%list_elem_of_singleton]; [|done].
           auto.
  - destruct (pending a !! i) as [[text|text|]|] eqn:Ei; simplify_eq.
    assert (Hold : ∀ t, is_Some (audioCache a !! t)
                        ∨ PreloadRequest t ∈ delete i (pending a)
                        ∨ PlayRequest t ∈ delete i (pending a) →
                        TtsRequest t ∈ audioLog a).
    { intros t [Ht|[Ht|Ht]]; eauto. }
    destruct ok; unfold_audio; simpl; [done|].
    intros t Ht. apply list_elem_of_further. auto.
Qed.

(** X22: the audio cache only grows, and only by what was requested.  A text
    that is cached stays cached through everything that happens later (its
    audio may be replaced by a later response for the same text, it is never
    dropped), and every cached text has been the subject of a speech
    request. *)
Theorem audio_cache_grows a es a' text :
  audioReachable a →
  audioRun es a = Some a' →
  (is_Some (audioCache a !! text) → is_Some (audioCache a' !! text))
  ∧ (is_Some (audioCache a' !! text) → TtsRequest text ∈ audioLog a').
Proof.
  intros (es0 & Hrun0) Hrun. split.
  - apply (audioRun_invariant (λ b, is_Some (audioCache b !! text)) es a a');
      [|done]. intros e b b'. apply audioStep_cache_grows.
  - intros Hc.
    assert (Hinv : ∀ b, audioReachable b →
              ∀ t, is_Some (audioCache b !! t) ∨ PreloadRequest t ∈ pending b
                   ∨ PlayRequest t ∈ pending b → TtsRequest t ∈ audioLog b).
    { intros b (esb & Hb).
      apply (audioRun_invariant
               (λ b, ∀ t, is_Some (audioCache b !! t) ∨ PreloadRequest t ∈ pending b
                          ∨ PlayRequest t ∈ pending b → TtsRequest t ∈ audioLog b)
               esb audioInit b); [apply audioStep_requested|done|].
      simpl. intros t [Ht|[Ht|Ht]].
      - rewrite lookup_empty in Ht. by destruct Ht.
      - by apply not_elem_of_nil in Ht.
      - by apply not_elem_of_nil in Ht. }
    apply (Hinv a'); [|by left].
    exists (es0 ++ es). clear Hinv Hc. revert Hrun0.
    generalize audioInit. induction es0 as [|e es0 IH]; simpl; intros b Hb.
    + by simplify_eq.
    + destruct (audioStep e b); [|done]. by apply IH.
Qed.

(** A word is cached by a preload; later a play of the same word that was
    requested before the preload came back replaces its audio. *)
Lemma audio_cache_grows_witness :
  ∃ a a', audioRun [CallPreload "word"; ClickAudio "word";
                    RequestSettled 0 (AudioResponse (Some "first"))]
            audioInit = Some a
    ∧ audioCache a !! "word" = Some "first"
    ∧ audioRun [RequestSettled 0 (AudioResponse (Some "second"));
                PlaybackSettled 0 false] a = Some a'
    ∧ audioCache a' !! "word" = Some "second"
    ∧ TtsRequest "word" ∈ audioLog a'.
Proof.
  eexists. eexists. split; [vm_compute; reflexivity|].
  split; [vm_compute; reflexivity|]. split; [vm_compute; reflexivity|].
  split; [vm_compute; reflexivity|].
  match goal with |- _ ∈ audioLog ?a' =>
    edestruct (audio_cache_grows
                 (mkAudio true {["word" := "first"]} [PlayRequest "word"]
                    [TtsRequest "word"; TtsRequest "word"])
                 [RequestSettled 0 (AudioResponse (Some "second"));
                  PlaybackSettled 0 false] a' "word") as [_ H]
  end.
  - exists [CallPreload "word"; ClickAudio "word";
            RequestSettled 0 (AudioResponse (Some "first"))].
    vm_compute. reflexivity.
  - vm_compute. reflexivity.
  - apply H. vm_compute. eauto.
Defined.

(** ** Audio buttons and the preloading effect *)

(** X23: every audio button of the quiz and of the result screen plays a text
    the preloading effect asks for.  For the card on screen the effect
    preloads the word and the example sentence (and, outside a review, the
    word of the next card of the batch); the buttons of the two screens play
    the word, and on the result screen the sentence.  The buttons of the
    notebook, which play the words and sentences of the ledger, are not
    covered by the effect. *)
Theorem audio_buttons_are_preloaded s text :
  text ∈ audioButtons s →
  status s ≠ MISTAKES →
  text ∈ preloadTexts s.
Proof.
  unfold audioButtons, preloadTexts. intros Hin Hst.
  destruct (status s); try done; try (by apply not_elem_of_nil in Hin);
    destruct (activeCard s) as [active|]; try (by apply not_elem_of_nil in Hin);
    apply elem_of_app; left.
  - apply list_elem_of_singleton in Hin as ->. apply list_elem_of_here.
  - done.
Qed.

(** The result of the first card of a batch; and a notebook entry that is
    not preloaded. *)
Lemma audio_buttons_are_preloaded_witness :
  let s := setStatus REVIEW (setWords (sampleBatch "w")
             (mount (Some [sampleRecord "old" 0]))) in
  audioButtons s = ["w1"; "-"]
  ∧ preloadTexts s = ["w1"; "-"; "w2"]
  ∧ "w1" ∈ preloadTexts s
  ∧ "old" ∈ audioButtons (setStatus MISTAKES s)
  ∧ "old" ∉ preloadTexts (setStatus MISTAKES s).
Proof.
  intros s. split; [reflexivity|]. split; [reflexivity|]. split.
  - apply (audio_buttons_are_preloaded s "w1"); [|discriminate].
    apply list_elem_of_here.
  - split; [apply list_elem_of_here|]. compute_done.
Defined.

(** ** From the provider to the quiz *)

Section ShuffledCards.
Context `{Engine}.

(** X24: the shuffle never makes a card unanswerable.  On an engine whose
    [sort] reorders: when the provider sends an array of cards that all list
    their meaning among their options, what [fetchWordBatch] resolves with is
    a batch of cards again, and every card of it can be answered correctly
    once it is on screen: wherever the shuffle has put the meaning, a button
    for it is there and enabled, and pressing it gives the reward. *)
Theorem shuffled_card_is_answerable data g items :
  SortReorders H →
  (fetchWordBatch (Parsed (JSON.Array (cardToValue <$> data))) g).1
    = Resolves items →
  Forall (λ item : WordCard, meaning item ∈ options item) data →
  ∃ cards,
    asBatch items = Some cards
    ∧ ∀ card s now,
        words s = cards → reviewWord s = None →
        cards !! currentIndex s = Some card →
        status s = QUIZ → showReward s = false →
        meaning card ∉ wrongCandidates s →
        ∃ idx s', options card !! idx = Some (meaning card)
                  ∧ step (ClickOption idx now) s = Some s'
                  ∧ showReward s' = true.
Proof.
  intros Hsort Hf Hdata.
  apply fetchWordBatch_Resolves in Hf as [[[=] _]|(data' & [= <-] & Hm)].
  destruct (mapShuffle_cards data g items Hsort Hm) as (cards & Hb & Hall).
  exists cards. split; [done|].
  intros card s now Hw Hr Hc Hst Hsr Hwc.
  destruct (Forall2_lookup_r _ _ _ _ _ Hall Hc) as (item & Hi & Hre).
  destruct Hre as (Hp & _ & _ & Hmn & _).
  assert (Hin : meaning card ∈ options card).
  { rewrite Hmn, Hp. eapply Forall_lookup_1 in Hdata; eauto. }
  apply list_elem_of_lookup in Hin as [idx Hidx].
  assert (Ha : activeCard s = Some card).
  { unfold activeCard. by rewrite Hr, Hw. }
  exists idx, (handleAnswer (meaning card) now s). split; [done|]. split.
  - apply step_ClickOption. exists card, (meaning card). split_and!; done.
  - by destruct (handleAnswer_correct (meaning card) now s card Ha eq_refl).
Qed.

End ShuffledCards.

(** The second card of the sample batch after the shuffle of the sample
    engine. *)
Lemma shuffled_card_is_answerable_witness :
  ∃ items cards card idx s',
    (fetchWordBatch (H := sampleEngine)
       (Parsed (JSON.Array (cardToValue <$> sampleBatch "w"))) 7%nat).1
      = Resolves items
    ∧ asBatch items = Some cards
    ∧ cards !! 1 = Some card
    ∧ options card !! idx = Some (meaning card)
    ∧ step (ClickOption idx 0)
        (setStatus QUIZ (setCurrentIndex 1 (setWords cards (mount None))))
      = Some s'
    ∧ showReward s' = true.
Proof.
  assert (Hf : ∃ items,
            (fetchWordBatch (H := sampleEngine)
               (Parsed (JSON.Array (cardToValue <$> sampleBatch "w"))) 7%nat).1
            = Resolves items).
  { eexists. vm_compute. reflexivity. }
  destruct Hf as [items Hf].
  destruct (shuffled_card_is_answerable (H := sampleEngine)
              (sampleBatch "w") 7%nat items sampleEngine_reorders Hf)
    as (cards & Hb & Hall).
  { repeat constructor; compute_done. }
  assert (Hc : ∃ card, cards !! 1 = Some card).
  { apply lookup_lt_is_Some_2.
    unfold asBatch in Hb. apply mapM_Some, Forall2_length in Hb.
    apply fetchWordBatch_Resolves in Hf as [[[=] _]|(data' & [= <-] & Hm)].
    apply mapShuffle_Some, Forall2_length in Hm.
    rewrite <- Hb, <- Hm. simpl. lia. }
  destruct Hc as [card Hc].
  destruct (Hall card
              (setStatus QUIZ (setCurrentIndex 1 (setWords cards (mount None)))) 0%Z)
    as (idx & s' & H1 & H2 & H3);
    [reflexivity|reflexivity|exact Hc|reflexivity|reflexivity
    |apply not_elem_of_nil|].
  exists items, cards, card, idx, s'.
  split; [exact Hf|]. split; [exact Hb|]. split; [exact Hc|].
  split; [exact H1|]. split; [exact H2|exact H3].
Defined.

(** ** Screens *)

Lemma step_result_selection e s s' :
  step e s = Some s' →
  (status s = REVIEW → is_Some (selectedOption s)) →
  (status s' = REVIEW → is_Some (selectedOption s')).
Proof.
  intros Hstep Hs.
  destruct e as [| | | | |idx now|u1 u2|now|idx|p r|].
  10:{ unfold step in Hstep. destruct (promises s !! p) as [[|]|]; simplify_eq.
       apply (settle_preserves
                (λ st, status st = REVIEW → is_Some (selectedOption st)));
         try done.
       intros k st Hst. destruct k as [[]|], r; simpl; done. }
  6:{ apply step_ClickOption in Hstep as (active & opt & Hq & Ha & _ & _ & _ & ->).
      unfold handleAnswer, setTimeout, addToMistakes. rewrite Ha.
      repeat (case_decide || case_match); simpl; eauto; congruence. }
  all: unfold_step Hstep; simpl; eauto; try congruence; done.
Qed.

(** X25: on the result screen [selectedOption] is never null.  In every state
    of a session that shows the result screen, [selectedOption] holds an
    option, so the verdict of the screen, [selectedOption ===
    activeCard.meaning], is never taken on the initial null.  (The option is
    one that was submitted; it need not have been submitted on the card the
    screen shows.) *)
Theorem result_has_selection saved s :
  reachable saved s →
  status s = REVIEW →
  ∃ opt, selectedOption s = Some opt.
Proof.
  intros (es & Hrun) Hst.
  assert (H : status s = REVIEW → is_Some (selectedOption s)).
  { assert (H0 : status (mount saved) = REVIEW →
                 is_Some (selectedOption (mount saved))) by done.
    revert H0 Hrun. generalize (mount saved).
    induction es as [|e es IH]; simpl; intros s0 H0 Hrun.
    - by simplify_eq.
    - destruct (step e s0) as [s1|] eqn:E; [|done].
      eapply IH; [|exact Hrun]. eapply step_result_selection; eauto. }
  exact (H Hst).
Qed.

(** The result of a card failed with two wrong answers. *)
Lemma result_has_selection_witness :
  ∃ s, run [ClickStart; FetchSettled 0 (Fulfilled (sampleBatch "w"));
            ClickOption 0 1; ClickOption 2 2] (mount None) = Some s
       ∧ status s = REVIEW ∧ selectedOption s = Some "wrong b"
       ∧ ∃ opt, selectedOption s = Some opt.
Proof.
  eexists. split; [vm_compute; reflexivity|]. split; [reflexivity|].
  split; [reflexivity|].
  edestruct (result_has_selection None) as (opt & H).
  - exists [ClickStart; FetchSettled 0 (Fulfilled (sampleBatch "w"));
            ClickOption 0 1; ClickOption 2 2]. vm_compute. reflexivity.
  - reflexivity.
  - exists opt. exact H.
Defined.

Lemma step_outside_quiz e s s' :
  step e s = Some s' → e ≠ ClickStart →
  (status s = IDLE ∨ status s = MISTAKES) ∧ awaiters s = [] ∧ timers s = [] →
  ((status s' = IDLE ∨ status s' = MISTAKES) ∧ awaiters s' = [] ∧ timers s' = [])
  ∧ words s' = words s ∧ currentIndex s' = currentIndex s
  ∧ reviewWord s' = reviewWord s.
Proof.
  intros Hstep Hne (Hst & Ha & Ht).
  destruct e as [| | | | |idx now|u1 u2|now|idx|p r|]; try done.
  9:{ unfold step in Hstep. destruct (promises s !! p) as [[|]|]; simplify_eq.
      unfold settle. rewrite Ha. simpl. destruct r; simpl; split_and!; done. }
  all: unfold step in Hstep; rewrite ?Ht in Hstep;
    repeat (case_decide || case_match); simplify_eq; simpl;
    try (split_and!; auto; done); destruct Hst; congruence.
Qed.

(** X26: the notebook and the welcome screen are left for a quiz by a start
    only.  From the welcome screen or the notebook, with no request waited
    for and no reward timer pending, whatever the user does other than
    pressing start (open and close the notebook, remove records, press the
    logo) and whatever requests settle, the quiz does not come back: the
    screen stays one of the two, and batch, position and review card are the
    ones that were left behind. *)
Theorem quiz_only_by_start es s s' :
  run es s = Some s' →
  (status s = IDLE ∨ status s = MISTAKES) →
  awaiters s = [] → timers s = [] →
  ClickStart ∉ es →
  (status s' = IDLE ∨ status s' = MISTAKES)
  ∧ words s' = words s ∧ currentIndex s' = currentIndex s
  ∧ reviewWord s' = reviewWord s.
Proof.
  revert s. induction es as [|e es IH]; simpl; intros s Hrun Hst Ha Ht Hno.
  - by simplify_eq.
  - destruct (step e s) as [s1|] eqn:E; [|done].
    destruct (step_outside_quiz e s s1 E) as ((Hst1 & Ha1 & Ht1) & Hw & Hi & Hr).
    { intros ->. apply Hno, list_elem_of_here. }
    { done. }
    destruct (IH s1 Hrun Hst1 Ha1 Ht1) as (H1 & H2 & H3 & H4).
    { intros Hin. apply Hno. by apply list_elem_of_further. }
    split; [done|]. split; [congruence|]. split; congruence.
Qed.

(** The notebook opened in the middle of a card, a record removed, the
    notebook closed and opened again. *)
Lemma quiz_only_by_start_witness :
  ∃ s s', run [ClickStart; FetchSettled 0 (Fulfilled (sampleBatch "w"));
               ClickOption 0 1; ClickTopMistakes]
            (mount (Some [sampleRecord "old" 0; sampleRecord "new" 0])) = Some s
    ∧ run [ClickRemove 0; ClickClose; ClickNotebook; ClickLogo] s = Some s'
    ∧ status s' = IDLE ∧ words s' = sampleBatch "w".
Proof.
  eexists. eexists. split; [vm_compute; reflexivity|].
  match goal with |- run ?es ?s = Some ?s' ∧ _ =>
    assert (E : run es s = Some s') by (vm_compute; reflexivity);
    destruct (quiz_only_by_start es s s' E) as (_ & H & _)
  end.
  - by right.
  - reflexivity.
  - reflexivity.
  - intros Hin.
    repeat (apply elem_of_cons in Hin as [Hin|Hin]; [discriminate|]).
    by apply not_elem_of_nil in Hin.
  - split; [exact E|]. split; [reflexivity|exact H].
Defined.

(** ** Cards that come on screen *)

(** Every way a card comes on screen starts it without a wrong attempt and
    without a reward, except one: a batch delivered to the [.then] of
    [nextWord]. *)
Lemma card_starts_fresh e s s' :
  step e s = Some s' →
  activeCard s' ≠ activeCard s →
  (∃ p ws, e = FetchSettled p (Fulfilled ws) ∧ (p, NextCont) ∈ awaiters s)
  ∨ (wrongCandidates s' = [] ∧ showReward s' = false).
Proof.
  intros Hstep Hne.
  destruct e as [| | | | |idx now|u1 u2|now|idx|p r|].
  10:{ unfold step in Hstep. destruct (promises s !! p) as [[|]|]; simplify_eq.
       destruct (decide ((p, NextCont) ∈ awaiters s)) as [Hin|Hnin].
       { destruct r as [ws|]; [left; eauto|].
         exfalso. apply Hne.
         apply (settle_preserves (λ st, activeCard st = activeCard s)); try done.
         intros k st Hst. by destruct k as [[]|]. }
       right.
       assert (Hall : Forall (λ a : nat * Continuation, a.2 ≠ NextCont)
                        (filter (λ a : nat * Continuation, a.1 = p) (awaiters s))).
       { apply Forall_forall. intros [q k] [Hq Hin]%list_elem_of_filter Hk.
         simpl in *. subst. done. }
       unfold settle in *. cbv zeta in *.
       revert Hall Hne.
       generalize (filter (λ a : nat * Continuation, a.1 = p) (awaiters s)).
       intros ks. induction ks as [|[q k] ks _] using rev_ind; intros Hall Hne.
       - exfalso. apply Hne. simpl. by destruct r.
       - rewrite foldl_app in *. simpl in *.
         apply Forall_app in Hall as [_ Hk]. apply Forall_cons in Hk as [Hk _].
         simpl in Hk. destruct k as [pre|]; [|by destruct Hk]. destruct r as [ws|].
         + by destruct pre.
         + exfalso. apply Hne. simpl.
           apply (foldl_resume_preserves (λ st, activeCard st = activeCard s));
             [|done].
           intros k st Hst. by destruct k as [[]|]. }
  7:{ apply step_ClickNext in Hstep as (_ & _ & _ & _ & ->). right.
      unfold nextWord, callFetchWordBatch, register.
      repeat (case_decide || case_match); done. }
  3:{ unfold step in Hstep. case_decide; simplify_eq.
      unfold startSession, callFetchWordBatch, register in *.
      destruct (initFetchPromise s) as [p|]; [|by destruct Hne].
      destruct (promises s !! p) as [[[ws|]|]|]; try (by destruct Hne).
      by right. }
  all: exfalso; apply Hne; unfold_step Hstep; done.
Qed.
